(** * C-RASP membership decider: a shallow embedding of [decider.py]

    The decider turns a DFA into a networkx [MultiDiGraph], splits it into
    strongly connected components and, on every component, alternates
    between solving the loop equations (a null space) and relabelling the
    edges with potentials, until the null space stops changing; the
    component passes when its final labelling is separated.

    Python dictionaries are association lists in insertion order, the
    [Matrix] labels are lists of canonical rationals, exceptions are an
    error monad, and the [while True] loop of [attack_scc] takes fuel.
    The functions of networkx and sympy that the decider calls are
    variables of the section [Decider]; [Module Ref] gives executable
    instances of them for the worked examples. *)

From Stdlib Require Import List String ZArith QArith Qcanon Bool Arith Lia.
From Stdlib Require Import Permutation.
Import ListNotations.

Local Open Scope nat_scope.

(** ** Values *)

Definition symbol := string.
Definition state := string.
Definition node := nat.

(** A sympy column [Matrix] of rationals, and the tuple it converts to. *)
Definition vec := list Qc.

(** An edge label: the consuming symbol at first, a vector after a
    relabelling ([isinstance(label, Matrix)]). *)
Inductive label : Type :=
| Sym (s : symbol)
| Vec (v : vec).

Fixpoint vec_eqb (a b : vec) : bool :=
  match a, b with
  | [], [] => true
  | x :: a', y :: b' => Qc_eq_bool x y && vec_eqb a' b'
  | _, _ => false
  end.

Definition label_eqb (a b : label) : bool :=
  match a, b with
  | Sym s, Sym t => String.eqb s t
  | Vec v, Vec w => vec_eqb v w
  | _, _ => false
  end.

Fixpoint nullspace_eqb (a b : list vec) : bool :=
  match a, b with
  | [], [] => true
  | x :: a', y :: b' => vec_eqb x y && nullspace_eqb a' b'
  | _, _ => false
  end.

Definition is_tuple (l : label) : bool :=
  match l with Sym _ => false | Vec _ => true end.

(** ** Exceptions and the error monad *)

Inductive exn : Type :=
| KeyError | ValueError | IndexError | ShapeError | AttributeError
| NetworkXError | NetworkXNoPath.

Inductive outcome (A : Type) : Type :=
| Returns (a : A)
| Raises (e : exn)
| OutOfFuel.

Arguments Returns {A} a.
Arguments Raises {A} e.
Arguments OutOfFuel {A}.

Definition bind {A B} (m : outcome A) (k : A -> outcome B) : outcome B :=
  match m with
  | Returns a => k a
  | Raises e => Raises e
  | OutOfFuel => OutOfFuel
  end.

Notation "x <- m ;; k" := (bind m (fun x => k))
  (at level 61, m at next level, right associativity).

Definition lookup_or {A} (e : exn) (o : option A) : outcome A :=
  match o with Some a => Returns a | None => Raises e end.

(** [for x in xs: acc = body(acc, x)], leaving at the first exception. *)
Fixpoint foldM {A S} (body : S -> A -> outcome S) (xs : list A) (acc : S)
  : outcome S :=
  match xs with
  | [] => Returns acc
  | x :: xs' => acc' <- body acc x ;; foldM body xs' acc'
  end.

(** The list of results of [body] on each element, in order. *)
Fixpoint mapM {A B} (body : A -> outcome B) (xs : list A) : outcome (list B) :=
  match xs with
  | [] => Returns []
  | x :: xs' => y <- body x ;; ys <- mapM body xs' ;; Returns (y :: ys)
  end.

(** ** Dictionaries in insertion order *)

Section Dict.
Context {K V : Type} (eqb : K -> K -> bool).

Fixpoint dict_get (d : list (K * V)) (k : K) : option V :=
    match d with
    | [] => None
    | (k', v) :: d' => if eqb k' k then Some v else dict_get d' k
    end.

  (** [d[k] = v]: an existing key keeps its place, a new one goes last. *)
Fixpoint dict_set (d : list (K * V)) (k : K) (v : V) : list (K * V) :=
    match d with
    | [] => [(k, v)]
    | (k', v') :: d' =>
        if eqb k' k then (k', v) :: d' else (k', v') :: dict_set d' k v
    end.

Definition dict_mem (d : list (K * V)) (k : K) : bool :=
    match dict_get d k with Some _ => true | None => false end.
End Dict.

(** ** The multigraph

    [G._adj]: node -> successor -> key -> label.  The order of the outer
    list is the order of [G.nodes()]; [G.edges()] walks the three levels
    in order. *)

Definition keydict := list (symbol * label).
Definition nbrdict := list (node * keydict).
Definition graph := list (node * nbrdict).

Record edge : Type := mkEdge
  { src : node; dst : node; ekey : symbol; elabel : label }.

(** An edge as [get_path_edges] reports it: [(n1, n2, label)]. *)
Definition hop : Type := node * node * label.

Definition nodes (G : graph) : list node := map fst G.

Definition edges_from (u : node) (nb : nbrdict) : list edge :=
  flat_map (fun '(v, kd) => map (fun '(k, l) => mkEdge u v k l) kd) nb.

(** [G.edges(keys=True, data=True)] *)
Definition edges (G : graph) : list edge :=
  flat_map (fun '(u, nb) => edges_from u nb) G.

Definition add_node (G : graph) (n : node) : graph :=
  if dict_mem Nat.eqb G n then G else G ++ [(n, [])].

(** [G.add_edge(u, v, key=key, label=lbl)] *)
Definition add_edge (G : graph) (u v : node) (key : symbol) (lbl : label)
  : graph :=
  let G1 := add_node (add_node G u) v in
  let nb := match dict_get Nat.eqb G1 u with Some nb => nb | None => [] end in
  let kd := match dict_get Nat.eqb nb v with
            | Some kd => dict_set String.eqb kd key lbl
            | None => [(key, lbl)]
            end in
  dict_set Nat.eqb G1 u (dict_set Nat.eqb nb v kd).

(** [G[u][v][key]['label']] *)
Definition edge_label (G : graph) (u v : node) (key : symbol) : option label :=
  match dict_get Nat.eqb G u with
  | Some nb => match dict_get Nat.eqb nb v with
               | Some kd => dict_get String.eqb kd key
               | None => None
               end
  | None => None
  end.

(** [G[u][v][key]['label'] = lbl] on an existing edge; [KeyError] otherwise. *)
Definition set_edge_label (G : graph) (u v : node) (key : symbol) (lbl : label)
  : outcome graph :=
  nb <- lookup_or KeyError (dict_get Nat.eqb G u) ;;
  kd <- lookup_or KeyError (dict_get Nat.eqb nb v) ;;
  _ <- lookup_or KeyError (dict_get String.eqb kd key) ;;
  Returns (dict_set Nat.eqb G u
             (dict_set Nat.eqb nb v (dict_set String.eqb kd key lbl))).

(** [G.adj] without the edge data: each node with its successors.  The
    graph algorithms of networkx read nothing else. *)
Definition adjacency : Type := list (node * list node).

Definition adj (G : graph) : adjacency :=
  map (fun '(u, nb) => (u, map fst nb)) G.

(** ** The automaton *)

Record DFA : Type := mkDFA
  { states : list state;
    input_symbols : list symbol;
    transitions : list (state * list (symbol * state));
    initial_state : state;
    final_states : list state }.

(** [state_mapping[state_list[i]] = i] for [i] in [range(len(state_list))] *)
Fixpoint build_state_mapping (state_list : list state) (i : nat)
  (state_mapping : list (state * node)) : list (state * node) :=
  match state_list with
  | [] => state_mapping
  | q :: rest =>
      build_state_mapping rest (S i) (dict_set String.eqb state_mapping q i)
  end.

Definition automata_to_graph (my_dfa : DFA) : outcome graph :=
  let state_list := states my_dfa in
  let state_mapping := build_state_mapping state_list 0 [] in
  foldM (fun G q =>
           row <- lookup_or KeyError
                    (dict_get String.eqb (transitions my_dfa) q) ;;
           foldM (fun G '(sym, target) =>
                    u <- lookup_or KeyError
                           (dict_get String.eqb state_mapping q) ;;
                    v <- lookup_or KeyError
                           (dict_get String.eqb state_mapping target) ;;
                    Returns (add_edge G u v sym (Sym sym)))
                 row G)
        (states my_dfa) [].

(** ** Subgraph views

    [G.subgraph(component)] is a view: it shows the nodes of the component
    and the edges between them, in the order of the underlying graph, and
    shares the edge data with it.  Reading the view reads [induced];
    assigning a label through the view assigns it in [base]. *)

Record view : Type := mkView { base : graph; keep : list node }.

Definition shown (c : list node) (n : node) : bool := existsb (Nat.eqb n) c.

Definition induced (sg : view) : graph :=
  map (fun '(u, nb) => (u, filter (fun '(v, _) => shown (keep sg) v) nb))
      (filter (fun '(u, _) => shown (keep sg) u) (base sg)).

Definition view_set_label (sg : view) (u v : node) (key : symbol) (lbl : label)
  : outcome view :=
  if shown (keep sg) u && shown (keep sg) v then
    G' <- set_edge_label (base sg) u v key lbl ;;
    Returns (mkView G' (keep sg))
  else Raises KeyError.

(** ** Vectors *)

(** [a + b] on column matrices; sympy raises [ShapeError] on a size mismatch. *)
Fixpoint vadd (a b : vec) : outcome vec :=
  match a, b with
  | [], [] => Returns []
  | x :: a', y :: b' => r <- vadd a' b' ;; Returns ((x + y)%Qc :: r)
  | _, _ => Raises ShapeError
  end.

(** [a.col_join(b)] returns a new matrix, [a] on top of [b]. *)
Definition col_join (a b : vec) : vec := a ++ b.

(** ** Paths and cycles *)

Definition successors (G : graph) (n : node) : outcome nbrdict :=
  lookup_or NetworkXError (dict_get Nat.eqb G n).

Fixpoint get_path_edges (G : graph) (path : list node)
  : outcome (list (list hop)) :=
  match path with
  | [] => Returns []
  | first :: rest =>
      match rest with
      | [] => Returns []
      | r0 :: rest' =>
          succs <- successors G first ;;
          foldM (fun edges '(succ, kd) =>
                   if Nat.eqb succ r0 then
                     foldM (fun edges '(_, lbl) =>
                              match rest' with
                              | [] => Returns (edges ++ [[(first, succ, lbl)]])
                              | _ :: _ =>
                                  sub_paths <- get_path_edges G rest ;;
                                  Returns (edges ++
                                             map (cons (first, succ, lbl))
                                                 sub_paths)
                              end)
                           kd edges
                   else Returns edges)
                succs []
      end
  end.

(** [vec] counts the occurrences of each symbol of the cycle; [index]
    raises [ValueError] on a symbol that is not in the alphabet. *)
Fixpoint index_of (ordered_alphabet : list label) (sym : label) : option nat :=
  match ordered_alphabet with
  | [] => None
  | a :: rest =>
      if label_eqb a sym then Some 0
      else option_map S (index_of rest sym)
  end.

Fixpoint increment (vec : list Z) (index : nat) : list Z :=
  match vec, index with
  | [], _ => []
  | x :: vec', 0 => (x + 1)%Z :: vec'
  | x :: vec', S i => x :: increment vec' i
  end.

Definition loop_equations (ordered_alphabet : list label)
  (cycles : list (list hop)) : outcome (list (list Z)) :=
  mapM (fun cycle =>
          foldM (fun vec '(_, _, sym) =>
                   index <- lookup_or ValueError
                              (index_of ordered_alphabet sym) ;;
                   Returns (increment vec index))
                cycle (repeat 0%Z (List.length ordered_alphabet)))
       cycles.

(** ** Separation *)

Fixpoint separated_from (labels : list (label * node)) (es : list edge) : bool :=
  match es with
  | [] => true
  | e :: es' =>
      match dict_get label_eqb labels (elabel e) with
      | Some w =>
          if negb (Nat.eqb w (dst e)) then false
          else separated_from labels es'
      | None =>
          separated_from (dict_set label_eqb labels (elabel e) (dst e)) es'
      end
  end.

Definition separated (G : graph) : bool := separated_from [] (edges G).

(** ** The potential of an edge

    [vec = morphism[label]], then [vec += morphism[e[2]]] along the first
    expansion of the path, if there is one. *)

Definition morphism := list (label * vec).

Definition path_sum (m : morphism) (vec0 : vec) (path_edges : list hop)
  : outcome vec :=
  foldM (fun vec (e : hop) =>
           img <- lookup_or KeyError (dict_get label_eqb m (snd e)) ;;
           vadd vec img)
        path_edges vec0.

Definition potential (m : morphism) (lbl : label)
  (path_edges : list (list hop)) : outcome vec :=
  vec <- lookup_or KeyError (dict_get label_eqb m lbl) ;;
  match path_edges with
  | [] => Returns vec
  | first_expansion :: _ => path_sum m vec first_expansion
  end.

(** The loop over the keys of [graph_copy[u][v]] for one edge whose label
    is [lbl] and whose potential is [vec]. *)
Definition update_keys (G : graph) (u v : node) (lbl : label) (vec : vec)
  (kd : keydict) : outcome keydict :=
  mapM (fun '(key, edge_lbl) =>
          if label_eqb edge_lbl lbl then
            if negb (is_tuple edge_lbl) then Returns (key, Vec vec)
            else
              g <- lookup_or KeyError (edge_label G u v key) ;;
              match g with
              | Vec temp_g_label =>
                  let _ := col_join temp_g_label vec in
                  Returns (key, Vec temp_g_label)
              | Sym _ => Raises AttributeError
              end
          else Returns (key, edge_lbl))
       kd.

(** ** The decider, over the library functions it calls *)

Section Decider.

  (** [nx.simple_cycles(G)]: node cycles, none of them empty. *)
Variable simple_cycles : adjacency -> list (node * list node).
  (** [nx.shortest_path(G, source, target)]; [None] is [NetworkXNoPath]. *)
Variable shortest_path : adjacency -> node -> node -> option (list node).
  (** [nx.strongly_connected_components(G)] *)
Variable strongly_connected_components : adjacency -> list (list node).
  (** [Matrix(basis).nullspace()] *)
Variable nullspace : list (list Z) -> list vec.
  (** [list(set(hashable_labels))]: the distinct labels in hash order. *)
Variable set_order : list label -> list label.

Definition get_simple_cycles_edges (G : graph) : outcome (list (list hop)) :=
    foldM (fun cycles '(c0, rest) =>
             edges <- get_path_edges G ((c0 :: rest) ++ [c0]) ;;
             Returns (cycles ++ edges))
          (simple_cycles (adj G)) [].

Definition get_ordered_alphabet (G : graph) : list label :=
    set_order (map elabel (edges G)).

  (** One turn of the loop over [graph_copy.edges(data=True)]: the edge
      [(u, v, key)], whose data lives in the key dictionary [kd]. *)
Definition relabel_edge (G : graph) (start_node : node) (m : morphism)
    (u v : node) (kd : keydict) (key : symbol) : outcome keydict :=
    lbl <- lookup_or KeyError (dict_get String.eqb kd key) ;;
    path <- lookup_or NetworkXNoPath (shortest_path (adj G) start_node u) ;;
    path_edges <- get_path_edges G path ;;
    vec <- potential m lbl path_edges ;;
    update_keys G u v lbl vec kd.

Definition relabel_copy (G : graph) (start_node : node) (m : morphism)
    (graph_copy : graph) : outcome graph :=
    mapM (fun '(u, nb) =>
            nb' <- mapM (fun '(v, kd) =>
                           kd' <- foldM (relabel_edge G start_node m u v)
                                        (map fst kd) kd ;;
                           Returns (v, kd'))
                        nb ;;
            Returns (u, nb'))
         graph_copy.

  (** "copy back into G" *)
Definition copy_back (sg : view) (graph_copy : graph) : outcome view :=
    foldM (fun sg e => view_set_label sg (src e) (dst e) (ekey e) (elabel e))
          (edges graph_copy) sg.

Definition relabel (sg : view) (cycles : list (list hop)) (m : morphism)
    : outcome view :=
    let G := induced sg in
    start_node <- lookup_or IndexError (hd_error (nodes G)) ;;
    graph_copy <- relabel_copy G start_node m G ;;
    copy_back sg graph_copy.

  (** [morphism[ordered_alphabet[i]] = Matrix([nb[i] for nb in nullspace])] *)
Definition build_morphism (ordered_alphabet : list label)
    (current_nullspace : list vec) : outcome morphism :=
    foldM (fun m '(i, sym) =>
             vec <- mapM (fun nb => lookup_or IndexError (nth_error nb i))
                         current_nullspace ;;
             Returns (dict_set label_eqb m sym vec))
          (combine (seq 0 (List.length ordered_alphabet)) ordered_alphabet) [].

  (** The null space that a round computes from the current labelling. *)
Definition round_nullspace (sg : view) : outcome (list vec) :=
    let G := induced sg in
    cycles <- get_simple_cycles_edges G ;;
    basis <- loop_equations (get_ordered_alphabet G) cycles ;;
    Returns (nullspace basis).

Definition same_nullspace (current : list vec) (prev : option (list vec))
    : bool :=
    match prev with
    | Some p => nullspace_eqb current p
    | None => false
    end.

Inductive round_result : Type :=
  | Break
  | Continue (prev_nullspace : list vec) (sg : view).

  (** The body of [while True]. *)
Definition attack_round (prev_nullspace : option (list vec)) (sg : view)
    : outcome round_result :=
    let G := induced sg in
    let ordered_alphabet := get_ordered_alphabet G in
    cycles <- get_simple_cycles_edges G ;;
    basis <- loop_equations ordered_alphabet cycles ;;
    let current_nullspace := nullspace basis in
    if same_nullspace current_nullspace prev_nullspace then Returns Break
    else
      match current_nullspace with
      | [] => Returns Break
      | _ :: _ =>
          m <- build_morphism ordered_alphabet current_nullspace ;;
          sg' <- relabel sg cycles m ;;
          Returns (Continue current_nullspace sg')
      end.

  (** [attack_scc]: the view it leaves behind and what it returns. *)
Fixpoint attack_loop (fuel : nat) (prev_nullspace : option (list vec))
    (sg : view) : view * outcome bool :=
    match fuel with
    | 0 => (sg, OutOfFuel)
    | S fuel' =>
        match attack_round prev_nullspace sg with
        | Returns Break => (sg, Returns (separated (induced sg)))
        | Returns (Continue current sg') => attack_loop fuel' (Some current) sg'
        | Raises e => (sg, Raises e)
        | OutOfFuel => (sg, OutOfFuel)
        end
    end.

Definition attack_scc (fuel : nat) (sg : view) : view * outcome bool :=
    attack_loop fuel None sg.

  (** [for component in sccs: ...] over the graph [G], whose labels the
      views change. *)
Fixpoint decide_loop (fuel : nat) (G : graph) (sccs : list (list node))
    : graph * outcome bool :=
    match sccs with
    | [] => (G, Returns true)
    | component :: rest =>
        let sg := mkView G component in
        let (sg', result) := attack_scc fuel sg in
        match result with
        | Returns true => decide_loop fuel (base sg') rest
        | Returns false => (base sg', Returns false)
        | Raises e => (base sg', Raises e)
        | OutOfFuel => (base sg', OutOfFuel)
        end
    end.

Definition decide_CRASP_membership (fuel : nat) (my_dfa : DFA)
    : outcome bool :=
    G <- automata_to_graph my_dfa ;;
    snd (decide_loop fuel G (strongly_connected_components (adj G))).

End Decider.

(** ** Executable instances of the library functions

    Small reference implementations with the contracts of the networkx
    and sympy functions; the examples below run the decider on them. *)

Module Ref.

Definition mem (n : node) (l : list node) : bool := existsb (Nat.eqb n) l.

Definition succ_nodes (A : adjacency) (n : node) : list node :=
  match dict_get Nat.eqb A n with
  | Some successors => successors
  | None => []
  end.

(** The distinct labels, each at its first occurrence. *)
Fixpoint distinct (seen l : list label) : list label :=
    match l with
    | [] => []
    | x :: r =>
        if existsb (label_eqb x) seen then distinct seen r
        else x :: distinct (x :: seen) r
    end.

Definition set_order (l : list label) : list label := distinct [] l.

  (** Elementary cycles through [s] that stay inside [allowed], by
      depth-first search; [trail] is the path walked so far, reversed. *)
Fixpoint cycles_through (fuel : nat) (A : adjacency) (allowed : list node)
    (s : node) (trail : list node) (cur : node) : list (list node) :=
    match fuel with
    | 0 => []
    | S fuel' =>
        flat_map (fun w =>
                    if Nat.eqb w s then
                      match trail with
                      | [] => []   (* a self-loop, listed separately *)
                      | _ :: _ => [rev (cur :: trail)]
                      end
                    else if mem w allowed && negb (mem w (cur :: trail)) then
                      cycles_through fuel' A allowed s (cur :: trail) w
                    else [])
                 (succ_nodes A cur)
    end.

Fixpoint cycles_rooted (A : adjacency) (ns : list node) : list (list node) :=
    match ns with
    | [] => []
    | s :: later =>
        cycles_through (S (List.length later)) A later s [] s
          ++ cycles_rooted A later
    end.

Definition as_cycle (c : list node) : list (node * list node) :=
    match c with [] => [] | c0 :: rest => [(c0, rest)] end.

  (** Self-loops first, then every longer cycle once, from its first node. *)
Definition simple_cycles (A : adjacency) : list (node * list node) :=
    map (fun v => (v, [])) (filter (fun v => mem v (succ_nodes A v)) (map fst A))
      ++ flat_map as_cycle (cycles_rooted A (map fst A)).

  (** Breadth-first search; the frontier holds reversed paths. *)
Fixpoint bfs (fuel : nat) (A : adjacency) (target : node)
    (frontier : list (list node)) (visited : list node)
    : option (list node) :=
    match find (fun p => match p with [] => false | n :: _ => Nat.eqb n target end)
               frontier with
    | Some p => Some (rev p)
    | None =>
        match fuel with
        | 0 => None
        | S fuel' =>
            let step :=
              fold_left (fun '(next, seen) p =>
                           match p with
                           | [] => (next, seen)
                           | n :: _ =>
                               fold_left (fun '(next, seen) w =>
                                            if mem w seen then (next, seen)
                                            else (next ++ [w :: p], w :: seen))
                                         (succ_nodes A n) (next, seen)
                           end)
                        frontier ([], visited) in
            match fst step with
            | [] => None
            | _ :: _ => bfs fuel' A target (fst step) (snd step)
            end
        end
    end.

Definition shortest_path (A : adjacency) (source target : node)
    : option (list node) :=
    if mem source (map fst A) && mem target (map fst A) then
      bfs (List.length A) A target [[source]] [source]
    else None.

Definition reaches (A : adjacency) (a b : node) : bool :=
    match shortest_path A a b with Some _ => true | None => false end.

Fixpoint components (fuel : nat) (A : adjacency) (todo : list node)
    : list (list node) :=
    match fuel, todo with
    | S fuel', n :: rest =>
        let c := filter (fun m => reaches A n m && reaches A m n) (n :: rest) in
        c :: components fuel' A (filter (fun m => negb (mem m c)) rest)
    | _, _ => []
    end.

Definition strongly_connected_components (A : adjacency) : list (list node) :=
    components (List.length A) A (map fst A).

(** Gauss-Jordan elimination over the rationals, then one basis vector
    per free column, as sympy's [nullspace] builds them from [rref]. *)

Definition entry (r : vec) (j : nat) : Qc := nth j r 0%Qc.

Fixpoint row_sub (r p : vec) (c : Qc) : vec :=
  match r, p with
  | x :: r', y :: p' => (x - c * y)%Qc :: row_sub r' p' c
  | _, _ => r
  end.

(** The first row with a nonzero entry in column [j], and the other rows. *)
Fixpoint split_pivot (j : nat) (rows : list vec) : option (vec * list vec) :=
  match rows with
  | [] => None
  | r :: rest =>
      if Qc_eq_bool (entry r j) 0%Qc then
        option_map (fun '(p, others) => (p, r :: others)) (split_pivot j rest)
      else Some (r, rest)
  end.

Fixpoint rref (cols : list nat) (reduced todo : list vec) (pivots : list nat)
  : list vec * list nat :=
  match cols with
  | [] => (reduced, pivots)
  | j :: cols' =>
      match split_pivot j todo with
      | None => rref cols' reduced todo pivots
      | Some (p, others) =>
          let p1 := map (Qcmult (/ entry p j)%Qc) p in
          let clear r := row_sub r p1 (entry r j) in
          rref cols' (map clear reduced ++ [p1]) (map clear others)
               (pivots ++ [j])
      end
  end.

Fixpoint set_entry (v : vec) (j : nat) (x : Qc) : vec :=
  match v, j with
  | [], _ => []
  | _ :: v', 0 => x :: v'
  | y :: v', S j' => y :: set_entry v' j' x
  end.

Definition nullspace (basis : list (list Z)) : list vec :=
  let rows := map (map (fun z => Q2Qc (inject_Z z))) basis in
  let cols := match rows with [] => 0 | r :: _ => List.length r end in
  let (reduced, pivots) := rref (seq 0 cols) [] rows [] in
  map (fun free_var =>
         fold_left (fun v '(piv_row, piv_col) =>
                      set_entry v piv_col
                        (entry v piv_col - entry piv_row free_var)%Qc)
                   (combine reduced pivots)
                   (set_entry (repeat 0%Qc cols) free_var 1%Qc))
      (filter (fun j => negb (mem j pivots)) (seq 0 cols)).

End Ref.

(** * Properties *)

(** ** Equality tests *)

Lemma Qc_eq_bool_refl (x : Qc) : Qc_eq_bool x x = true.
Proof. unfold Qc_eq_bool. destruct (Qc_eq_dec x x); congruence. Qed.

Lemma vec_eqb_eq (a b : vec) : vec_eqb a b = true <-> a = b.
Proof.
  revert b. induction a as [|x a IH]; intros [|y b]; simpl;
    try (split; congruence).
  rewrite andb_true_iff, IH. split.
  - intros [H ->]. apply Qc_eq_bool_correct in H. now subst.
  - intros [= -> ->]. split; [apply Qc_eq_bool_refl | reflexivity].
Qed.

Lemma label_eqb_eq (a b : label) : label_eqb a b = true <-> a = b.
Proof.
  destruct a as [s|v], b as [t|w]; simpl; try (split; congruence).
  - rewrite String.eqb_eq. split; congruence.
  - rewrite vec_eqb_eq. split; congruence.
Qed.

Lemma label_eqb_refl (a : label) : label_eqb a a = true.
Proof. now apply label_eqb_eq. Qed.

Lemma label_eqb_neq (a b : label) : label_eqb a b = false <-> a <> b.
Proof.
  rewrite <- label_eqb_eq. destruct (label_eqb a b); split; congruence.
Qed.

Lemma nullspace_eqb_eq (a b : list vec) : nullspace_eqb a b = true <-> a = b.
Proof.
  revert b. induction a as [|x a IH]; intros [|y b]; simpl;
    try (split; congruence).
  rewrite andb_true_iff, IH, vec_eqb_eq. split.
  - intros [-> ->]. reflexivity.
  - intros [= -> ->]. split; reflexivity.
Qed.

Lemma nat_eqb_iff (a b : nat) : Nat.eqb a b = true <-> a = b.
Proof. apply Nat.eqb_eq. Qed.

Lemma string_eqb_iff (a b : string) : String.eqb a b = true <-> a = b.
Proof. apply String.eqb_eq. Qed.

(** ** The error monad *)

Lemma bind_Returns {A B} (m : outcome A) (k : A -> outcome B) (b : B) :
  bind m k = Returns b -> exists a, m = Returns a /\ k a = Returns b.
Proof. destruct m; simpl; try discriminate. eauto. Qed.

Lemma foldM_app {A S} (body : S -> A -> outcome S) (xs ys : list A) (acc : S) :
  foldM body (xs ++ ys) acc = (acc' <- foldM body xs acc ;; foldM body ys acc').
Proof.
  revert acc. induction xs as [|x xs IH]; intros acc; simpl; [reflexivity|].
  destruct (body acc x); simpl; auto.
Qed.

(** A property that every turn of the loop keeps holds when it returns. *)
Lemma foldM_invariant {A S} (P : S -> Prop) (body : S -> A -> outcome S)
  (xs : list A) :
  (forall acc x acc', In x xs -> P acc -> body acc x = Returns acc' -> P acc') ->
  forall acc r, P acc -> foldM body xs acc = Returns r -> P r.
Proof.
  induction xs as [|x xs IH]; intros Hstep acc r Hacc Hrun; simpl in Hrun.
  - now injection Hrun as <-.
  - apply bind_Returns in Hrun as (acc' & Hb & Hrest).
    apply (IH (fun a y a' Hy => Hstep a y a' (or_intror Hy)) acc' r); auto.
    apply (Hstep acc x acc'); simpl; auto.
Qed.

Lemma foldM_ext {A S} (f g : S -> A -> outcome S) (xs : list A) (acc : S) :
  (forall a x, In x xs -> f a x = g a x) -> foldM f xs acc = foldM g xs acc.
Proof.
  revert acc. induction xs as [|x xs IH]; intros acc H; simpl; [reflexivity|].
  rewrite H by (simpl; auto). destruct (g acc x); simpl; auto.
  apply IH. intros; apply H; simpl; auto.
Qed.

Lemma mapM_ext {A B} (f g : A -> outcome B) (xs : list A) :
  (forall x, In x xs -> f x = g x) -> mapM f xs = mapM g xs.
Proof.
  induction xs as [|x xs IH]; intros H; simpl; [reflexivity|].
  rewrite H by (simpl; auto). rewrite IH; auto. intros; apply H; simpl; auto.
Qed.

Lemma mapM_Returns_Forall2 {A B} (f : A -> outcome B) (xs : list A)
  (ys : list B) :
  mapM f xs = Returns ys <-> Forall2 (fun x y => f x = Returns y) xs ys.
Proof.
  revert ys. induction xs as [|x xs IH]; intros ys; simpl.
  - split.
    + intros [= <-]. constructor.
    + intros H; inversion H; reflexivity.
  - split.
    + intros H. apply bind_Returns in H as (y & Hy & H).
      apply bind_Returns in H as (ys' & Hys & H). injection H as <-.
      constructor; [assumption | now apply IH].
    + intros H. inversion H as [|? y ? ys' Hy Hys]; subst.
      rewrite Hy. simpl. apply IH in Hys. rewrite Hys. reflexivity.
Qed.

Lemma mapM_fixed {A} (f : A -> outcome A) (xs : list A) :
  (forall x, In x xs -> f x = Returns x) -> mapM f xs = Returns xs.
Proof.
  induction xs as [|x xs IH]; intros H; simpl; [reflexivity|].
  rewrite H by (simpl; auto). simpl. rewrite IH; [reflexivity|].
  intros; apply H; simpl; auto.
Qed.

Lemma foldM_fixed {A S} (body : S -> A -> outcome S) (xs : list A) (acc : S) :
  (forall x, In x xs -> body acc x = Returns acc) ->
  foldM body xs acc = Returns acc.
Proof.
  induction xs as [|x xs IH]; intros H; simpl; [reflexivity|].
  rewrite H by (simpl; auto). simpl. apply IH. intros; apply H; simpl; auto.
Qed.

(** ** Dictionaries *)

Section DictFacts.
Context {K V : Type} (eqb : K -> K -> bool).
Hypothesis eqb_iff : forall a b, eqb a b = true <-> a = b.

Lemma eqb_same (a : K) : eqb a a = true.
Proof. now apply eqb_iff. Qed.

Lemma eqb_diff (a b : K) : a <> b -> eqb a b = false.
Proof.
  intros H. destruct (eqb a b) eqn:E; [|reflexivity].
  apply eqb_iff in E. contradiction.
Qed.

Lemma dict_get_In (d : list (K * V)) (k : K) (v : V) :
  dict_get eqb d k = Some v -> In (k, v) d.
Proof.
  induction d as [|[k' v'] d IH]; simpl; [discriminate|].
  destruct (eqb k' k) eqn:E.
  - apply eqb_iff in E. intros [= ->]. subst. auto.
  - auto.
Qed.

Lemma dict_get_None (d : list (K * V)) (k : K) :
  dict_get eqb d k = None <-> ~ In k (map fst d).
Proof.
  induction d as [|[k' v'] d IH]; simpl; [tauto|].
  destruct (eqb k' k) eqn:E.
  - apply eqb_iff in E. split; [discriminate | intros H; exfalso; auto].
  - rewrite IH. split; [|tauto]. intros H [->|H']; [|tauto].
    rewrite eqb_same in E. discriminate.
Qed.

Lemma In_dict_get (d : list (K * V)) (k : K) (v : V) :
  NoDup (map fst d) -> In (k, v) d -> dict_get eqb d k = Some v.
Proof.
  induction d as [|[k' v'] d IH]; simpl; [tauto|].
  intros Hnd [H|H]; inversion Hnd as [|? ? Hnot Hnd']; subst.
  - injection H as -> ->. now rewrite eqb_same.
  - destruct (eqb k' k) eqn:E; [|auto].
    apply eqb_iff in E. subst. exfalso. apply Hnot.
    change k with (fst (k, v)). now apply in_map.
Qed.

Lemma dict_set_same_value (d : list (K * V)) (k : K) (v : V) :
  dict_get eqb d k = Some v -> dict_set eqb d k v = d.
Proof.
  induction d as [|[k' v'] d IH]; simpl; [discriminate|].
  destruct (eqb k' k); [now intros [= ->] | intros H; now rewrite IH].
Qed.

Lemma dict_set_keys (d : list (K * V)) (k : K) (v w : V) :
  dict_get eqb d k = Some w -> map fst (dict_set eqb d k v) = map fst d.
Proof.
  induction d as [|[k' v'] d IH]; simpl; [discriminate|].
  destruct (eqb k' k); simpl; [reflexivity | intros H; now rewrite IH].
Qed.

Lemma dict_get_set (d : list (K * V)) (k k' : K) (v : V) :
  dict_get eqb (dict_set eqb d k v) k' =
  if eqb k k' then Some v else dict_get eqb d k'.
Proof.
  induction d as [|[k0 v0] d IH]; simpl.
  - destruct (eqb k k'); reflexivity.
  - destruct (eqb k0 k) eqn:E0; simpl.
    + apply eqb_iff in E0. subst. destruct (eqb k k'); reflexivity.
    + destruct (eqb k0 k') eqn:E1; [|apply IH].
      apply eqb_iff in E1. subst.
      destruct (eqb k k') eqn:E2; [|reflexivity].
      apply eqb_iff in E2. subst. rewrite eqb_same in E0. discriminate.
Qed.

Lemma dict_get_filter (P : K -> bool) (d : list (K * V)) (k : K) :
  dict_get eqb (filter (fun '(k0, _) => P k0) d) k =
  if P k then dict_get eqb d k else None.
Proof.
  induction d as [|[k0 v0] d IH]; simpl; [now destruct (P k)|].
  destruct (P k0) eqn:E0; simpl.
  - destruct (eqb k0 k) eqn:E1; [|apply IH].
    apply eqb_iff in E1. subst. now rewrite E0.
  - rewrite IH. destruct (eqb k0 k) eqn:E1; [|reflexivity].
    apply eqb_iff in E1. subst. now rewrite E0.
Qed.

Lemma dict_set_filter (P : K -> bool) (d : list (K * V)) (k : K) (v w : V) :
  P k = true -> dict_get eqb d k = Some w ->
  filter (fun '(k0, _) => P k0) (dict_set eqb d k v) =
  dict_set eqb (filter (fun '(k0, _) => P k0) d) k v.
Proof.
  intros HP. induction d as [|[k0 v0] d IH]; simpl; [discriminate|].
  destruct (eqb k0 k) eqn:E0.
  - apply eqb_iff in E0. subst. intros _. simpl. rewrite HP. simpl.
    now rewrite eqb_same.
  - intros H. simpl. destruct (P k0); simpl; rewrite ?E0, IH; auto.
Qed.

End DictFacts.

(** ** Graphs *)

Lemma in_edges (G : graph) (u v : node) (k : symbol) (l : label) :
  In (mkEdge u v k l) (edges G) <->
  exists nb kd, In (u, nb) G /\ In (v, kd) nb /\ In (k, l) kd.
Proof.
  unfold edges, edges_from. rewrite in_flat_map. split.
  - intros ([u' nb] & HG & H). apply in_flat_map in H as ([v' kd] & Hnb & H).
    apply in_map_iff in H as ([k' l'] & [= <- <- <- <-] & Hkd). eauto.
  - intros (nb & kd & HG & Hnb & Hkd). exists (u, nb). split; [assumption|].
    apply in_flat_map. exists (v, kd). split; [assumption|].
    apply in_map_iff. exists (k, l). auto.
Qed.

(** Every successor recorded in the graph is one of its nodes, as
    [add_edge] ensures. *)
Definition closed (G : graph) : Prop :=
  forall u nb v kd, In (u, nb) G -> In (v, kd) nb -> In v (nodes G).

(** The parallel edges from [u] to [v] among the successors [nb] of [u]. *)
Definition hops_to (u v : node) (nb : nbrdict) : list hop :=
  flat_map (fun '(succ, kd) =>
              if Nat.eqb succ v then map (fun '(_, lbl) => (u, succ, lbl)) kd
              else [])
           nb.

Definition parallel_edges (G : graph) (u v : node) : list hop :=
  match dict_get Nat.eqb G u with
  | Some nb => hops_to u v nb
  | None => []
  end.

(** The consecutive node pairs of a path. *)
Fixpoint steps (path : list node) : list (node * node) :=
  match path with
  | [] => []
  | a :: rest =>
      match rest with
      | [] => []
      | b :: _ => (a, b) :: steps rest
      end
  end.

(** Every way of picking one element from each list, in order. *)
Fixpoint cartesian_product {A} (choices : list (list A)) : list (list A) :=
  match choices with
  | [] => [[]]
  | c :: rest =>
      flat_map (fun x => map (cons x) (cartesian_product rest)) c
  end.

(** The Cartesian product of the parallel-edge choices along a path. *)
Definition expansions (G : graph) (path : list node) : list (list hop) :=
  cartesian_product (map (fun '(u, v) => parallel_edges G u v) (steps path)).

(** [es] walks along [path], every hop on an edge of the graph. *)
Definition realizes (G : graph) (path : list node) (es : list hop) : Prop :=
  Forall2 (fun '(u, v) '(a, b, l) =>
             a = u /\ b = v /\ exists key, In (mkEdge u v key l) (edges G))
          (steps path) es.

Lemma in_hops_to (u v : node) (nb : nbrdict) (h : hop) :
  In h (hops_to u v nb) <->
  exists kd key l, h = (u, v, l) /\ In (v, kd) nb /\ In (key, l) kd.
Proof.
  unfold hops_to. rewrite in_flat_map. split.
  - intros ([succ kd] & Hnb & H). destruct (Nat.eqb succ v) eqn:E; [|easy].
    apply Nat.eqb_eq in E. subst succ.
    apply in_map_iff in H as ([key l] & <- & Hkd). eauto 6.
  - intros (kd & key & l & -> & Hnb & Hkd). exists (v, kd).
    split; [assumption|]. rewrite Nat.eqb_refl.
    apply in_map_iff. exists (key, l). auto.
Qed.

Lemma parallel_edges_sound (G : graph) (u v : node) (h : hop) :
  In h (parallel_edges G u v) ->
  exists key l, h = (u, v, l) /\ In (mkEdge u v key l) (edges G).
Proof.
  unfold parallel_edges. destruct (dict_get Nat.eqb G u) as [nb|] eqn:E;
    [|easy].
  intros H. apply in_hops_to in H as (kd & key & l & -> & Hnb & Hkd).
  exists key, l. split; [reflexivity|]. apply in_edges.
  apply (dict_get_In _ nat_eqb_iff) in E. eauto.
Qed.

Lemma parallel_edges_complete (G : graph) (u v : node) (key : symbol)
  (l : label) :
  NoDup (nodes G) -> In (mkEdge u v key l) (edges G) ->
  In (u, v, l) (parallel_edges G u v).
Proof.
  intros Hnd H. apply in_edges in H as (nb & kd & HG & Hnb & Hkd).
  unfold parallel_edges.
  rewrite (In_dict_get _ nat_eqb_iff G u nb Hnd HG).
  apply in_hops_to. eauto 6.
Qed.

(** The two nested loops of [get_path_edges], with [sub] standing for the
    recursive call. *)
Lemma path_loop_keys (first succ : node) (sub : outcome (list (list hop)))
  (kd : keydict) (acc : list (list hop)) :
  foldM (fun edges '(_, lbl) =>
           s <- sub ;; Returns (edges ++ map (cons (first, succ, lbl)) s))
        kd acc =
  match kd with
  | [] => Returns acc
  | _ :: _ =>
      s <- sub ;;
      Returns (acc ++ flat_map (fun h => map (cons h) s)
                        (map (fun '(_, lbl) => (first, succ, lbl)) kd))
  end.
Proof.
  revert acc. induction kd as [|[key lbl] kd IH]; intros acc;
    [reflexivity|].
  simpl. destruct sub as [s| |]; simpl; try reflexivity.
  rewrite IH. destruct kd as [|[key' lbl'] kd]; simpl.
  - now rewrite app_nil_r.
  - now rewrite <- app_assoc.
Qed.

Lemma path_loop_successors (first r0 : node)
  (sub : outcome (list (list hop))) (nb : nbrdict) (acc : list (list hop)) :
  foldM (fun edges '(succ, kd) =>
           if Nat.eqb succ r0 then
             foldM (fun edges '(_, lbl) =>
                      s <- sub ;;
                      Returns (edges ++ map (cons (first, succ, lbl)) s))
                   kd edges
           else Returns edges)
        nb acc =
  match hops_to first r0 nb with
  | [] => Returns acc
  | _ :: _ =>
      s <- sub ;;
      Returns (acc ++ flat_map (fun h => map (cons h) s) (hops_to first r0 nb))
  end.
Proof.
  revert acc. induction nb as [|[succ kd] nb IH]; intros acc;
    [reflexivity|].
  simpl. destruct (Nat.eqb succ r0) eqn:E; simpl; [|apply IH].
  rewrite path_loop_keys. destruct kd as [|[key lbl] kd]; simpl; [apply IH|].
  destruct sub as [s| |]; simpl; try reflexivity.
  rewrite IH. destruct (hops_to first r0 nb) as [|h hs]; simpl.
  - now rewrite !app_nil_r.
  - rewrite flat_map_app. simpl. now rewrite <- !app_assoc.
Qed.

Lemma get_path_edges_unfold (G : graph) (first r0 : node)
  (rest' : list node) :
  get_path_edges G (first :: r0 :: rest') =
  (nb <- successors G first ;;
   match hops_to first r0 nb with
   | [] => Returns []
   | _ :: _ =>
       s <- match rest' with
            | [] => Returns [[]]
            | _ :: _ => get_path_edges G (r0 :: rest')
            end ;;
       Returns (flat_map (fun h => map (cons h) s) (hops_to first r0 nb))
   end).
Proof.
  cbn [get_path_edges]. destruct (successors G first) as [nb| |];
    simpl; try reflexivity.
  rewrite <- (path_loop_successors first r0 _ nb []).
  apply foldM_ext. intros a [succ kd] _.
  destruct (Nat.eqb succ r0); [|reflexivity].
  apply foldM_ext. intros a' [key lbl] _. destruct rest'; reflexivity.
Qed.

Lemma successors_of_node (G : graph) (n : node) :
  In n (nodes G) ->
  exists nb, successors G n = Returns nb /\ In (n, nb) G.
Proof.
  intros H. unfold successors.
  destruct (dict_get Nat.eqb G n) as [nb|] eqn:E.
  - exists nb. split; [reflexivity|]. now apply (dict_get_In _ nat_eqb_iff).
  - apply (dict_get_None _ nat_eqb_iff) in E. contradiction.
Qed.

Lemma expansions_cons (G : graph) (first r0 : node) (rest' : list node) :
  expansions G (first :: r0 :: rest') =
  flat_map (fun h => map (cons h) (expansions G (r0 :: rest')))
           (parallel_edges G first r0).
Proof. reflexivity. Qed.

(** On a closed graph the expansion of a path that starts at a node is
    the Cartesian product of the parallel-edge choices. *)
Lemma get_path_edges_closed (G : graph) :
  closed G ->
  forall rest' first r0,
    In first (nodes G) ->
    get_path_edges G (first :: r0 :: rest') =
    Returns (expansions G (first :: r0 :: rest')).
Proof.
  intros Hc. induction rest' as [|r1 rest' IH]; intros first r0 Hin;
    rewrite get_path_edges_unfold, expansions_cons;
    unfold parallel_edges, successors;
    (destruct (dict_get Nat.eqb G first) as [nb|] eqn:E;
     [|apply (dict_get_None _ nat_eqb_iff) in E; contradiction]);
    cbn [bind lookup_or];
    destruct (hops_to first r0 nb) as [|h hs] eqn:Eh;
    try reflexivity.
  rewrite IH; [reflexivity|].
  assert (Hh : In h (hops_to first r0 nb)) by (rewrite Eh; simpl; auto).
  apply in_hops_to in Hh as (kd & key & l & _ & Hnb & _).
  apply (dict_get_In _ nat_eqb_iff) in E. exact (Hc _ _ _ _ E Hnb).
Qed.

(** Whenever the expansion returns, it returns that product. *)
Lemma get_path_edges_returns (G : graph) :
  forall rest' first r0 ess,
    get_path_edges G (first :: r0 :: rest') = Returns ess ->
    ess = expansions G (first :: r0 :: rest').
Proof.
  induction rest' as [|r1 rest' IH]; intros first r0 ess;
    rewrite get_path_edges_unfold, expansions_cons;
    unfold parallel_edges, successors;
    destruct (dict_get Nat.eqb G first) as [nb|]; cbn [bind lookup_or];
    try discriminate;
    destruct (hops_to first r0 nb) as [|h hs] eqn:Eh; cbn [bind];
    try (now intros [= <-]).
  destruct (get_path_edges G (r0 :: r1 :: rest')) as [s| |] eqn:Es;
    cbn [bind]; try discriminate.
  intros [= <-]. now rewrite (IH r0 r1 s Es).
Qed.

Lemma get_path_edges_short (G : graph) (path : list node) :
  List.length path < 2 -> get_path_edges G path = Returns [].
Proof. destruct path as [|a [|b path]]; simpl; intros; auto; lia. Qed.

Lemma in_cartesian_product {A} (choices : list (list A)) (xs : list A) :
  In xs (cartesian_product choices) <-> Forall2 (fun c x => In x c) choices xs.
Proof.
  revert xs. induction choices as [|c choices IH]; intros xs; simpl.
  - split.
    + intros [<-|[]]. constructor.
    + intros H. inversion H. auto.
  - rewrite in_flat_map. split.
    + intros (x & Hx & H). apply in_map_iff in H as (ys & <- & Hys).
      constructor; [assumption | now apply IH].
    + intros H. inversion H as [|? x ? ys Hx Hys]; subst.
      exists x. split; [assumption|]. apply in_map. now apply IH.
Qed.

Lemma in_expansions (G : graph) (path : list node) (es : list hop) :
  In es (expansions G path) <->
  Forall2 (fun '(u, v) h => In h (parallel_edges G u v)) (steps path) es.
Proof.
  unfold expansions. rewrite in_cartesian_product.
  generalize (steps path) as st. intros st. revert es.
  induction st as [|[u v] st IH]; intros es; simpl.
  - split; intros H; inversion H; constructor.
  - split; intros H; inversion H; subst; constructor; auto; now apply IH.
Qed.

Lemma expansions_sound (G : graph) (path : list node) (es : list hop) :
  In es (expansions G path) -> realizes G path es.
Proof.
  rewrite in_expansions. unfold realizes.
  generalize (steps path) as st. intros st. revert es.
  induction st as [|[u v] st IH]; intros es H; inversion H; subst;
    constructor; auto.
  destruct (parallel_edges_sound G u v y) as (key & l & -> & He); eauto.
Qed.

Lemma expansions_complete (G : graph) (path : list node) (es : list hop) :
  NoDup (nodes G) -> realizes G path es -> In es (expansions G path).
Proof.
  intros Hnd. rewrite in_expansions. unfold realizes.
  generalize (steps path) as st. intros st. revert es.
  induction st as [|[u v] st IH]; intros es H; inversion H; subst;
    constructor; auto.
  destruct y as [[a b] l]. destruct H2 as (-> & -> & key & He).
  eapply parallel_edges_complete; eauto.
Qed.

(** The labels on the hops of an expansion are labels of edges. *)
Lemma expansions_labels (G : graph) (path : list node) (es : list hop)
  (h : hop) :
  In es (expansions G path) -> In h es -> In (snd h) (map elabel (edges G)).
Proof.
  intros Hes Hh. apply expansions_sound in Hes. unfold realizes in Hes.
  revert Hh. induction Hes as [|[u v] [[a b] l] st es' Hx _ IH]; simpl;
    [tauto|].
  intros [<-|Hh]; [|auto]. destruct Hx as (_ & _ & key & He).
  apply in_map_iff. exists (mkEdge u v key l). auto.
Qed.

(** ** Well-formed graphs

    What a networkx graph is by construction: no key twice in any of its
    dictionaries, and every successor a node. *)

Fixpoint distinctb {A} (eqb : A -> A -> bool) (l : list A) : bool :=
  match l with
  | [] => true
  | x :: r => negb (existsb (eqb x) r) && distinctb eqb r
  end.

Definition wf_nbrdict (ns : list node) (nb : nbrdict) : bool :=
  distinctb Nat.eqb (map fst nb)
  && forallb (fun '(v, kd) => shown ns v && distinctb String.eqb (map fst kd))
             nb.

Definition wf_graph (G : graph) : bool :=
  distinctb Nat.eqb (nodes G)
  && forallb (fun '(_, nb) => wf_nbrdict (nodes G) nb) G.

Lemma distinctb_NoDup {A} (eqb : A -> A -> bool)
  (eqb_iff : forall a b, eqb a b = true <-> a = b) (l : list A) :
  distinctb eqb l = true <-> NoDup l.
Proof.
  induction l as [|x l IH]; simpl.
  - split; [constructor | reflexivity].
  - rewrite andb_true_iff, negb_true_iff, IH. split.
    + intros [Hx Hl]. constructor; [|assumption]. intros Hin.
      assert (existsb (eqb x) l = true); [|congruence].
      apply existsb_exists. exists x. split; [assumption | now apply eqb_iff].
    + intros H. inversion H as [|? ? Hx Hl]; subst. split; [|assumption].
      destruct (existsb (eqb x) l) eqn:E; [|reflexivity].
      apply existsb_exists in E as (y & Hy & E). apply eqb_iff in E.
      now subst.
Qed.

Lemma shown_In (c : list node) (n : node) : shown c n = true <-> In n c.
Proof.
  unfold shown. rewrite existsb_exists. split.
  - intros (x & Hx & E). apply Nat.eqb_eq in E. now subst.
  - intros H. exists n. split; [assumption | apply Nat.eqb_refl].
Qed.

Lemma wf_graph_nodes (G : graph) : wf_graph G = true -> NoDup (nodes G).
Proof.
  unfold wf_graph. rewrite andb_true_iff. intros [H _].
  now apply (distinctb_NoDup _ nat_eqb_iff).
Qed.

Lemma wf_graph_nbrdict (G : graph) (u : node) (nb : nbrdict) :
  wf_graph G = true -> In (u, nb) G -> wf_nbrdict (nodes G) nb = true.
Proof.
  unfold wf_graph. rewrite andb_true_iff, forallb_forall. intros [_ H] Hin.
  exact (H _ Hin).
Qed.

Lemma wf_nbrdict_keys (ns : list node) (nb : nbrdict) :
  wf_nbrdict ns nb = true -> NoDup (map fst nb).
Proof.
  unfold wf_nbrdict. rewrite andb_true_iff. intros [H _].
  now apply (distinctb_NoDup _ nat_eqb_iff).
Qed.

Lemma wf_nbrdict_entry (ns : list node) (nb : nbrdict) (v : node)
  (kd : keydict) :
  wf_nbrdict ns nb = true -> In (v, kd) nb ->
  In v ns /\ NoDup (map fst kd).
Proof.
  unfold wf_nbrdict. rewrite andb_true_iff, forallb_forall. intros [_ H] Hin.
  specialize (H _ Hin). simpl in H. apply andb_true_iff in H as [Hv Hk].
  split; [now apply shown_In | now apply (distinctb_NoDup _ string_eqb_iff)].
Qed.

Lemma wf_graph_closed (G : graph) : wf_graph G = true -> closed G.
Proof.
  intros Hwf u nb v kd HG Hnb.
  eapply wf_nbrdict_entry; eauto using wf_graph_nbrdict.
Qed.

(** In a well-formed graph an edge is found under its own keys. *)
Lemma wf_edge_label (G : graph) (e : edge) :
  wf_graph G = true -> In e (edges G) ->
  edge_label G (src e) (dst e) (ekey e) = Some (elabel e).
Proof.
  intros Hwf He. destruct e as [u v k l]. simpl.
  apply in_edges in He as (nb & kd & HG & Hnb & Hkd).
  pose proof (wf_graph_nbrdict G u nb Hwf HG) as Hwnb.
  destruct (wf_nbrdict_entry _ _ _ _ Hwnb Hnb) as [_ Hkeys].
  unfold edge_label.
  rewrite (In_dict_get _ nat_eqb_iff G u nb (wf_graph_nodes G Hwf) HG).
  rewrite (In_dict_get _ nat_eqb_iff nb v kd (wf_nbrdict_keys _ _ Hwnb) Hnb).
  now apply (In_dict_get _ string_eqb_iff).
Qed.

Lemma edge_label_In (G : graph) (u v : node) (k : symbol) (l : label) :
  edge_label G u v k = Some l -> In (mkEdge u v k l) (edges G).
Proof.
  unfold edge_label.
  destruct (dict_get Nat.eqb G u) as [nb|] eqn:E1; [|discriminate].
  destruct (dict_get Nat.eqb nb v) as [kd|] eqn:E2; [|discriminate].
  intros E3. apply in_edges. exists nb, kd.
  split; [now apply (dict_get_In _ nat_eqb_iff)|].
  split; [now apply (dict_get_In _ nat_eqb_iff)|].
  now apply (dict_get_In _ string_eqb_iff).
Qed.

(** ** Cycle expansion and the loop equations *)

Lemma foldM_collect {A B} (f : A -> outcome (list B)) (g : A -> list B)
  (xs : list A) (acc : list B) :
  (forall x, In x xs -> f x = Returns (g x)) ->
  foldM (fun acc x => r <- f x ;; Returns (acc ++ r)) xs acc =
  Returns (acc ++ flat_map g xs).
Proof.
  revert acc. induction xs as [|x xs IH]; intros acc H; simpl.
  - now rewrite app_nil_r.
  - rewrite H by (simpl; auto). simpl. rewrite IH.
    + now rewrite app_assoc.
    + intros; apply H; simpl; auto.
Qed.

Lemma mapM_total {A B} (f : A -> outcome B) (xs : list A) :
  (forall x, In x xs -> exists y, f x = Returns y) ->
  exists ys, mapM f xs = Returns ys.
Proof.
  induction xs as [|x xs IH]; intros H; simpl; [eauto|].
  destruct (H x) as (y & ->); [simpl; auto|].
  destruct IH as (ys & ->); [intros; apply H; simpl; auto|].
  simpl. eauto.
Qed.

Lemma closing_path (c0 : node) (rest : list node) :
  exists r0 rest', (c0 :: rest) ++ [c0] = c0 :: r0 :: rest'.
Proof. destruct rest as [|r rest]; simpl; eauto. Qed.

Lemma index_of_In (alphabet : list label) (sym : label) :
  In sym alphabet -> exists i, index_of alphabet sym = Some i.
Proof.
  induction alphabet as [|a alphabet IH]; simpl; [tauto|].
  destruct (label_eqb a sym) eqn:E; [eauto|].
  intros [->|H]; [rewrite label_eqb_refl in E; discriminate|].
  destruct (IH H) as (i & ->). simpl. eauto.
Qed.

Lemma index_of_Some (alphabet : list label) (sym : label) (i : nat) :
  index_of alphabet sym = Some i -> nth_error alphabet i = Some sym.
Proof.
  revert i. induction alphabet as [|a alphabet IH]; intros i; simpl;
    [discriminate|].
  destruct (label_eqb a sym) eqn:E.
  - apply label_eqb_eq in E. intros [= <-]. now subst.
  - destruct (index_of alphabet sym) as [j|]; simpl; [|discriminate].
    intros [= <-]. simpl. now apply IH.
Qed.

Section CycleFacts.
Variable simple_cycles : adjacency -> list (node * list node).
Variable set_order : list label -> list label.

Hypothesis set_order_keeps : forall l x, In x l -> In x (set_order l).

Lemma cycles_edges_expansions (G : graph) (cycles : list (list hop)) :
  get_simple_cycles_edges simple_cycles G = Returns cycles ->
  forall cycle, In cycle cycles ->
    exists c0 rest, In (c0, rest) (simple_cycles (adj G))
                    /\ In cycle (expansions G ((c0 :: rest) ++ [c0])).
Proof.
  unfold get_simple_cycles_edges. intros H.
  refine (foldM_invariant
            (fun acc => forall cycle, In cycle acc ->
               exists c0 rest, In (c0, rest) (simple_cycles (adj G))
                    /\ In cycle (expansions G ((c0 :: rest) ++ [c0])))
            _ _ _ [] cycles _ H); [|simpl; tauto].
  intros acc [c0 rest] acc' Hin Hacc Hbody cycle Hc.
  apply bind_Returns in Hbody as (ess & Hess & [= <-]).
  apply in_app_or in Hc as [Hc|Hc]; [auto|].
  destruct (closing_path c0 rest) as (r0 & rest' & E). rewrite E in Hess.
  apply get_path_edges_returns in Hess. subst ess. rewrite <- E in Hc. eauto.
Qed.

Lemma loop_equations_row (alphabet : list label) (cycle : list hop) :
  (forall h, In h cycle -> In (snd h) alphabet) ->
  forall vec, exists row,
    foldM (fun vec '(_, _, sym) =>
             index <- lookup_or ValueError (index_of alphabet sym) ;;
             Returns (increment vec index))
          cycle vec = Returns row.
Proof.
  induction cycle as [|[[a b] sym] cycle IH]; intros H vec; simpl; [eauto|].
  destruct (index_of_In alphabet sym) as (i & ->); [apply (H (a, b, sym)); simpl; auto|].
  simpl. apply IH. intros; apply H; simpl; auto.
Qed.

(** C10. In a round of [attack_scc], on the graph [G] that the view shows:
    every label on an edge of a cycle handed to [loop_equations] is in the
    ordered alphabet of [G], so [ordered_alphabet.index(sym)] finds it and
    [loop_equations] returns its matrix without raising. *)
Theorem loop_equations_index_succeeds (G : graph) (cycles : list (list hop)) :
  get_simple_cycles_edges simple_cycles G = Returns cycles ->
  (forall cycle h, In cycle cycles -> In h cycle ->
     In (snd h) (get_ordered_alphabet set_order G)
     /\ exists i, index_of (get_ordered_alphabet set_order G) (snd h) = Some i)
  /\ exists basis,
       loop_equations (get_ordered_alphabet set_order G) cycles = Returns basis.
Proof.
  intros Hc.
  assert (Hin : forall cycle h, In cycle cycles -> In h cycle ->
                  In (snd h) (get_ordered_alphabet set_order G)).
  { intros cycle h Hcy Hh.
    destruct (cycles_edges_expansions G cycles Hc cycle Hcy)
      as (c0 & rest & _ & Hex).
    apply set_order_keeps. eapply expansions_labels; eauto. }
  split.
  - intros cycle h Hcy Hh. split; [eauto|]. apply index_of_In; eauto.
  - unfold loop_equations. apply mapM_total. intros cycle Hcy.
    apply loop_equations_row. eauto.
Qed.

End CycleFacts.

Section ProductFacts.
Variable simple_cycles : adjacency -> list (node * list node).

(** C5. On a well-formed graph whose node cycles start at nodes of the
    graph, [get_simple_cycles_edges] returns, cycle after cycle, the
    Cartesian product of the parallel-edge choices along the closed path
    [cycle + [cycle[0]]]; a sequence is in that product exactly when it
    walks along the closed path with every hop on an edge of the graph,
    so every returned sequence is a valid closed walk and no combination
    of parallel edges is left out. *)
Theorem get_simple_cycles_edges_product (G : graph) :
  wf_graph G = true ->
  Forall (fun c => In (fst c) (nodes G)) (simple_cycles (adj G)) ->
  get_simple_cycles_edges simple_cycles G =
    Returns (flat_map (fun '(c0, rest) => expansions G ((c0 :: rest) ++ [c0]))
                      (simple_cycles (adj G)))
  /\ (forall c0 rest es,
        In es (expansions G ((c0 :: rest) ++ [c0])) <->
        realizes G ((c0 :: rest) ++ [c0]) es).
Proof.
  intros Hwf Hnodes. split.
  - unfold get_simple_cycles_edges.
    rewrite (foldM_ext _
               (fun acc c => r <- get_path_edges G ((fst c :: snd c) ++ [fst c]) ;;
                             Returns (acc ++ r)))
      by (intros a [c0 rest] _; reflexivity).
    rewrite (foldM_collect _
               (fun c => expansions G ((fst c :: snd c) ++ [fst c]))).
    + simpl. f_equal. apply flat_map_ext. now intros [c0 rest].
    + intros [c0 rest] Hin. simpl fst; simpl snd.
      destruct (closing_path c0 rest) as (r0 & rest' & ->).
      apply get_path_edges_closed; [now apply wf_graph_closed|].
      rewrite Forall_forall in Hnodes. exact (Hnodes _ Hin).
  - intros c0 rest es. split.
    + apply expansions_sound.
    + apply expansions_complete. now apply wf_graph_nodes.
Qed.

End ProductFacts.

(** ** Relabelled graphs

    [relabelled free G G']: the two graphs have the same nodes and the same
    edges in the same order, and an edge from [u] to [v] may carry another
    label in [G'] only where [free u v]. *)

Definition relabelled_kd (free : bool) (kd kd' : keydict) : Prop :=
  Forall2 (fun a b => fst a = fst b /\ (free = true \/ snd a = snd b)) kd kd'.

Definition relabelled_nb (free : node -> bool) (nb nb' : nbrdict) : Prop :=
  Forall2 (fun a b => fst a = fst b
                      /\ relabelled_kd (free (fst a)) (snd a) (snd b))
          nb nb'.

Definition relabelled (free : node -> node -> bool) (G G' : graph) : Prop :=
  Forall2 (fun a b => fst a = fst b
                      /\ relabelled_nb (free (fst a)) (snd a) (snd b))
          G G'.

(** The edges inside the component [c]. *)
Definition inside (c : list node) (u v : node) : bool :=
  shown c u && shown c v.

Definition anywhere (u v : node) : bool := true.

Lemma Forall2_same {A} (R : A -> A -> Prop) (l : list A) :
  (forall x, In x l -> R x x) -> Forall2 R l l.
Proof.
  induction l as [|x l IH]; intros H; constructor.
  - apply H; simpl; auto.
  - apply IH. intros; apply H; simpl; auto.
Qed.

Lemma Forall2_trans_in {A} (R : A -> A -> Prop) (l1 l2 l3 : list A) :
  (forall x y z, In x l1 -> R x y -> R y z -> R x z) ->
  Forall2 R l1 l2 -> Forall2 R l2 l3 -> Forall2 R l1 l3.
Proof.
  intros Ht H12. revert l3. induction H12 as [|x y l1 l2 Hxy _ IH];
    intros l3 H23; inversion H23; subst; constructor.
  - eapply Ht; simpl; eauto.
  - apply IH; [|assumption]. intros; eapply Ht; simpl; eauto.
Qed.

Lemma Forall2_keys {K V} (R : K * V -> K * V -> Prop) (d d' : list (K * V)) :
  Forall2 (fun a b => fst a = fst b /\ R a b) d d' -> map fst d = map fst d'.
Proof.
  induction 1 as [|a b d d' [E _] _ IH]; simpl; congruence.
Qed.

Lemma relabelled_kd_refl (free : bool) (kd : keydict) :
  relabelled_kd free kd kd.
Proof. apply Forall2_same. auto. Qed.

Lemma relabelled_nb_refl (free : node -> bool) (nb : nbrdict) :
  relabelled_nb free nb nb.
Proof. apply Forall2_same. auto using relabelled_kd_refl. Qed.

Lemma relabelled_refl (free : node -> node -> bool) (G : graph) :
  relabelled free G G.
Proof. apply Forall2_same. auto using relabelled_nb_refl. Qed.

Lemma relabelled_kd_trans (free : bool) (k1 k2 k3 : keydict) :
  relabelled_kd free k1 k2 -> relabelled_kd free k2 k3 ->
  relabelled_kd free k1 k3.
Proof.
  apply Forall2_trans_in. intros x y z _ [E1 H1] [E2 H2].
  split; [congruence|]. destruct H1, H2; auto. right; congruence.
Qed.

Lemma relabelled_nb_trans (free : node -> bool) (n1 n2 n3 : nbrdict) :
  relabelled_nb free n1 n2 -> relabelled_nb free n2 n3 ->
  relabelled_nb free n1 n3.
Proof.
  apply Forall2_trans_in. intros x y z _ [E1 H1] [E2 H2].
  split; [congruence|]. rewrite <- E1 in H2.
  eapply relabelled_kd_trans; eauto.
Qed.

Lemma relabelled_trans (free : node -> node -> bool) (G1 G2 G3 : graph) :
  relabelled free G1 G2 -> relabelled free G2 G3 -> relabelled free G1 G3.
Proof.
  apply Forall2_trans_in. intros x y z _ [E1 H1] [E2 H2].
  split; [congruence|]. rewrite <- E1 in H2.
  eapply relabelled_nb_trans; eauto.
Qed.

Lemma relabelled_nodes (free : node -> node -> bool) (G G' : graph) :
  relabelled free G G' -> nodes G' = nodes G.
Proof. intros H. symmetry. exact (Forall2_keys _ _ _ H). Qed.

(** Replacing the value of a present key by a related one relates the
    dictionaries entry by entry. *)
Lemma Forall2_dict_set {K V} (eqb : K -> K -> bool)
  (eqb_iff : forall a b, eqb a b = true <-> a = b)
  (R : K -> V -> V -> Prop) (d : list (K * V)) (k : K) (v w : V) :
  (forall k0 v0, R k0 v0 v0) ->
  dict_get eqb d k = Some w -> R k w v ->
  Forall2 (fun a b => fst a = fst b /\ R (fst a) (snd a) (snd b))
          d (dict_set eqb d k v).
Proof.
  intros Hrefl. induction d as [|[k0 v0] d IH]; simpl; [discriminate|].
  destruct (eqb k0 k) eqn:E.
  - apply eqb_iff in E. subst. intros [= ->] HR. constructor; [now split|].
    apply Forall2_same. auto.
  - intros Hget HR. constructor; [split; [reflexivity | apply Hrefl]|].
    now apply IH.
Qed.

Lemma set_edge_label_relabelled (free : node -> node -> bool) (G G' : graph)
  (u v : node) (key : symbol) (lbl : label) :
  free u v = true ->
  set_edge_label G u v key lbl = Returns G' -> relabelled free G G'.
Proof.
  intros Hfree. unfold set_edge_label.
  destruct (dict_get Nat.eqb G u) as [nb|] eqn:E1; simpl; [|discriminate].
  destruct (dict_get Nat.eqb nb v) as [kd|] eqn:E2; simpl; [|discriminate].
  destruct (dict_get String.eqb kd key) as [l0|] eqn:E3; simpl;
    [|discriminate].
  intros [= <-].
  apply (Forall2_dict_set Nat.eqb nat_eqb_iff
           (fun u nb nb' => relabelled_nb (free u) nb nb') G u _ nb);
    auto using relabelled_nb_refl.
  apply (Forall2_dict_set Nat.eqb nat_eqb_iff
           (fun v kd kd' => relabelled_kd (free u v) kd kd') nb v _ kd);
    auto using relabelled_kd_refl.
  apply (Forall2_dict_set String.eqb string_eqb_iff
           (fun _ l l' => free u v = true \/ l = l') kd key _ l0); auto.
Qed.

Lemma view_set_label_frame (sg sg' : view) (u v : node) (key : symbol)
  (lbl : label) :
  view_set_label sg u v key lbl = Returns sg' ->
  keep sg' = keep sg
  /\ relabelled (inside (keep sg)) (base sg) (base sg').
Proof.
  unfold view_set_label.
  destruct (shown (keep sg) u && shown (keep sg) v) eqn:E; [|discriminate].
  intros H. apply bind_Returns in H as (G' & HG' & [= <-]). simpl.
  split; [reflexivity|]. eapply set_edge_label_relabelled; eauto.
Qed.

Lemma copy_back_frame (sg sg' : view) (graph_copy : graph) :
  copy_back sg graph_copy = Returns sg' ->
  keep sg' = keep sg
  /\ relabelled (inside (keep sg)) (base sg) (base sg').
Proof.
  unfold copy_back.
  apply (foldM_invariant
           (fun s => keep s = keep sg
                     /\ relabelled (inside (keep sg)) (base sg) (base s))).
  - intros acc e acc' _ [Hk Hr] Hstep.
    apply view_set_label_frame in Hstep as [Hk' Hr']. rewrite Hk in *.
    split; [assumption|]. eapply relabelled_trans; eauto.
  - split; [reflexivity | apply relabelled_refl].
Qed.

Lemma Forall2_flat_map {A B C D} (R : C -> D -> Prop) (f : A -> list C)
  (g : B -> list D) (l : list A) (l' : list B) :
  Forall2 (fun a b => Forall2 R (f a) (g b)) l l' ->
  Forall2 R (flat_map f l) (flat_map g l').
Proof.
  induction 1; simpl; [constructor|]. now apply Forall2_app.
Qed.

Lemma Forall2_map {A B C D} (R : C -> D -> Prop) (f : A -> C) (g : B -> D)
  (l : list A) (l' : list B) :
  Forall2 (fun a b => R (f a) (g b)) l l' -> Forall2 R (map f l) (map g l').
Proof. induction 1; simpl; constructor; auto. Qed.

(** What the relation says edge by edge. *)
Definition same_edge_but (free : node -> node -> bool) (e e' : edge) : Prop :=
  src e' = src e /\ dst e' = dst e /\ ekey e' = ekey e
  /\ (elabel e' = elabel e \/ free (src e) (dst e) = true).

Lemma relabelled_edges (free : node -> node -> bool) (G G' : graph) :
  relabelled free G G' -> Forall2 (same_edge_but free) (edges G) (edges G').
Proof.
  intros H. unfold edges. apply Forall2_flat_map.
  eapply Forall2_impl; [|exact H].
  intros [u nb] [u' nb'] [Eu Hnb]. simpl in *. subst u'.
  unfold edges_from. apply Forall2_flat_map.
  eapply Forall2_impl; [|exact Hnb].
  intros [v kd] [v' kd'] [Ev Hkd]. simpl in *. subst v'.
  apply Forall2_map. eapply Forall2_impl; [|exact Hkd].
  intros [k l] [k' l'] [Ek Hl]. simpl in *. subst k'.
  unfold same_edge_but. simpl. intuition.
Qed.

Section FrameFacts.
Variable simple_cycles : adjacency -> list (node * list node).
Variable shortest_path : adjacency -> node -> node -> option (list node).
Variable nullspace : list (list Z) -> list vec.
Variable set_order : list label -> list label.

Lemma relabel_frame (sg sg' : view) (cycles : list (list hop)) (m : morphism) :
  relabel shortest_path sg cycles m = Returns sg' ->
  keep sg' = keep sg
  /\ relabelled (inside (keep sg)) (base sg) (base sg').
Proof.
  unfold relabel. intros H.
  apply bind_Returns in H as (start_node & _ & H).
  apply bind_Returns in H as (graph_copy & _ & H).
  now apply copy_back_frame in H.
Qed.

Lemma attack_round_frame (prev : option (list vec)) (sg sg' : view)
  (current : list vec) :
  attack_round simple_cycles shortest_path nullspace set_order prev sg
  = Returns (Continue current sg') ->
  keep sg' = keep sg
  /\ relabelled (inside (keep sg)) (base sg) (base sg').
Proof.
  unfold attack_round. intros H.
  apply bind_Returns in H as (cycles & _ & H).
  apply bind_Returns in H as (basis & _ & H).
  destruct (same_nullspace (nullspace basis) prev); [discriminate|].
  destruct (nullspace basis) as [|nb ns]; [discriminate|].
  apply bind_Returns in H as (m & _ & H).
  apply bind_Returns in H as (sg1 & Hrel & [= _ <-]).
  now apply relabel_frame in Hrel.
Qed.

Lemma attack_loop_frame (fuel : nat) :
  forall (prev : option (list vec)) (sg : view),
    let sg' := fst (attack_loop simple_cycles shortest_path nullspace
                                set_order fuel prev sg) in
    keep sg' = keep sg
    /\ relabelled (inside (keep sg)) (base sg) (base sg').
Proof.
  induction fuel as [|fuel IH]; intros prev sg; simpl.
  - split; [reflexivity | apply relabelled_refl].
  - destruct (attack_round simple_cycles shortest_path nullspace set_order
                           prev sg) as [[|current sg1]| |] eqn:E; simpl;
      try (split; [reflexivity | apply relabelled_refl]).
    apply attack_round_frame in E as [Hk Hr].
    destruct (IH (Some current) sg1) as [Hk' Hr']. rewrite Hk in *.
    split; [assumption|]. eapply relabelled_trans; eauto.
Qed.

(** C9. Running [attack_scc] on the view of one component leaves the node
    set and the edge set of the whole graph as they were (same nodes, same
    edges with the same endpoints and keys, in the same order), and changes
    the label of no edge that has its source or its target outside the
    component. *)
Theorem attack_scc_frame (fuel : nat) (G : graph) (component : list node) :
  let sg' := fst (attack_scc simple_cycles shortest_path nullspace set_order
                             fuel (mkView G component)) in
  keep sg' = component
  /\ nodes (base sg') = nodes G
  /\ Forall2 (fun e e' =>
                src e' = src e /\ dst e' = dst e /\ ekey e' = ekey e
                /\ (elabel e' = elabel e
                    \/ (In (src e) component /\ In (dst e) component)))
             (edges G) (edges (base sg')).
Proof.
  intros sg'. subst sg'. unfold attack_scc.
  destruct (attack_loop_frame fuel None (mkView G component)) as [Hk Hr].
  simpl in *. split; [assumption|].
  split; [eapply relabelled_nodes; eauto|].
  eapply Forall2_impl; [|apply relabelled_edges; exact Hr].
  intros e e' (Hs & Hd & Hkey & Hl). repeat (split; [assumption|]).
  destruct Hl as [Hl|Hl]; [now left | right].
  unfold inside in Hl. apply andb_true_iff in Hl as [H1 H2].
  split; now apply shown_In.
Qed.

End FrameFacts.

(** ** What a view shows decides what the decider does with it *)

Lemma dict_get_map_values {K V W} (eqb : K -> K -> bool) (f : V -> W)
  (d : list (K * V)) (k : K) :
  dict_get eqb (map (fun '(k0, v) => (k0, f v)) d) k
  = option_map f (dict_get eqb d k).
Proof.
  induction d as [|[k0 v0] d IH]; simpl; [reflexivity|].
  destruct (eqb k0 k); [reflexivity | apply IH].
Qed.

Lemma dict_set_map_values {K V W} (eqb : K -> K -> bool) (f : V -> W)
  (d : list (K * V)) (k : K) (v w : V) :
  dict_get eqb d k = Some w ->
  map (fun '(k0, v0) => (k0, f v0)) (dict_set eqb d k v)
  = dict_set eqb (map (fun '(k0, v0) => (k0, f v0)) d) k (f v).
Proof.
  induction d as [|[k0 v0] d IH]; simpl; [discriminate|].
  destruct (eqb k0 k); simpl; [reflexivity|]. intros H. now rewrite IH.
Qed.

Lemma set_edge_label_induced (G : graph) (c : list node) (u v : node)
  (key : symbol) (lbl : label) :
  shown c u = true -> shown c v = true ->
  set_edge_label (induced (mkView G c)) u v key lbl
  = (G' <- set_edge_label G u v key lbl ;; Returns (induced (mkView G' c))).
Proof.
  intros Hu Hv. unfold set_edge_label, induced. simpl.
  rewrite dict_get_map_values.
  rewrite (dict_get_filter _ nat_eqb_iff (shown c)), Hu.
  change (list (node * keydict)) with nbrdict.
  destruct (dict_get Nat.eqb G u) as [nb|] eqn:E1; simpl; [|reflexivity].
  rewrite (dict_get_filter _ nat_eqb_iff (shown c)), Hv.
  destruct (dict_get Nat.eqb nb v) as [kd|] eqn:E2; simpl; [|reflexivity].
  destruct (dict_get String.eqb kd key) as [l0|] eqn:E3; simpl;
    [|reflexivity].
  f_equal.
  rewrite (dict_set_filter _ nat_eqb_iff (shown c) G u _ nb Hu E1).
  assert (E1' : dict_get Nat.eqb
                  (filter (fun '(k0, _) => shown c k0) G) u = Some nb).
  { now rewrite (dict_get_filter _ nat_eqb_iff (shown c)), Hu. }
  rewrite (dict_set_map_values _
             (filter (fun '(v0, _) => shown c v0)) _ u _ nb E1').
  now rewrite (dict_set_filter _ nat_eqb_iff (shown c) nb v _ kd Hv E2).
Qed.

(** Two views that show the same graph. *)
Definition same_view (a b : view) : Prop :=
  induced a = induced b /\ keep a = keep b.

(** Two runs that end alike, on views that show the same graph. *)
Definition agree (o1 o2 : outcome view) : Prop :=
  match o1, o2 with
  | Returns a, Returns b => same_view a b
  | Raises e1, Raises e2 => e1 = e2
  | OutOfFuel, OutOfFuel => True
  | _, _ => False
  end.

Lemma view_same_keep (sg : view) : mkView (base sg) (keep sg) = sg.
Proof. now destruct sg. Qed.

Lemma view_set_label_agree (a b : view) (u v : node) (key : symbol)
  (lbl : label) :
  same_view a b ->
  agree (view_set_label a u v key lbl) (view_set_label b u v key lbl).
Proof.
  intros [Hi Hk]. unfold view_set_label. rewrite <- Hk.
  destruct (shown (keep a) u) eqn:Hu; simpl; [|reflexivity].
  destruct (shown (keep a) v) eqn:Hv; simpl; [|reflexivity].
  pose proof (set_edge_label_induced (base a) (keep a) u v key lbl Hu Hv) as Ha.
  pose proof (set_edge_label_induced (base b) (keep a) u v key lbl Hu Hv) as Hb.
  rewrite view_same_keep in Ha. rewrite Hk, view_same_keep, <- Hi in Hb.
  rewrite Ha in Hb.
  destruct (set_edge_label (base a) u v key lbl) as [Ga| |],
           (set_edge_label (base b) u v key lbl) as [Gb| |];
    simpl in *; try discriminate; try congruence; auto.
  split; simpl; congruence.
Qed.

Lemma foldM_agree {A} (f : view -> A -> outcome view) (xs : list A) :
  (forall a b x, same_view a b -> agree (f a x) (f b x)) ->
  forall a b, same_view a b -> agree (foldM f xs a) (foldM f xs b).
Proof.
  intros Hf. induction xs as [|x xs IH]; intros a b Hab; simpl; [assumption|].
  specialize (Hf a b x Hab).
  destruct (f a x) as [a'| |], (f b x) as [b'| |]; simpl in *; auto;
    contradiction.
Qed.

Lemma copy_back_agree (a b : view) (graph_copy : graph) :
  same_view a b ->
  agree (copy_back a graph_copy) (copy_back b graph_copy).
Proof.
  unfold copy_back. apply foldM_agree. intros; now apply view_set_label_agree.
Qed.

Section ViewFacts.
Variable simple_cycles : adjacency -> list (node * list node).
Variable shortest_path : adjacency -> node -> node -> option (list node).
Variable nullspace : list (list Z) -> list vec.
Variable set_order : list label -> list label.

Lemma relabel_agree (a b : view) (cycles : list (list hop)) (m : morphism) :
  same_view a b ->
  agree (relabel shortest_path a cycles m) (relabel shortest_path b cycles m).
Proof.
  intros Hab. unfold relabel. destruct Hab as [Hi Hk]. rewrite <- Hi.
  destruct (lookup_or IndexError (hd_error (nodes (induced a))))
    as [start_node| |]; simpl; auto.
  destruct (relabel_copy shortest_path (induced a) start_node m (induced a))
    as [graph_copy| |]; simpl; auto.
  apply copy_back_agree. now split.
Qed.

(** Two rounds that end alike. *)
Definition agree_round (o1 o2 : outcome round_result) : Prop :=
  match o1, o2 with
  | Returns Break, Returns Break => True
  | Returns (Continue n1 a), Returns (Continue n2 b) =>
      n1 = n2 /\ same_view a b
  | Raises e1, Raises e2 => e1 = e2
  | OutOfFuel, OutOfFuel => True
  | _, _ => False
  end.

Lemma attack_round_agree (prev : option (list vec)) (a b : view) :
  same_view a b ->
  agree_round
    (attack_round simple_cycles shortest_path nullspace set_order prev a)
    (attack_round simple_cycles shortest_path nullspace set_order prev b).
Proof.
  intros Hab. unfold attack_round. destruct (Hab) as [Hi Hk]. rewrite <- Hi.
  destruct (get_simple_cycles_edges simple_cycles (induced a))
    as [cycles| |]; simpl; auto.
  destruct (loop_equations (get_ordered_alphabet set_order (induced a)) cycles)
    as [basis| |]; simpl; auto.
  destruct (same_nullspace (nullspace basis) prev); simpl; auto.
  destruct (nullspace basis) as [|nb ns]; simpl; auto.
  destruct (build_morphism (get_ordered_alphabet set_order (induced a))
                           (nb :: ns)) as [m| |]; simpl; auto.
  pose proof (relabel_agree a b cycles m Hab) as H.
  destruct (relabel shortest_path a cycles m) as [a'| |],
           (relabel shortest_path b cycles m) as [b'| |];
    simpl in *; auto.
Qed.

Lemma attack_loop_agree (fuel : nat) :
  forall (prev : option (list vec)) (a b : view),
    same_view a b ->
    snd (attack_loop simple_cycles shortest_path nullspace set_order
                     fuel prev a)
    = snd (attack_loop simple_cycles shortest_path nullspace set_order
                       fuel prev b).
Proof.
  induction fuel as [|fuel IH]; intros prev a b Hab; simpl; [reflexivity|].
  pose proof (attack_round_agree prev a b Hab) as H.
  destruct (attack_round simple_cycles shortest_path nullspace set_order
                         prev a) as [[|n1 a']| |],
           (attack_round simple_cycles shortest_path nullspace set_order
                         prev b) as [[|n2 b']| |];
    simpl in *; try contradiction; try congruence.
  - destruct Hab as [-> _]. reflexivity.
  - destruct H as [-> H]. now apply IH.
Qed.

End ViewFacts.

(** ** The loop over the components *)

Lemma relabelled_kd_fixed (kd kd' : keydict) :
  relabelled_kd false kd kd' -> kd' = kd.
Proof.
  induction 1 as [|[k l] [k' l'] kd kd' [Ek Hl] _ IH]; [reflexivity|].
  simpl in *. destruct Hl as [Hl|Hl]; [discriminate|]. congruence.
Qed.

Lemma relabelled_nb_fixed (free : node -> bool) (nb nb' : nbrdict) :
  (forall v, free v = false) -> relabelled_nb free nb nb' -> nb' = nb.
Proof.
  intros Hfree. induction 1 as [|[v kd] [v' kd'] nb nb' [Ev Hkd] _ IH];
    [reflexivity|].
  simpl in *. rewrite Hfree in Hkd. apply relabelled_kd_fixed in Hkd.
  congruence.
Qed.

(** Relabelling inside one component is invisible through the view of a
    component that shares no node with it. *)
Lemma induced_outside (c1 c2 : list node) (G G' : graph) :
  relabelled (inside c1) G G' ->
  (forall n, In n c1 -> ~ In n c2) ->
  induced (mkView G' c2) = induced (mkView G c2).
Proof.
  intros Hrel Hdisj. unfold induced. simpl. f_equal.
  induction Hrel as [|[u nb] [u' nb'] G G' [Eu Hnb] _ IH]; [reflexivity|].
  simpl in *. subst u'. destruct (shown c2 u) eqn:E; [|assumption].
  rewrite IH. f_equal. f_equal.
  apply (relabelled_nb_fixed (inside c1 u)); [|assumption].
  intros v. unfold inside. destruct (shown c1 u) eqn:E1; [|reflexivity].
  apply shown_In in E1, E. exfalso. exact (Hdisj u E1 E).
Qed.

(** No node lies in two of the components. *)
Definition pairwise_disjoint (sccs : list (list node)) : Prop :=
  ForallOrdPairs (fun a b => forall n, In n a -> ~ In n b) sccs.

(** The logical AND of the per-component results, stopping at the first
    result that is not [True]. *)
Fixpoint conjunction (results : list (outcome bool)) : outcome bool :=
  match results with
  | [] => Returns true
  | Returns true :: rest => conjunction rest
  | other :: _ => other
  end.

Lemma conjunction_true (results : list (outcome bool)) :
  conjunction results = Returns true <->
  Forall (fun r => r = Returns true) results.
Proof.
  induction results as [|r results IH]; simpl.
  - split; [constructor | reflexivity].
  - destruct r as [[|]| |]; rewrite ?IH; split; intros H;
      try discriminate; try (constructor; auto; fail);
      inversion H; subst; auto; discriminate.
Qed.

Lemma conjunction_first_false (pre post : list (outcome bool)) :
  Forall (fun r => r = Returns true) pre ->
  conjunction (pre ++ Returns false :: post) = Returns false.
Proof. induction 1 as [|r pre -> _ IH]; simpl; auto. Qed.

Section LoopFacts.
Variable simple_cycles : adjacency -> list (node * list node).
Variable shortest_path : adjacency -> node -> node -> option (list node).
Variable strongly_connected_components : adjacency -> list (list node).
Variable nullspace : list (list Z) -> list vec.
Variable set_order : list label -> list label.

(** What [attack_scc] returns on the view of a component of [G]. *)
Definition scc_result (fuel : nat) (G : graph) (component : list node)
  : outcome bool :=
  snd (attack_scc simple_cycles shortest_path nullspace set_order fuel
                  (mkView G component)).

Lemma decide_loop_conjunction (fuel : nat) (G : graph) :
  forall (sccs : list (list node)) (G_now : graph),
    pairwise_disjoint sccs ->
    (forall c, In c sccs ->
       induced (mkView G_now c) = induced (mkView G c)) ->
    snd (decide_loop simple_cycles shortest_path nullspace set_order
                     fuel G_now sccs)
    = conjunction (map (scc_result fuel G) sccs).
Proof.
  induction sccs as [|c rest IH]; intros G_now Hdisj Hsame; [reflexivity|].
  inversion Hdisj as [|? ? Hc Hrest]; subst.
  cbn [decide_loop map conjunction].
  assert (Hres : snd (attack_scc simple_cycles shortest_path nullspace
                                 set_order fuel (mkView G_now c))
                 = scc_result fuel G c).
  { unfold scc_result, attack_scc. apply attack_loop_agree.
    split; [apply Hsame; simpl; auto | reflexivity]. }
  pose proof (attack_loop_frame simple_cycles shortest_path nullspace
                set_order fuel None (mkView G_now c)) as [_ Hframe].
  fold (attack_scc simple_cycles shortest_path nullspace set_order fuel
                   (mkView G_now c)) in Hframe.
  destruct (attack_scc simple_cycles shortest_path nullspace set_order fuel
                       (mkView G_now c)) as [sg' result].
  simpl in Hres, Hframe. rewrite <- Hres.
  destruct result as [[|]| |]; try reflexivity.
  apply IH; [assumption|]. intros c' Hc'.
  rewrite <- (Hsame c') by (simpl; auto).
  apply (induced_outside c); [assumption|].
  rewrite Forall_forall in Hc. exact (Hc c' Hc').
Qed.

(** C1. When the components that networkx reports share no node,
    [decide_CRASP_membership] returns [True] exactly when [attack_scc]
    returns [True] on the view of every component of the transition graph;
    and it returns [False] as soon as one component gives [False] after
    components that gave [True], whatever the later components would do. *)
Theorem decide_is_conjunction_over_sccs (fuel : nat) (my_dfa : DFA)
  (G : graph) :
  automata_to_graph my_dfa = Returns G ->
  pairwise_disjoint (strongly_connected_components (adj G)) ->
  (decide_CRASP_membership simple_cycles shortest_path
     strongly_connected_components nullspace set_order fuel my_dfa
   = Returns true
   <-> Forall (fun c => scc_result fuel G c = Returns true)
              (strongly_connected_components (adj G)))
  /\ (forall pre c post,
        strongly_connected_components (adj G) = pre ++ c :: post ->
        Forall (fun c' => scc_result fuel G c' = Returns true) pre ->
        scc_result fuel G c = Returns false ->
        decide_CRASP_membership simple_cycles shortest_path
          strongly_connected_components nullspace set_order fuel my_dfa
        = Returns false).
Proof.
  intros HG Hdisj. unfold decide_CRASP_membership. rewrite HG. simpl.
  rewrite (decide_loop_conjunction fuel G _ G Hdisj) by reflexivity.
  split.
  - rewrite conjunction_true, Forall_map. reflexivity.
  - intros pre c post -> Hpre Hc. rewrite map_app. simpl. rewrite Hc.
    apply conjunction_first_false. now apply Forall_map.
Qed.

End LoopFacts.

(** ** Relabelling: what happens to the labels *)

Lemma Forall2_compose {A B C} (R1 : A -> B -> Prop) (R2 : B -> C -> Prop)
  (R3 : A -> C -> Prop) (l1 : list A) (l2 : list B) (l3 : list C) :
  (forall x y z, In x l1 -> R1 x y -> R2 y z -> R3 x z) ->
  Forall2 R1 l1 l2 -> Forall2 R2 l2 l3 -> Forall2 R3 l1 l3.
Proof.
  intros Ht H12. revert l3. induction H12 as [|x y l1 l2 Hxy _ IH];
    intros l3 H23; inversion H23; subst; constructor.
  - eapply Ht; simpl; eauto.
  - apply IH; [|assumption]. intros; eapply Ht; simpl; eauto.
Qed.

Lemma Forall2_In_r {A B} (R : A -> B -> Prop) (l : list A) (l' : list B)
  (y : B) :
  Forall2 R l l' -> In y l' -> exists x, In x l /\ R x y.
Proof.
  induction 1 as [|a b l l' Hab _ IH]; simpl; [tauto|].
  intros [<-|Hy]; [eauto|]. destruct (IH Hy) as (x & Hx & HR). eauto.
Qed.

Lemma Forall2_In_l {A B} (R : A -> B -> Prop) (l : list A) (l' : list B)
  (x : A) :
  Forall2 R l l' -> In x l -> exists y, In y l' /\ R x y.
Proof.
  induction 1 as [|a b l l' Hab _ IH]; simpl; [tauto|].
  intros [<-|Hx]; [eauto|]. destruct (IH Hx) as (y & Hy & HR). eauto.
Qed.

(** After the loop over the keys for an edge labelled [lbl]: the keys are
    the same, vectors are still vectors, and every label equal to [lbl]
    has become a vector. *)
Definition key_step (lbl : label) (a b : symbol * label) : Prop :=
  fst a = fst b
  /\ (is_tuple (snd a) = true \/ label_eqb (snd a) lbl = true ->
      is_tuple (snd b) = true).

Lemma update_keys_step (G : graph) (u v : node) (lbl : label) (vec : vec)
  (kd kd' : keydict) :
  update_keys G u v lbl vec kd = Returns kd' ->
  Forall2 (key_step lbl) kd kd'.
Proof.
  unfold update_keys. intros H0. apply mapM_Returns_Forall2 in H0.
  revert H0. apply Forall2_impl.
  intros [key l] [key' l'] H. unfold key_step. simpl.
  destruct (label_eqb l lbl) eqn:E.
  - destruct (is_tuple l) eqn:Et; simpl in H.
    + destruct (edge_label G u v key) as [[s|t]|]; simpl in H;
        try discriminate.
      injection H as <- <-. auto.
    + injection H as <- <-. auto.
  - injection H as <- <-. split; [reflexivity|]. intros [Ht|Ht]; congruence.
Qed.

(** On a dictionary of vectors that [G] holds under [u], [v], the loop
    over the keys changes nothing. *)
Lemma update_keys_fixed (G : graph) (u v : node) (lbl : label) (vec : vec)
  (kd : keydict) :
  (forall key l, In (key, l) kd ->
     is_tuple l = true /\ edge_label G u v key = Some l) ->
  update_keys G u v lbl vec kd = Returns kd.
Proof.
  intros H. unfold update_keys. apply mapM_fixed. intros [key l] Hin.
  destruct (H key l Hin) as [Ht Hl]. rewrite Ht, Hl. simpl.
  destruct (label_eqb l lbl); [|reflexivity].
  destruct l as [s|t]; [discriminate | reflexivity].
Qed.

Section RelabelFacts.
Variable shortest_path : adjacency -> node -> node -> option (list node).

Lemma relabel_edge_step (G : graph) (start_node : node) (m : morphism)
  (u v : node) (kd kd' : keydict) (key : symbol) :
  relabel_edge shortest_path G start_node m u v kd key = Returns kd' ->
  exists lbl, dict_get String.eqb kd key = Some lbl
              /\ Forall2 (key_step lbl) kd kd'.
Proof.
  unfold relabel_edge. intros H.
  apply bind_Returns in H as (lbl & Hl & H).
  apply bind_Returns in H as (path & _ & H).
  apply bind_Returns in H as (path_edges & _ & H).
  apply bind_Returns in H as (vec & _ & H).
  exists lbl. split; [|eapply update_keys_step; eauto].
  destruct (dict_get String.eqb kd key); simpl in Hl; congruence.
Qed.

(** After the turns for the edges [keys] of one key dictionary: vectors
    are still vectors, and the labels under [keys] are vectors. *)
Definition keys_done (keys : list symbol) (a b : symbol * label) : Prop :=
  fst a = fst b
  /\ (is_tuple (snd a) = true \/ In (fst a) keys -> is_tuple (snd b) = true).

Lemma relabel_keys_done (G : graph) (start_node : node) (m : morphism)
  (u v : node) :
  forall (keys : list symbol) (kd kd' : keydict),
    NoDup (map fst kd) ->
    foldM (relabel_edge shortest_path G start_node m u v) keys kd
    = Returns kd' ->
    Forall2 (keys_done keys) kd kd'.
Proof.
  induction keys as [|key keys IH]; intros kd kd' Hnd H; simpl in H.
  - injection H as <-. apply Forall2_same. intros [k l] _. split; auto.
    simpl. intros [Ht|[]]. assumption.
  - apply bind_Returns in H as (kd1 & Hstep & H).
    apply relabel_edge_step in Hstep as (lbl & Hget & Hstep).
    assert (Hnd1 : NoDup (map fst kd1)).
    { replace (map fst kd1) with (map fst kd); [assumption|].
      apply (Forall2_keys (fun _ _ => True)).
      eapply Forall2_impl; [|exact Hstep]. intros a b [E _]. auto. }
    specialize (IH kd1 kd' Hnd1 H).
    assert (Hin : forall a, In a kd -> fst a = key -> snd a = lbl).
    { intros [k l] Ha E. simpl in *. subst k.
      rewrite (In_dict_get _ string_eqb_iff kd key l Hnd Ha) in Hget.
      congruence. }
    refine (Forall2_compose _ _ _ kd kd1 kd' _ Hstep IH).
    intros x y z Hx [E1 T1] [E2 T2]. split; [congruence|].
    intros [Ht|[Hk|Hk]].
    + apply T2. left. apply T1. now left.
    + apply T2. left. apply T1. right.
      rewrite (Hin x Hx) by auto. apply label_eqb_refl.
    + apply T2. right. now rewrite <- E1.
Qed.

Definition nbr_done (x y : node * keydict) : Prop :=
  fst x = fst y /\ Forall2 (keys_done (map fst (snd x))) (snd x) (snd y).

Lemma relabel_nbrdict_done (G : graph) (start_node : node) (m : morphism)
  (u : node) :
  forall (nb nb' : nbrdict),
    (forall v kd, In (v, kd) nb -> NoDup (map fst kd)) ->
    mapM (fun '(v, kd) =>
            kd' <- foldM (relabel_edge shortest_path G start_node m u v)
                         (map fst kd) kd ;;
            Returns (v, kd'))
         nb = Returns nb' ->
    Forall2 nbr_done nb nb'.
Proof.
  induction nb as [|[v kd] nb IH]; intros nb' Hkd H; simpl in H.
  - injection H as <-. constructor.
  - apply bind_Returns in H as ([v' kd'] & Hy & H).
    apply bind_Returns in H as (nb1 & Hrest & [= <-]).
    apply bind_Returns in Hy as (kd1 & Hy & [= <- <-]).
    constructor.
    + split; [reflexivity|]. simpl. eapply relabel_keys_done; eauto.
      apply (Hkd v). simpl; auto.
    + apply IH; [|assumption]. intros; eapply Hkd; simpl; eauto.
Qed.

Lemma relabel_graph_done (G : graph) (start_node : node) (m : morphism) :
  forall (graph_copy graph_copy' : graph),
    (forall u nb v kd, In (u, nb) graph_copy -> In (v, kd) nb ->
       NoDup (map fst kd)) ->
    relabel_copy shortest_path G start_node m graph_copy
    = Returns graph_copy' ->
    Forall2 (fun a b => fst a = fst b /\ Forall2 nbr_done (snd a) (snd b))
            graph_copy graph_copy'.
Proof.
  unfold relabel_copy.
  induction graph_copy as [|[u nb] g IH]; intros g' Hkd H; simpl in H.
  - injection H as <-. constructor.
  - apply bind_Returns in H as ([u' nb'] & Hx & H).
    apply bind_Returns in H as (g1 & Hrest & [= <-]).
    apply bind_Returns in Hx as (nb1 & Hx & [= <- <-]).
    constructor.
    + split; [reflexivity|]. simpl. eapply relabel_nbrdict_done; eauto.
      intros v kd. apply (Hkd u nb). simpl; auto.
    + apply IH; [|assumption]. intros; eapply Hkd; simpl; eauto.
Qed.

Lemma relabel_copy_tuples (G : graph) (start_node : node) (m : morphism)
  (graph_copy graph_copy' : graph) :
  wf_graph graph_copy = true ->
  relabel_copy shortest_path G start_node m graph_copy = Returns graph_copy' ->
  relabelled anywhere graph_copy graph_copy'
  /\ forall e, In e (edges graph_copy') -> is_tuple (elabel e) = true.
Proof.
  intros Hwf H. apply relabel_graph_done in H as Hall.
  2:{ intros u nb v kd HG Hnb.
      eapply wf_nbrdict_entry; eauto using wf_graph_nbrdict. }
  clear H. split.
  - eapply Forall2_impl; [|exact Hall].
    intros [u nb] [u' nb'] [Eu Hnb]. split; [assumption|].
    eapply Forall2_impl; [|exact Hnb].
    intros [v kd] [v' kd'] [Ev Hkd]. split; [assumption|].
    eapply Forall2_impl; [|exact Hkd].
    intros a b [E _]. split; [assumption | now left].
  - intros [u v k l] He. apply in_edges in He as (nb' & kd' & HG & Hnb & Hkd).
    simpl.
    destruct (Forall2_In_r _ _ _ _ Hall HG)
      as ([u0 nb] & _ & _ & Hnbs). simpl in Hnbs.
    destruct (Forall2_In_r _ _ _ _ Hnbs Hnb)
      as ([v0 kd] & _ & _ & Hkds). simpl in Hkds.
    destruct (Forall2_In_r _ _ _ _ Hkds Hkd)
      as ([k0 l0] & Hin0 & E & Ht). simpl in *. subst k0.
    apply Ht. right. change k with (fst (k, l0)). now apply in_map.
Qed.

End RelabelFacts.

(** ** Well-formedness is a matter of nodes and keys *)

Lemma wf_graph_iff (G : graph) :
  wf_graph G = true <->
  NoDup (nodes G)
  /\ forall u nb, In (u, nb) G ->
       NoDup (map fst nb)
       /\ forall v kd, In (v, kd) nb -> In v (nodes G) /\ NoDup (map fst kd).
Proof.
  unfold wf_graph, wf_nbrdict.
  rewrite andb_true_iff, (distinctb_NoDup _ nat_eqb_iff), forallb_forall.
  split; intros [Hn H]; (split; [assumption|]).
  - intros u nb Hin. specialize (H _ Hin). simpl in H.
    rewrite andb_true_iff, (distinctb_NoDup _ nat_eqb_iff), forallb_forall in H.
    destruct H as [Hk H]. split; [assumption|]. intros v kd Hv.
    specialize (H _ Hv). simpl in H.
    rewrite andb_true_iff, shown_In, (distinctb_NoDup _ string_eqb_iff) in H.
    assumption.
  - intros [u nb] Hin. destruct (H u nb Hin) as [Hk Hv].
    rewrite andb_true_iff, (distinctb_NoDup _ nat_eqb_iff), forallb_forall.
    split; [assumption|]. intros [v kd] Hin'.
    rewrite andb_true_iff, shown_In, (distinctb_NoDup _ string_eqb_iff).
    auto.
Qed.

Lemma wf_relabelled (free : node -> node -> bool) (G G' : graph) :
  relabelled free G G' -> wf_graph G = true -> wf_graph G' = true.
Proof.
  intros Hrel. rewrite !wf_graph_iff.
  rewrite (relabelled_nodes free G G' Hrel). intros [Hn H].
  split; [assumption|]. intros u nb' Hin.
  destruct (Forall2_In_r _ _ _ _ Hrel Hin) as ([u0 nb] & Hin0 & Eu & Hnb).
  simpl in *. subst u0. destruct (H u nb Hin0) as [Hk Hv].
  rewrite <- (Forall2_keys _ _ _ Hnb). split; [assumption|].
  intros v kd' Hin'.
  destruct (Forall2_In_r _ _ _ _ Hnb Hin') as ([v0 kd] & Hin1 & Ev & Hkd).
  simpl in *. subst v0. destruct (Hv v kd Hin1) as [Hvn Hkk].
  rewrite <- (Forall2_keys _ _ _ Hkd). auto.
Qed.

Lemma map_fst_filter {K V} (P : K -> bool) (d : list (K * V)) :
  map fst (filter (fun '(k, _) => P k) d) = filter P (map fst d).
Proof.
  induction d as [|[k v] d IH]; simpl; [reflexivity|].
  destruct (P k); simpl; congruence.
Qed.

Lemma nodes_induced (sg : view) :
  nodes (induced sg) = filter (shown (keep sg)) (nodes (base sg)).
Proof.
  unfold nodes, induced. rewrite map_map.
  rewrite <- (map_fst_filter (shown (keep sg))).
  apply map_ext. now intros [u nb].
Qed.

Lemma in_induced (sg : view) (u : node) (nb' : nbrdict) :
  In (u, nb') (induced sg) <->
  exists nb, In (u, nb) (base sg) /\ shown (keep sg) u = true
             /\ nb' = filter (fun '(v, _) => shown (keep sg) v) nb.
Proof.
  unfold induced. rewrite in_map_iff. split.
  - intros ([u0 nb] & [= <- <-] & Hin). apply filter_In in Hin as [Hin Hs].
    eauto.
  - intros (nb & Hin & Hs & ->). exists (u, nb). split; [reflexivity|].
    apply filter_In. auto.
Qed.

Lemma wf_induced (sg : view) :
  wf_graph (base sg) = true -> wf_graph (induced sg) = true.
Proof.
  rewrite !wf_graph_iff, nodes_induced. intros [Hn H].
  split; [now apply NoDup_filter|]. intros u nb' Hin.
  apply in_induced in Hin as (nb & Hin & Hs & ->).
  destruct (H u nb Hin) as [Hk Hv]. rewrite map_fst_filter.
  split; [now apply NoDup_filter|]. intros v kd Hin'.
  apply filter_In in Hin' as [Hin' Hsv]. destruct (Hv v kd Hin') as [Hvn Hkk].
  split; [|assumption]. apply filter_In. auto.
Qed.

Lemma edges_induced (sg : view) (e : edge) :
  In e (edges (induced sg)) <->
  In e (edges (base sg)) /\ inside (keep sg) (src e) (dst e) = true.
Proof.
  destruct e as [u v k l]. simpl. rewrite !in_edges. unfold inside. split.
  - intros (nb' & kd & Hin & Hv & Hk).
    apply in_induced in Hin as (nb & Hin & Hs & ->).
    apply filter_In in Hv as [Hv Hsv]. rewrite Hs, Hsv. eauto 6.
  - intros [(nb & kd & Hin & Hv & Hk) Hs].
    apply andb_true_iff in Hs as [Hsu Hsv].
    exists (filter (fun '(v0, _) => shown (keep sg) v0) nb), kd.
    split; [apply in_induced; eauto|]. split; [|assumption].
    apply filter_In. auto.
Qed.

(** ** Reading a label after writing one *)

Definition same_edge_id (u v : node) (k : symbol) (u' v' : node) (k' : symbol)
  : bool :=
  Nat.eqb u u' && Nat.eqb v v' && String.eqb k k'.

Lemma edge_label_set (G G' : graph) (u v : node) (k : symbol) (l : label)
  (u' v' : node) (k' : symbol) :
  set_edge_label G u v k l = Returns G' ->
  edge_label G' u' v' k'
  = if same_edge_id u v k u' v' k' then Some l else edge_label G u' v' k'.
Proof.
  unfold set_edge_label, same_edge_id.
  destruct (dict_get Nat.eqb G u) as [nb|] eqn:E1; simpl; [|discriminate].
  destruct (dict_get Nat.eqb nb v) as [kd|] eqn:E2; simpl; [|discriminate].
  destruct (dict_get String.eqb kd k) as [l0|] eqn:E3; simpl;
    [|discriminate].
  intros [= <-]. unfold edge_label.
  rewrite (dict_get_set _ nat_eqb_iff).
  destruct (Nat.eqb u u') eqn:Eu; simpl; [|reflexivity].
  apply Nat.eqb_eq in Eu. subst u'. rewrite E1.
  rewrite (dict_get_set _ nat_eqb_iff).
  destruct (Nat.eqb v v') eqn:Ev; simpl; [|reflexivity].
  apply Nat.eqb_eq in Ev. subst v'. rewrite E2.
  rewrite (dict_get_set _ string_eqb_iff).
  destruct (String.eqb k k'); reflexivity.
Qed.

Lemma set_edge_label_same (G : graph) (u v : node) (k : symbol) (l : label) :
  edge_label G u v k = Some l -> set_edge_label G u v k l = Returns G.
Proof.
  unfold edge_label, set_edge_label.
  destruct (dict_get Nat.eqb G u) as [nb|] eqn:E1; simpl; [|discriminate].
  destruct (dict_get Nat.eqb nb v) as [kd|] eqn:E2; simpl; [|discriminate].
  intros E3. rewrite E3. simpl.
  rewrite (dict_set_same_value String.eqb kd k l E3).
  rewrite (dict_set_same_value Nat.eqb nb v kd E2).
  now rewrite (dict_set_same_value Nat.eqb G u nb E1).
Qed.

Lemma same_edge_id_eq (u v : node) (k : symbol) (u' v' : node) (k' : symbol) :
  same_edge_id u v k u' v' k' = true <-> u = u' /\ v = v' /\ k = k'.
Proof.
  unfold same_edge_id.
  rewrite !andb_true_iff, !Nat.eqb_eq, String.eqb_eq. tauto.
Qed.

(** After "copy back", the graph holds under the keys of every copied
    edge the label the copy has there. *)
Lemma copy_back_written (graph_copy : graph) :
  forall (es : list edge) (sg sg' : view),
    (forall e, In e es ->
       edge_label graph_copy (src e) (dst e) (ekey e) = Some (elabel e)) ->
    foldM (fun sg e => view_set_label sg (src e) (dst e) (ekey e) (elabel e))
          es sg = Returns sg' ->
    forall e, In e es ->
      edge_label (base sg') (src e) (dst e) (ekey e) = Some (elabel e).
Proof.
  induction es as [|e0 es IH]; intros sg sg' Hgc H e He; [destruct He|].
  simpl in H. apply bind_Returns in H as (sg1 & Hset & Hrest).
  destruct He as [<-|He].
  2:{ eapply IH; eauto. intros; apply Hgc; simpl; auto. }
  assert (H1 : edge_label (base sg1) (src e0) (dst e0) (ekey e0)
               = Some (elabel e0)).
  { unfold view_set_label in Hset.
    destruct (shown (keep sg) (src e0) && shown (keep sg) (dst e0));
      [|discriminate].
    apply bind_Returns in Hset as (G' & HG' & [= <-]). simpl.
    rewrite (edge_label_set _ _ _ _ _ _ _ _ _ HG').
    replace (same_edge_id _ _ _ _ _ _) with true; [reflexivity|].
    symmetry. now apply same_edge_id_eq. }
  clear Hset.
  refine (foldM_invariant
            (fun s => edge_label (base s) (src e0) (dst e0) (ekey e0)
                      = Some (elabel e0))
            _ es _ sg1 sg' H1 Hrest).
  intros s e1 s' He1 Hs Hstep. unfold view_set_label in Hstep.
  destruct (shown (keep s) (src e1) && shown (keep s) (dst e1));
    [|discriminate].
  apply bind_Returns in Hstep as (G' & HG' & [= <-]). simpl.
  rewrite (edge_label_set _ _ _ _ _ _ _ _ _ HG').
  destruct (same_edge_id _ _ _ _ _ _) eqn:E; [|assumption].
  apply same_edge_id_eq in E as (Eu & Ev & Ek).
  rewrite <- (Hgc e1) by (simpl; auto). rewrite <- (Hgc e0) by (simpl; auto).
  now rewrite Eu, Ev, Ek.
Qed.

(** ** Rounds never run out of fuel: only the loop takes fuel *)

Definition finishes {A} (o : outcome A) : Prop := o <> OutOfFuel.

Lemma finishes_bind {A B} (m : outcome A) (k : A -> outcome B) :
  finishes m -> (forall a, finishes (k a)) -> finishes (bind m k).
Proof.
  unfold finishes. intros Hm Hk.
  destruct m; simpl; [apply Hk | discriminate | congruence].
Qed.

Ltac ends := unfold finishes; discriminate.

Lemma finishes_lookup {A} (e : exn) (o : option A) : finishes (lookup_or e o).
Proof. destruct o; ends. Qed.

Lemma finishes_foldM {A S} (body : S -> A -> outcome S) (xs : list A) :
  (forall acc x, finishes (body acc x)) ->
  forall acc, finishes (foldM body xs acc).
Proof.
  intros H. induction xs as [|x xs IH]; intros acc; simpl; [ends|].
  apply finishes_bind; auto.
Qed.

Lemma finishes_mapM {A B} (body : A -> outcome B) (xs : list A) :
  (forall x, finishes (body x)) -> finishes (mapM body xs).
Proof.
  intros H. induction xs as [|x xs IH]; simpl; [ends|].
  apply finishes_bind; [auto|]. intros y.
  apply finishes_bind; [auto|]. ends.
Qed.

Lemma finishes_vadd (a b : vec) : finishes (vadd a b).
Proof.
  revert b. induction a as [|x a IH]; intros [|y b]; simpl; try ends.
  apply finishes_bind; [apply IH | ends].
Qed.

Lemma finishes_get_path_edges (G : graph) (path : list node) :
  finishes (get_path_edges G path).
Proof.
  destruct path as [|first [|r0 rest']]; try ends.
  revert first r0. induction rest' as [|r1 rest' IH]; intros first r0;
    rewrite get_path_edges_unfold;
    (apply finishes_bind; [apply finishes_lookup|]); intros nb;
    destruct (hops_to first r0 nb); try ends.
  apply finishes_bind; [apply IH | intros; ends].
Qed.

Lemma finishes_potential (m : morphism) (lbl : label)
  (path_edges : list (list hop)) :
  finishes (potential m lbl path_edges).
Proof.
  unfold potential. apply finishes_bind; [apply finishes_lookup|].
  intros vec. destruct path_edges; [ends|].
  apply finishes_foldM. intros acc x.
  apply finishes_bind; [apply finishes_lookup|]. intros; apply finishes_vadd.
Qed.

Lemma finishes_update_keys (G : graph) (u v : node) (lbl : label) (vec : vec)
  (kd : keydict) :
  finishes (update_keys G u v lbl vec kd).
Proof.
  apply finishes_mapM. intros [key l].
  destruct (label_eqb l lbl); [|ends].
  destruct (negb (is_tuple l)); [ends|].
  apply finishes_bind; [apply finishes_lookup|]. intros [s|t]; ends.
Qed.

Lemma finishes_view_set_label (sg : view) (u v : node) (k : symbol)
  (l : label) :
  finishes (view_set_label sg u v k l).
Proof.
  unfold view_set_label. destruct (_ && _); [|ends].
  apply finishes_bind; [|ends]. unfold set_edge_label.
  repeat (apply finishes_bind; [apply finishes_lookup|]; intros ?).
  ends.
Qed.

Lemma finishes_loop_equations (alphabet : list label)
  (cycles : list (list hop)) :
  finishes (loop_equations alphabet cycles).
Proof.
  apply finishes_mapM. intros cycle. apply finishes_foldM.
  intros acc [[a b] sym]. apply finishes_bind; [apply finishes_lookup|].
  ends.
Qed.

Lemma finishes_build_morphism (alphabet : list label) (ns : list vec) :
  finishes (build_morphism alphabet ns).
Proof.
  apply finishes_foldM. intros acc [i sym].
  apply finishes_bind; [|ends]. apply finishes_mapM.
  intros nb. apply finishes_lookup.
Qed.

Section RoundFacts.
Variable simple_cycles : adjacency -> list (node * list node).
Variable shortest_path : adjacency -> node -> node -> option (list node).
Variable nullspace : list (list Z) -> list vec.
Variable set_order : list label -> list label.

Lemma finishes_get_simple_cycles_edges (G : graph) :
  finishes (get_simple_cycles_edges simple_cycles G).
Proof.
  apply finishes_foldM. intros acc [c0 rest].
  apply finishes_bind; [apply finishes_get_path_edges | ends].
Qed.

Lemma finishes_relabel (sg : view) (cycles : list (list hop)) (m : morphism) :
  finishes (relabel shortest_path sg cycles m).
Proof.
  unfold relabel. apply finishes_bind; [apply finishes_lookup|].
  intros start_node. apply finishes_bind.
  - apply finishes_mapM. intros [u nb].
    apply finishes_bind; [|ends]. apply finishes_mapM.
    intros [v kd]. apply finishes_bind; [|ends].
    apply finishes_foldM. intros acc key. unfold relabel_edge.
    apply finishes_bind; [apply finishes_lookup|]. intros lbl.
    apply finishes_bind; [apply finishes_lookup|]. intros path.
    apply finishes_bind; [apply finishes_get_path_edges|]. intros pe.
    apply finishes_bind; [apply finishes_potential|]. intros vec.
    apply finishes_update_keys.
  - intros gc. apply finishes_foldM. intros; apply finishes_view_set_label.
Qed.

Lemma finishes_attack_round (prev : option (list vec)) (sg : view) :
  finishes (attack_round simple_cycles shortest_path nullspace set_order
                         prev sg).
Proof.
  unfold attack_round.
  apply finishes_bind; [apply finishes_get_simple_cycles_edges|].
  intros cycles. apply finishes_bind; [apply finishes_loop_equations|].
  intros basis. destruct (same_nullspace _ _); [ends|].
  destruct (nullspace basis); [ends|].
  apply finishes_bind; [apply finishes_build_morphism|]. intros m.
  apply finishes_bind; [apply finishes_relabel | ends].
Qed.

(** What a round that goes on has done. *)
Lemma attack_round_Continue (prev : option (list vec)) (sg sg' : view)
  (current : list vec) :
  attack_round simple_cycles shortest_path nullspace set_order prev sg
  = Returns (Continue current sg') ->
  exists cycles basis m,
    get_simple_cycles_edges simple_cycles (induced sg) = Returns cycles
    /\ loop_equations (get_ordered_alphabet set_order (induced sg)) cycles
       = Returns basis
    /\ current = nullspace basis
    /\ current <> []
    /\ same_nullspace current prev = false
    /\ build_morphism (get_ordered_alphabet set_order (induced sg)) current
       = Returns m
    /\ relabel shortest_path sg cycles m = Returns sg'.
Proof.
  unfold attack_round. intros H.
  apply bind_Returns in H as (cycles & Hc & H).
  apply bind_Returns in H as (basis & Hb & H).
  destruct (same_nullspace (nullspace basis) prev) eqn:Es; [discriminate|].
  destruct (nullspace basis) as [|nb ns] eqn:En; [discriminate|].
  apply bind_Returns in H as (m & Hm & H).
  apply bind_Returns in H as (sg1 & Hrel & [= <- <-]).
  exists cycles, basis, m. rewrite En. repeat split; auto. discriminate.
Qed.

(** A round that went on without changing the view is followed by a
    round that stops: it computes the same null space again. *)
Lemma attack_round_repeat (prev : option (list vec)) (sg : view)
  (current : list vec) :
  attack_round simple_cycles shortest_path nullspace set_order prev sg
  = Returns (Continue current sg) ->
  attack_round simple_cycles shortest_path nullspace set_order
               (Some current) sg
  = Returns Break.
Proof.
  intros H. apply attack_round_Continue in H
    as (cycles & basis & m & Hc & Hb & -> & _).
  unfold attack_round. rewrite Hc. simpl. rewrite Hb. simpl.
  replace (nullspace_eqb (nullspace basis) (nullspace basis)) with true;
    [reflexivity|].
  symmetry. now apply nullspace_eqb_eq.
Qed.

Lemma relabel_tuples (sg sg' : view) (cycles : list (list hop)) (m : morphism) :
  wf_graph (base sg) = true ->
  relabel shortest_path sg cycles m = Returns sg' ->
  wf_graph (base sg') = true
  /\ forall e, In e (edges (induced sg')) -> is_tuple (elabel e) = true.
Proof.
  intros Hwf H. pose proof (relabel_frame _ _ _ _ _ H) as [Hkeep Hframe].
  assert (Hwf' : wf_graph (base sg') = true) by (eapply wf_relabelled; eauto).
  split; [assumption|].
  unfold relabel in H.
  apply bind_Returns in H as (start_node & _ & H).
  apply bind_Returns in H as (gc & Hcopy & Hback).
  apply relabel_copy_tuples in Hcopy as [Hshape Htuples];
    [|now apply wf_induced].
  assert (Hwfgc : wf_graph gc = true).
  { eapply wf_relabelled; [exact Hshape | now apply wf_induced]. }
  intros e He. apply edges_induced in He as [He Hin].
  (* the edge of the copy with the same keys *)
  destruct (Forall2_In_r _ _ _ _ (relabelled_edges _ _ _ Hframe) He)
    as (e0 & He0 & Es & Ed & Ek & _).
  assert (He0' : In e0 (edges (induced sg))).
  { apply edges_induced. split; [assumption|].
    now rewrite <- Es, <- Ed, <- Hkeep. }
  destruct (Forall2_In_l _ _ _ _ (relabelled_edges _ _ _ Hshape) He0')
    as (e1 & He1 & Es1 & Ed1 & Ek1 & _).
  pose proof (copy_back_written gc (edges gc) sg sg'
                (fun e' He' => wf_edge_label gc e' Hwfgc He') Hback e1 He1)
    as Hw.
  rewrite Es1, Ed1, Ek1, <- Es, <- Ed, <- Ek in Hw.
  rewrite (wf_edge_label (base sg') e Hwf' He) in Hw.
  injection Hw as ->. now apply Htuples.
Qed.

Lemma relabel_keys_fixed (G : graph) (start_node : node) (m : morphism)
  (u v : node) (kd kd' : keydict) (keys : list symbol) :
  (forall key l, In (key, l) kd ->
     is_tuple l = true /\ edge_label G u v key = Some l) ->
  foldM (relabel_edge shortest_path G start_node m u v) keys kd = Returns kd' ->
  kd' = kd.
Proof.
  intros Hkd H.
  refine (foldM_invariant (fun d => d = kd) _ _ _ kd kd' eq_refl H).
  intros acc key acc' _ -> Hstep. unfold relabel_edge in Hstep.
  apply bind_Returns in Hstep as (lbl & _ & Hstep).
  apply bind_Returns in Hstep as (path & _ & Hstep).
  apply bind_Returns in Hstep as (pe & _ & Hstep).
  apply bind_Returns in Hstep as (vec & _ & Hstep).
  rewrite update_keys_fixed in Hstep; [congruence | exact Hkd].
Qed.

Lemma relabel_nbrdict_fixed (G : graph) (start_node : node) (m : morphism)
  (u : node) :
  forall (nb nb' : nbrdict),
    (forall v kd key l, In (v, kd) nb -> In (key, l) kd ->
       is_tuple l = true /\ edge_label G u v key = Some l) ->
    mapM (fun '(v, kd) =>
            kd' <- foldM (relabel_edge shortest_path G start_node m u v)
                         (map fst kd) kd ;;
            Returns (v, kd'))
         nb = Returns nb' ->
    nb' = nb.
Proof.
  induction nb as [|[v kd] nb IH]; intros nb' Hnb H; simpl in H.
  - now injection H as <-.
  - apply bind_Returns in H as ([v' kd'] & Hy & H).
    apply bind_Returns in H as (nb1 & Hrest & [= <-]).
    apply bind_Returns in Hy as (kd1 & Hy & [= <- <-]).
    apply relabel_keys_fixed in Hy;
      [|intros key l Hin; apply (Hnb v kd); simpl; auto].
    subst kd1. f_equal. apply IH; [|assumption].
    intros v0 kd0 key l Hin. apply Hnb. simpl; auto.
Qed.

Lemma relabel_graph_fixed (G : graph) (start_node : node) (m : morphism) :
  forall (g g' : graph),
    (forall u nb v kd key l, In (u, nb) g -> In (v, kd) nb ->
       In (key, l) kd ->
       is_tuple l = true /\ edge_label G u v key = Some l) ->
    relabel_copy shortest_path G start_node m g = Returns g' ->
    g' = g.
Proof.
  unfold relabel_copy.
  induction g as [|[u nb] g IH]; intros g' Hg H; simpl in H.
  - now injection H as <-.
  - apply bind_Returns in H as ([u' nb'] & Hx & H).
    apply bind_Returns in H as (g1 & Hrest & [= <-]).
    apply bind_Returns in Hx as (nb1 & Hx & [= <- <-]).
    apply relabel_nbrdict_fixed in Hx;
      [|intros v kd key l Hv Hk; apply (Hg u nb v kd); simpl; auto].
    subst nb1. f_equal. apply IH; [|assumption].
    intros u0 nb0 v kd key l Hin. apply Hg. simpl; auto.
Qed.

(** On a view whose labels are all vectors, [relabel] changes nothing:
    the result of [col_join] is dropped and each label is written back as
    it was. *)
Lemma relabel_fixed (sg sg' : view) (cycles : list (list hop)) (m : morphism) :
  wf_graph (base sg) = true ->
  (forall e, In e (edges (induced sg)) -> is_tuple (elabel e) = true) ->
  relabel shortest_path sg cycles m = Returns sg' ->
  sg' = sg.
Proof.
  intros Hwf Htuples H. unfold relabel in H.
  apply bind_Returns in H as (start_node & _ & H).
  apply bind_Returns in H as (gc & Hcopy & Hback).
  pose proof (wf_induced sg Hwf) as Hwfi.
  apply relabel_graph_fixed in Hcopy.
  2:{ intros u nb v kd key l HG Hnb Hkd.
      assert (He : In (mkEdge u v key l) (edges (induced sg)))
        by (apply in_edges; eauto).
      split; [exact (Htuples _ He) | exact (wf_edge_label _ _ Hwfi He)]. }
  subst gc. unfold copy_back in Hback.
  refine (foldM_invariant (fun s => s = sg) _ _ _ sg sg' eq_refl Hback).
  intros acc e acc' He -> Hstep. unfold view_set_label in Hstep.
  apply edges_induced in He as [He Hin]. unfold inside in Hin.
  rewrite Hin in Hstep.
  rewrite set_edge_label_same in Hstep by (now apply wf_edge_label).
  simpl in Hstep. injection Hstep as <-. apply view_same_keep.
Qed.

End RoundFacts.

(** ** Termination of the fixed-point loop *)

Section LoopTermination.
Variable simple_cycles : adjacency -> list (node * list node).
Variable shortest_path : adjacency -> node -> node -> option (list node).
Variable nullspace : list (list Z) -> list vec.
Variable set_order : list label -> list label.

(** The dimensions of the null spaces of the successive rounds. *)
Fixpoint nullspace_dimensions (fuel : nat) (prev : option (list vec))
  (sg : view) : list nat :=
  match fuel with
  | 0 => []
  | S fuel' =>
      match round_nullspace simple_cycles nullspace set_order sg with
      | Returns current =>
          List.length current ::
          match attack_round simple_cycles shortest_path nullspace set_order
                             prev sg with
          | Returns (Continue current' sg') =>
              nullspace_dimensions fuel' (Some current') sg'
          | _ => []
          end
      | _ => []
      end
  end.

Lemma attack_loop_more_fuel (n : nat) :
  forall (prev : option (list vec)) (sg : view),
    finishes (snd (attack_loop simple_cycles shortest_path nullspace
                               set_order n prev sg)) ->
    forall k,
      attack_loop simple_cycles shortest_path nullspace set_order
                  (n + k) prev sg
      = attack_loop simple_cycles shortest_path nullspace set_order
                    n prev sg.
Proof.
  induction n as [|n IH]; intros prev sg Hfin k; simpl in *.
  - now contradiction Hfin.
  - destruct (attack_round simple_cycles shortest_path nullspace set_order
                           prev sg) as [[|current sg']| |]; auto.
Qed.

(** Once every label is a vector, two more rounds are enough. *)
Lemma attack_loop_two_rounds (prev : option (list vec)) (sg : view) :
  wf_graph (base sg) = true ->
  (forall e, In e (edges (induced sg)) -> is_tuple (elabel e) = true) ->
  finishes (snd (attack_loop simple_cycles shortest_path nullspace set_order
                             2 prev sg)).
Proof.
  intros Hwf Htuples. cbn [attack_loop].
  pose proof (finishes_attack_round simple_cycles shortest_path nullspace
                set_order prev sg) as Hfin.
  destruct (attack_round simple_cycles shortest_path nullspace set_order
                         prev sg) as [[|current sg']| |] eqn:E;
    simpl; try ends; [|now contradiction Hfin].
  pose proof E as E'.
  apply attack_round_Continue in E'
    as (cycles & basis & m & _ & _ & _ & _ & _ & _ & Hrel).
  apply relabel_fixed in Hrel; auto. subst sg'.
  rewrite (attack_round_repeat _ _ _ _ _ _ _ E). simpl. ends.
Qed.

Lemma attack_loop_three_rounds (sg : view) :
  wf_graph (base sg) = true ->
  finishes (snd (attack_loop simple_cycles shortest_path nullspace set_order
                             3 None sg)).
Proof.
  intros Hwf. change 3 with (S 2). cbn [attack_loop].
  pose proof (finishes_attack_round simple_cycles shortest_path nullspace
                set_order None sg) as Hfin.
  destruct (attack_round simple_cycles shortest_path nullspace set_order
                         None sg) as [[|current sg']| |] eqn:E;
    simpl; try ends; [|now contradiction Hfin].
  apply attack_round_Continue in E
    as (cycles & basis & m & _ & _ & _ & _ & _ & _ & Hrel).
  apply relabel_tuples in Hrel as [Hwf' Htuples]; auto.
  now apply attack_loop_two_rounds.
Qed.

(** C3, as amended. On the view of a well-formed graph the fixed-point
    loop of [attack_scc] terminates: there is a number of rounds after
    which it has exited, with a result that more fuel does not change. *)
Theorem attack_scc_terminates (sg : view) :
  wf_graph (base sg) = true ->
  exists rounds, forall fuel,
    rounds <= fuel ->
    finishes (snd (attack_scc simple_cycles shortest_path nullspace set_order
                              fuel sg))
    /\ attack_scc simple_cycles shortest_path nullspace set_order fuel sg
       = attack_scc simple_cycles shortest_path nullspace set_order
                    rounds sg.
Proof.
  intros Hwf. exists 3. intros fuel Hle. unfold attack_scc.
  pose proof (attack_loop_three_rounds sg Hwf) as Hfin.
  replace fuel with (3 + (fuel - 3)) by lia.
  rewrite (attack_loop_more_fuel 3 None sg Hfin). auto.
Qed.

End LoopTermination.

(** ** Components without a cycle *)

Lemma separated_no_edges (G : graph) : edges G = [] -> separated G = true.
Proof. unfold separated. now intros ->. Qed.

Section AcyclicFacts.
Variable simple_cycles : adjacency -> list (node * list node).
Variable shortest_path : adjacency -> node -> node -> option (list node).
Variable strongly_connected_components : adjacency -> list (list node).
Variable nullspace : list (list Z) -> list vec.
Variable set_order : list label -> list label.

(** A component that is one node of the graph, with no edge from the node
    to itself, and for which networkx lists no cycle. *)
Definition acyclic_component (G : graph) (component : list node) : Prop :=
  (exists n, component = [n] /\ In n (nodes G))
  /\ edges (induced (mkView G component)) = []
  /\ simple_cycles (adj (induced (mkView G component))) = [].

Lemma relabel_copy_no_edges (G : graph) (start_node : node) (m : morphism)
  (g : graph) :
  (forall u nb v kd, In (u, nb) g -> In (v, kd) nb -> kd = []) ->
  relabel_copy shortest_path G start_node m g = Returns g.
Proof.
  intros Hkd. unfold relabel_copy. apply mapM_fixed. intros [u nb] HG.
  rewrite mapM_fixed; [reflexivity|]. intros [v kd] Hnb.
  now rewrite (Hkd u nb v kd HG Hnb).
Qed.

Lemma relabel_no_edges (sg : view) (cycles : list (list hop)) (m : morphism) :
  nodes (induced sg) <> [] -> edges (induced sg) = [] ->
  relabel shortest_path sg cycles m = Returns sg.
Proof.
  intros Hnodes Hedges. unfold relabel.
  destruct (nodes (induced sg)) as [|start_node ns] eqn:En; [congruence|].
  simpl. rewrite relabel_copy_no_edges.
  - simpl. unfold copy_back. now rewrite Hedges.
  - intros u nb v [|[key l] kd] HG Hnb; [reflexivity|]. exfalso.
    assert (He : In (mkEdge u v key l) (edges (induced sg))).
    { apply in_edges. exists nb, ((key, l) :: kd). simpl. auto. }
    now rewrite Hedges in He.
Qed.

Lemma attack_scc_acyclic (fuel : nat) (G : graph) (component : list node) :
  set_order [] = [] ->
  acyclic_component G component ->
  2 <= fuel ->
  attack_scc simple_cycles shortest_path nullspace set_order fuel
             (mkView G component)
  = (mkView G component, Returns true).
Proof.
  intros Hset ((n & -> & Hn) & Hedges & Hcycles) Hfuel.
  set (sg := mkView G [n]) in *.
  assert (Hnodes : nodes (induced sg) <> []).
  { rewrite nodes_induced. intros E.
    assert (Hin : In n (filter (shown (keep sg)) (nodes (base sg)))).
    { apply filter_In. split; [assumption|]. simpl.
      now rewrite Nat.eqb_refl. }
    now rewrite E in Hin. }
  assert (Hround : forall prev,
            attack_round simple_cycles shortest_path nullspace set_order
                         prev sg
            = if same_nullspace (nullspace []) prev then Returns Break
              else match nullspace [] with
                   | [] => Returns Break
                   | _ :: _ => Returns (Continue (nullspace []) sg)
                   end).
  { intros prev. unfold attack_round, get_simple_cycles_edges,
      get_ordered_alphabet. rewrite Hcycles, Hedges.
    cbn [foldM bind map]. rewrite Hset. cbn [loop_equations mapM bind].
    destruct (same_nullspace (nullspace []) prev); [reflexivity|].
    destruct (nullspace []) as [|nb ns]; [reflexivity|].
    cbn [build_morphism List.length seq combine foldM bind].
    now rewrite (relabel_no_edges sg _ _ Hnodes Hedges). }
  destruct fuel as [|[|fuel]]; try lia.
  unfold attack_scc. cbn [attack_loop]. rewrite (Hround None). simpl.
  rewrite (separated_no_edges _ Hedges).
  destruct (nullspace []) as [|nb ns] eqn:En; [reflexivity|].
  rewrite (Hround (Some (nb :: ns))). rewrite ?En. simpl.
  replace (vec_eqb nb nb && nullspace_eqb ns ns) with true.
  - now rewrite (separated_no_edges _ Hedges).
  - symmetry. apply (proj2 (nullspace_eqb_eq (nb :: ns) (nb :: ns))).
    reflexivity.
Qed.

(** C4. When the transition graph is acyclic -- every component that
    networkx reports is a single node of the graph without a self-loop,
    with an empty cycle set -- [decide_CRASP_membership] returns [True]
    (two rounds per component are enough). *)
Theorem decide_acyclic (fuel : nat) (my_dfa : DFA) (G : graph) :
  set_order [] = [] ->
  automata_to_graph my_dfa = Returns G ->
  Forall (acyclic_component G) (strongly_connected_components (adj G)) ->
  2 <= fuel ->
  decide_CRASP_membership simple_cycles shortest_path
    strongly_connected_components nullspace set_order fuel my_dfa
  = Returns true.
Proof.
  intros Hset HG Hall Hfuel. unfold decide_CRASP_membership. rewrite HG.
  simpl. induction Hall as [|c sccs Hc _ IH]; [reflexivity|].
  cbn [decide_loop]. rewrite (attack_scc_acyclic fuel G c Hset Hc Hfuel).
  exact IH.
Qed.

End AcyclicFacts.

(** ** Graph construction does not validate the automaton *)

Lemma foldM_total {A S} (body : S -> A -> outcome S) (xs : list A) :
  (forall acc x, In x xs -> exists acc', body acc x = Returns acc') ->
  forall acc, exists r, foldM body xs acc = Returns r.
Proof.
  induction xs as [|x xs IH]; intros H acc; simpl; [eauto|].
  destruct (H acc x) as (acc' & ->); [simpl; auto|]. simpl.
  apply IH. intros; apply H; simpl; auto.
Qed.

Lemma build_state_mapping_defined (state_list : list state) :
  forall (i : nat) (state_mapping : list (state * node)) (q : state),
    In q state_list \/ dict_mem String.eqb state_mapping q = true ->
    exists n,
      dict_get String.eqb (build_state_mapping state_list i state_mapping) q
      = Some n.
Proof.
  induction state_list as [|q0 rest IH]; intros i state_mapping q H; simpl.
  - destruct H as [[]|H]. unfold dict_mem in H.
    destruct (dict_get String.eqb state_mapping q); [eauto | discriminate].
  - apply IH. unfold dict_mem. rewrite (dict_get_set _ string_eqb_iff).
    destruct (String.eqb q0 q) eqn:E; [now right|].
    destruct H as [[->|H]|H]; [|now left | now right].
    rewrite String.eqb_refl in E. discriminate.
Qed.

Section NoValidation.
Variable simple_cycles : adjacency -> list (node * list node).
Variable shortest_path : adjacency -> node -> node -> option (list node).
Variable strongly_connected_components : adjacency -> list (list node).
Variable nullspace : list (list Z) -> list vec.
Variable set_order : list label -> list label.

(** C7, as amended. The decider does not validate the automaton.  With an
    empty state set it builds the empty graph and, networkx finding no
    component in it, returns [True]; and whether the transition function
    is total is never looked at: graph construction succeeds as soon as
    every state has a row of transitions, however partial, into the state
    set. *)
Theorem decide_does_not_validate :
  strongly_connected_components [] = [] ->
  (forall fuel symbols rows initial final,
     decide_CRASP_membership simple_cycles shortest_path
       strongly_connected_components nullspace set_order fuel
       (mkDFA [] symbols rows initial final)
     = Returns true)
  /\ (forall my_dfa,
        (forall q, In q (states my_dfa) ->
           exists row,
             dict_get String.eqb (transitions my_dfa) q = Some row
             /\ forall sym target, In (sym, target) row ->
                  In target (states my_dfa)) ->
        exists G, automata_to_graph my_dfa = Returns G).
Proof.
  intros Hscc. split.
  - intros fuel symbols rows initial final.
    unfold decide_CRASP_membership, automata_to_graph. simpl.
    now rewrite Hscc.
  - intros my_dfa Hrows. unfold automata_to_graph. apply foldM_total.
    intros G q Hq. destruct (Hrows q Hq) as (row & -> & Htargets). simpl.
    apply foldM_total. intros G' [sym target] Hin.
    destruct (build_state_mapping_defined (states my_dfa) 0 [] q)
      as (u & ->); [now left|].
    destruct (build_state_mapping_defined (states my_dfa) 0 [] target)
      as (v & ->); [left; eapply Htargets; eauto|].
    simpl. eauto.
Qed.

End NoValidation.

(** * Worked examples *)

(** ** The reference library functions meet the contracts used above *)

Lemma distinct_keeps (l seen : list label) (x : label) :
  In x l ->
  In x (Ref.distinct seen l) \/ existsb (label_eqb x) seen = true.
Proof.
  revert seen. induction l as [|y l IH]; intros seen; simpl; [tauto|].
  intros [->|H].
  - destruct (existsb (label_eqb x) seen); simpl; auto.
  - destruct (existsb (label_eqb y) seen) eqn:E.
    + apply IH. assumption.
    + destruct (IH (y :: seen) H) as [Hin|Hex]; [simpl; auto|].
      simpl in Hex. apply orb_true_iff in Hex as [Hex|Hex]; [|auto].
      apply label_eqb_eq in Hex. subst. simpl. auto.
Qed.

Lemma set_order_keeps (l : list label) (x : label) :
  In x l -> In x (Ref.set_order l).
Proof.
  intros H. destruct (distinct_keeps l [] x H) as [Hin|Hex];
    [assumption | discriminate].
Qed.

(** ** A loop reading a, a, b *)

Local Open Scope string_scope.

(** Three states around a loop that reads [a], [a], [b]; every other
    transition goes to the sink [q3]. *)
Definition loop_dfa : DFA :=
  mkDFA ["q0"; "q1"; "q2"; "q3"] ["a"; "b"]
        [("q0", [("a", "q1"); ("b", "q3")]);
         ("q1", [("a", "q2"); ("b", "q3")]);
         ("q2", [("a", "q3"); ("b", "q0")]);
         ("q3", [("a", "q3"); ("b", "q3")])]
        "q0" ["q0"].

Definition loop_graph : graph :=
  [(0, [(1, [("a", Sym "a")]); (3, [("b", Sym "b")])]);
   (1, [(2, [("a", Sym "a")]); (3, [("b", Sym "b")])]);
   (3, [(3, [("a", Sym "a"); ("b", Sym "b")])]);
   (2, [(3, [("a", Sym "a")]); (0, [("b", Sym "b")])])].

Lemma loop_graph_built : automata_to_graph loop_dfa = Returns loop_graph.
Proof. reflexivity. Qed.

(** The view of the component {q0, q1, q2}. *)
Definition loop_view : view := mkView loop_graph [0; 1; 2].

(** The view after a number of rounds that all went on. *)
Fixpoint view_after (rounds : nat) (prev : option (list vec)) (sg : view)
  : option view :=
  match rounds with
  | 0 => Some sg
  | S rounds' =>
      match attack_round Ref.simple_cycles Ref.shortest_path Ref.nullspace
                         Ref.set_order prev sg with
      | Returns (Continue current sg') => view_after rounds' (Some current) sg'
      | _ => None
      end
  end.

(** The entries of the labels that a view shows, edge by edge. *)
Definition shown_labels (sg : view) : list (list Q) :=
  map (fun e => match elabel e with
                | Sym _ => []
                | Vec v => map this v
                end)
      (edges (induced sg)).

(** C3, counterexample. On the loop, whose alphabet at entry has two
    labels, the null space has dimension 1 in the first round and 2 in
    the second, and the loop has not exited after two rounds: it exits in
    the third. *)
Lemma nullspace_dimension_grows :
  List.length (get_ordered_alphabet Ref.set_order (induced loop_view)) = 2
  /\ nullspace_dimensions Ref.simple_cycles Ref.shortest_path Ref.nullspace
       Ref.set_order 3 None loop_view = [1; 2; 2]
  /\ snd (attack_scc Ref.simple_cycles Ref.shortest_path Ref.nullspace
            Ref.set_order 2 loop_view) = OutOfFuel
  /\ snd (attack_scc Ref.simple_cycles Ref.shortest_path Ref.nullspace
            Ref.set_order 3 loop_view) = Returns true.
Proof. repeat split; vm_compute; reflexivity. Qed.

Lemma attack_scc_terminates_witness :
  exists rounds, forall fuel,
    rounds <= fuel ->
    finishes (snd (attack_scc Ref.simple_cycles Ref.shortest_path
                     Ref.nullspace Ref.set_order fuel loop_view))
    /\ attack_scc Ref.simple_cycles Ref.shortest_path Ref.nullspace
         Ref.set_order fuel loop_view
       = attack_scc Ref.simple_cycles Ref.shortest_path Ref.nullspace
           Ref.set_order rounds loop_view.
Proof.
  apply (attack_scc_terminates Ref.simple_cycles Ref.shortest_path
           Ref.nullspace Ref.set_order loop_view).
  reflexivity.
Defined.

(** C2, on the loop. The first relabelling turns the three labels into
    the potentials -1/2, -1 and 0.  The second round finds a null space of
    dimension 2, so its potentials have two entries each; after its
    relabelling the labels are still the three one-entry vectors: nothing
    was appended. *)
Theorem second_relabel_appends_nothing :
  option_map shown_labels (view_after 1 None loop_view)
  = Some [[-1 # 2]; [-1 # 1]; [0 # 1]]%Q
  /\ nullspace_dimensions Ref.simple_cycles Ref.shortest_path Ref.nullspace
       Ref.set_order 2 None loop_view = [1; 2]
  /\ option_map shown_labels (view_after 2 None loop_view)
     = Some [[-1 # 2]; [-1 # 1]; [0 # 1]]%Q.
Proof. repeat split; vm_compute; reflexivity. Qed.

Lemma loop_components :
  Ref.strongly_connected_components (adj loop_graph) = [[0; 1; 2]; [3]].
Proof. reflexivity. Qed.

Lemma decide_is_conjunction_over_sccs_witness :
  decide_CRASP_membership Ref.simple_cycles Ref.shortest_path
    Ref.strongly_connected_components Ref.nullspace Ref.set_order 3 loop_dfa
  = Returns true
  <-> Forall (fun c => scc_result Ref.simple_cycles Ref.shortest_path
                         Ref.nullspace Ref.set_order 3 loop_graph c
                       = Returns true)
             (Ref.strongly_connected_components (adj loop_graph)).
Proof.
  apply (decide_is_conjunction_over_sccs Ref.simple_cycles Ref.shortest_path
           Ref.strongly_connected_components Ref.nullspace Ref.set_order
           3 loop_dfa loop_graph).
  - reflexivity.
  - rewrite loop_components. unfold pairwise_disjoint.
    repeat constructor. intros n Hn [E|[]]. subst n. simpl in Hn.
    intuition discriminate.
Defined.

Definition loop_cycles : list (list hop) :=
  [[(0, 1, Sym "a"); (1, 2, Sym "a"); (2, 0, Sym "b")]].

Lemma loop_equations_index_succeeds_witness :
  exists basis,
    loop_equations (get_ordered_alphabet Ref.set_order (induced loop_view))
                   loop_cycles
    = Returns basis.
Proof.
  apply (loop_equations_index_succeeds Ref.simple_cycles Ref.set_order
           set_order_keeps (induced loop_view) loop_cycles).
  reflexivity.
Defined.

(** ** Two states joined by parallel edges *)

Definition pair_dfa : DFA :=
  mkDFA ["p0"; "p1"] ["a"; "b"]
        [("p0", [("a", "p1"); ("b", "p1")]);
         ("p1", [("a", "p0"); ("b", "p0")])]
        "p0" ["p0"].

Definition pair_graph : graph :=
  [(0, [(1, [("a", Sym "a"); ("b", Sym "b")])]);
   (1, [(0, [("a", Sym "a"); ("b", Sym "b")])])].

Lemma pair_graph_built : automata_to_graph pair_dfa = Returns pair_graph.
Proof. reflexivity. Qed.

Lemma get_simple_cycles_edges_product_witness :
  get_simple_cycles_edges Ref.simple_cycles pair_graph
  = Returns [[(0, 1, Sym "a"); (1, 0, Sym "a")];
             [(0, 1, Sym "a"); (1, 0, Sym "b")];
             [(0, 1, Sym "b"); (1, 0, Sym "a")];
             [(0, 1, Sym "b"); (1, 0, Sym "b")]].
Proof.
  apply (get_simple_cycles_edges_product Ref.simple_cycles pair_graph).
  - reflexivity.
  - repeat constructor.
Defined.

(** ** A path and the empty automaton *)

(** One transition and no cycle: [q1] has no outgoing transition. *)
Definition path_dfa : DFA :=
  mkDFA ["q0"; "q1"] ["a"] [("q0", [("a", "q1")]); ("q1", [])] "q0" ["q1"].

Definition path_graph : graph := [(0, [(1, [("a", Sym "a")])]); (1, [])].

Lemma decide_acyclic_witness :
  decide_CRASP_membership Ref.simple_cycles Ref.shortest_path
    Ref.strongly_connected_components Ref.nullspace Ref.set_order 2 path_dfa
  = Returns true.
Proof.
  apply (decide_acyclic Ref.simple_cycles Ref.shortest_path
           Ref.strongly_connected_components Ref.nullspace Ref.set_order
           2 path_dfa path_graph).
  - reflexivity.
  - reflexivity.
  - repeat constructor; simpl; eauto.
  - lia.
Defined.

Definition empty_dfa : DFA := mkDFA [] ["a"; "b"] [] "q0" [].

(** C7, counterexample. On an automaton without states the decider
    raises nothing: it returns [True]. *)
Lemma empty_automaton_accepted :
  decide_CRASP_membership Ref.simple_cycles Ref.shortest_path
    Ref.strongly_connected_components Ref.nullspace Ref.set_order 3 empty_dfa
  = Returns true.
Proof. reflexivity. Qed.

Lemma decide_does_not_validate_witness :
  (forall fuel symbols rows initial final,
     decide_CRASP_membership Ref.simple_cycles Ref.shortest_path
       Ref.strongly_connected_components Ref.nullspace Ref.set_order fuel
       (mkDFA [] symbols rows initial final)
     = Returns true)
  /\ exists G, automata_to_graph path_dfa = Returns G.
Proof.
  destruct (decide_does_not_validate Ref.simple_cycles Ref.shortest_path
              Ref.strongly_connected_components Ref.nullspace Ref.set_order
              eq_refl) as [Hempty Hpartial].
  split; [exact Hempty|]. apply Hpartial.
  intros q [<-|[<-|[]]]; eexists; (split; [reflexivity|]); simpl.
  - intros sym target [[= <- <-]|[]]. auto.
  - intros sym target [].
Defined.

Local Close Scope string_scope.

(** * Path independence of the potential *)

(** ** Sums of vectors *)

Fixpoint vplus (a b : vec) : vec :=
  match a, b with
  | x :: a', y :: b' => (x + y)%Qc :: vplus a' b'
  | _, _ => []
  end.

Definition zero_vector (k : nat) : vec := repeat 0%Qc k.

Lemma vadd_vplus (a b : vec) :
  List.length a = List.length b -> vadd a b = Returns (vplus a b).
Proof.
  revert b. induction a as [|x a IH]; intros [|y b]; simpl; intros H;
    try discriminate; [reflexivity|].
  injection H as H. now rewrite IH.
Qed.

Lemma vadd_Returns (a b c : vec) :
  vadd a b = Returns c ->
  List.length a = List.length b /\ c = vplus a b.
Proof.
  revert b c. induction a as [|x a IH]; intros [|y b] c; simpl;
    try discriminate.
  - intros [= <-]. auto.
  - intros H. apply bind_Returns in H as (r & Hr & [= <-]).
    destruct (IH _ _ Hr) as [Hl ->]. auto.
Qed.

Lemma vadd_mismatch (a b : vec) :
  List.length a <> List.length b -> vadd a b = Raises ShapeError.
Proof.
  revert b. induction a as [|x a IH]; intros [|y b]; simpl; intros H;
    try reflexivity; try congruence.
  rewrite IH; [reflexivity | congruence].
Qed.

Lemma vplus_length (a b : vec) :
  List.length a = List.length b -> List.length (vplus a b) = List.length a.
Proof.
  revert b. induction a as [|x a IH]; intros [|y b]; simpl; intros H;
    try discriminate; [reflexivity|].
  injection H as H. now rewrite IH.
Qed.

Lemma vplus_assoc (a b c : vec) :
  vplus (vplus a b) c = vplus a (vplus b c).
Proof.
  revert b c. induction a as [|x a IH]; intros [|y b] [|z c]; simpl;
    try reflexivity.
  now rewrite IH, Qcplus_assoc.
Qed.

Lemma vplus_zero_r (a : vec) : vplus a (zero_vector (List.length a)) = a.
Proof.
  unfold zero_vector. induction a as [|x a IH]; simpl; [reflexivity|].
  now rewrite IH, Qcplus_0_r.
Qed.

Lemma vplus_cancel_r (a b c : vec) :
  List.length a = List.length c -> List.length b = List.length c ->
  vplus a c = vplus b c -> a = b.
Proof.
  revert b c. induction a as [|x a IH]; intros [|y b] [|z c]; simpl;
    intros Ha Hb H; try discriminate; [reflexivity|].
  pose proof (f_equal (@hd Qc 0%Qc) H) as Hx. cbn [hd] in Hx.
  pose proof (f_equal (@tl Qc) H) as Ht. cbn [tl] in Ht.
  injection Ha as Ha. injection Hb as Hb.
  f_equal; [|eapply IH; eauto].
  transitivity (x + z - z)%Qc; [ring|]. rewrite Hx. ring.
Qed.

Lemma zero_vector_length (k : nat) : List.length (zero_vector k) = k.
Proof. apply repeat_length. Qed.

(** ** Sums along walks *)

Section PathSums.
Variable m : morphism.
Variable k : nat.

(** Every image of the morphism has [k] entries, as [build_morphism]
    makes them from [k] basis vectors. *)
Definition uniform : Prop :=
  forall l v, dict_get label_eqb m l = Some v -> List.length v = k.

Lemma path_sum_app (v0 : vec) (c1 c2 : list hop) :
  path_sum m v0 (c1 ++ c2) = (v <- path_sum m v0 c1 ;; path_sum m v c2).
Proof. apply foldM_app. Qed.

Lemma path_sum_length (c : list hop) :
  forall v0 v, path_sum m v0 c = Returns v -> List.length v = List.length v0.
Proof.
  induction c as [|h c IH]; intros v0 v; simpl.
  - now intros [= <-].
  - intros H. apply bind_Returns in H as (v1 & H1 & H).
    apply bind_Returns in H1 as (img & _ & Hadd).
    apply vadd_Returns in Hadd as [Hl ->].
    rewrite (IH _ _ H). now apply vplus_length.
Qed.

(** Starting the sum from [v0 + z] or adding [v0] to the sum from [z]
    comes to the same, errors included. *)
Lemma path_sum_shift (c : list hop) :
  forall v0 z,
    List.length v0 = List.length z ->
    path_sum m (vplus v0 z) c = (s <- path_sum m z c ;; vadd v0 s).
Proof.
  unfold path_sum. induction c as [|h c IH]; intros v0 z Hl; simpl.
  - now rewrite vadd_vplus.
  - destruct (dict_get label_eqb m (snd h)) as [img|]; simpl; [|reflexivity].
    destruct (Nat.eq_dec (List.length z) (List.length img)) as [E|E].
    + rewrite (vadd_vplus z img E).
      rewrite (vadd_vplus (vplus v0 z) img)
        by (rewrite vplus_length; congruence).
      simpl. rewrite vplus_assoc. apply IH.
      rewrite vplus_length; congruence.
    + rewrite (vadd_mismatch z img E).
      rewrite (vadd_mismatch (vplus v0 z) img)
        by (rewrite vplus_length; congruence).
      reflexivity.
Qed.

Lemma path_sum_from (c : list hop) (v0 : vec) :
  List.length v0 = k ->
  path_sum m v0 c = (s <- path_sum m (zero_vector k) c ;; vadd v0 s).
Proof.
  intros Hl. rewrite <- (path_sum_shift c v0 (zero_vector k))
    by (now rewrite zero_vector_length).
  now rewrite <- Hl, vplus_zero_r.
Qed.

End PathSums.

(** ** Walks and cycles *)

Definition hop_source (h : hop) : node := fst (fst h).

(** [walk G a es b]: the hops [es] lead from [a] to [b], each along an
    edge of the graph. *)
Inductive walk (G : graph) : node -> list hop -> node -> Prop :=
| walk_nil (a : node) : walk G a [] a
| walk_cons (a c b : node) (l : label) (key : symbol) (es : list hop) :
    In (mkEdge a c key l) (edges G) ->
    walk G c es b ->
    walk G a ((a, c, l) :: es) b.

(** A morphism of dimension [k] is balanced when the images of the labels
    of every simple cycle sum to the zero vector. *)
Definition balanced (G : graph) (m : morphism) (k : nat) : Prop :=
  forall a cycle,
    walk G a cycle a -> cycle <> [] -> NoDup (map hop_source cycle) ->
    path_sum m (zero_vector k) cycle = Returns (zero_vector k).

Lemma walk_app (G : graph) (a b c : node) (es1 es2 : list hop) :
  walk G a es1 b -> walk G b es2 c -> walk G a (es1 ++ es2) c.
Proof.
  induction 1; simpl; [auto|]. intros H2. econstructor; eauto.
Qed.

Lemma walk_split (G : graph) (es1 es2 : list hop) :
  forall a c, walk G a (es1 ++ es2) c ->
    exists b, walk G a es1 b /\ walk G b es2 c.
Proof.
  induction es1 as [|h es1 IH]; intros a c H; simpl in H.
  - exists a. split; [constructor | assumption].
  - inversion H; subst. destruct (IH _ _ H5) as (b & H1 & H2).
    exists b. split; [econstructor; eauto | assumption].
Qed.

Lemma walk_source (G : graph) (a b : node) (h : hop) (es : list hop) :
  walk G a (h :: es) b -> hop_source h = a.
Proof. inversion 1; reflexivity. Qed.

(** A list with a repeated element splits around two occurrences. *)
Lemma repeated_split (l : list node) :
  ~ NoDup l -> exists x l1 l2 l3, l = l1 ++ x :: l2 ++ x :: l3.
Proof.
  induction l as [|x l IH]; intros H.
  - exfalso. apply H. constructor.
  - destruct (in_dec Nat.eq_dec x l) as [Hin|Hnot].
    + apply in_split in Hin as (l2 & l3 & ->). exists x, [], l2, l3.
      reflexivity.
    + destruct IH as (y & l1 & l2 & l3 & ->).
      * intros Hnd. apply H. now constructor.
      * exists y, (x :: l1), l2, l3. reflexivity.
Qed.

Lemma map_split_app {A B} (f : A -> B) (l : list A) (l1 l2 : list B) :
  map f l = l1 ++ l2 ->
  exists a1 a2, l = a1 ++ a2 /\ map f a1 = l1 /\ map f a2 = l2.
Proof.
  revert l. induction l1 as [|y l1 IH]; intros l H; simpl in H.
  - exists [], l. auto.
  - destruct l as [|x l]; [discriminate|]. injection H as Hx H.
    destruct (IH l H) as (a1 & a2 & -> & H1 & H2).
    exists (x :: a1), a2. simpl. repeat split; congruence.
Qed.

Section Balanced.
Variable G : graph.
Variable m : morphism.
Variable k : nat.
Hypothesis Hbalanced : balanced G m k.

(** Every closed walk sums to zero: it is a simple cycle, or it splits
    at a repeated node into two shorter closed walks. *)
Lemma closed_walk_zero (n : nat) :
  forall a c,
    List.length c <= n -> walk G a c a ->
    path_sum m (zero_vector k) c = Returns (zero_vector k).
Proof.
  induction n as [|n IH]; intros a c Hlen Hwalk.
  - destruct c; [reflexivity | simpl in Hlen; lia].
  - destruct c as [|h0 c0]; [reflexivity|].
    destruct (ListDec.NoDup_dec Nat.eq_dec (map hop_source (h0 :: c0)))
      as [Hnd|Hdup].
    + apply (Hbalanced a); [assumption | discriminate | assumption].
    + apply repeated_split in Hdup as (x & l1 & l2 & l3 & Hsplit).
      apply map_split_app in Hsplit as (c1 & c23 & Ec & _ & H23).
      change (x :: l2 ++ x :: l3) with ((x :: l2) ++ (x :: l3)) in H23.
      apply map_split_app in H23 as (c2 & c3 & -> & H2 & H3).
      destruct c2 as [|h2 c2]; [discriminate|].
      destruct c3 as [|h3 c3]; [discriminate|].
      injection H2 as Hh2 _. injection H3 as Hh3 _.
      rewrite Ec in Hwalk, Hlen |- *. clear Ec.
      apply walk_split in Hwalk as (b1 & Hw1 & Hw23).
      apply walk_split in Hw23 as (b2 & Hw2 & Hw3).
      pose proof (walk_source _ _ _ _ _ Hw2) as E1.
      pose proof (walk_source _ _ _ _ _ Hw3) as E2.
      assert (Eb : b2 = b1) by congruence. clear E1 E2 Hh2 Hh3. subst b2.
      rewrite !length_app in Hlen. simpl in Hlen.
      assert (Hmid : path_sum m (zero_vector k) (h2 :: c2)
                     = Returns (zero_vector k)).
      { apply (IH b1); [simpl; lia | assumption]. }
      assert (Hout : path_sum m (zero_vector k) (c1 ++ h3 :: c3)
                     = Returns (zero_vector k)).
      { apply (IH a); [rewrite length_app; simpl; lia|].
        eapply walk_app; eauto. }
      rewrite path_sum_app in Hout |- *.
      destruct (path_sum m (zero_vector k) c1) as [v1| |] eqn:E;
        cbn [bind] in Hout |- *; try discriminate.
      rewrite path_sum_app.
      assert (Hv1 : List.length v1 = k).
      { apply path_sum_length in E. now rewrite zero_vector_length in E. }
      rewrite (path_sum_from m k (h2 :: c2) v1 Hv1), Hmid. cbn [bind].
      rewrite vadd_vplus by (now rewrite zero_vector_length).
      rewrite <- Hv1 at 1. rewrite vplus_zero_r. cbn [bind]. exact Hout.
Qed.

(** Two walks with the same ends, in a graph where one can walk back,
    have the same sum. *)
Lemma walks_same_sum (a b : node) (e1 e2 back : list hop) :
  walk G a e1 b -> walk G a e2 b -> walk G b back a ->
  path_sum m (zero_vector k) e1 = path_sum m (zero_vector k) e2
  /\ exists s, path_sum m (zero_vector k) e1 = Returns s.
Proof.
  intros H1 H2 Hb.
  assert (Hc : forall e, walk G a e b ->
                 exists s sb,
                   path_sum m (zero_vector k) e = Returns s
                   /\ path_sum m (zero_vector k) back = Returns sb
                   /\ List.length s = k /\ List.length sb = k
                   /\ vplus s sb = zero_vector k).
  { intros e He.
    pose proof (closed_walk_zero _ a (e ++ back) (le_n _)
                  (walk_app _ _ _ _ _ _ He Hb)) as Hz.
    rewrite path_sum_app in Hz.
    destruct (path_sum m (zero_vector k) e) as [s| |] eqn:Es;
      cbn [bind] in Hz; try discriminate.
    assert (Hs : List.length s = k).
    { apply path_sum_length in Es. now rewrite zero_vector_length in Es. }
    rewrite (path_sum_from m k back s Hs) in Hz.
    destruct (path_sum m (zero_vector k) back) as [sb| |] eqn:Eb;
      cbn [bind] in Hz; try discriminate.
    apply vadd_Returns in Hz as [Hl Hz].
    exists s, sb. repeat split; auto; congruence. }
  destruct (Hc e1 H1) as (s1 & sb1 & E1 & Eb1 & L1 & Lb1 & Z1).
  destruct (Hc e2 H2) as (s2 & sb2 & E2 & Eb2 & L2 & Lb2 & Z2).
  assert (sb2 = sb1) by congruence. subst sb2.
  split; [|eauto]. rewrite E1, E2. f_equal.
  apply (vplus_cancel_r s1 s2 sb1); congruence.
Qed.

End Balanced.

(** ** From node paths to walks *)

(** [p] is a path of the graph from [a] to [b]: the one-node path, or a
    node sequence that the graph can expand into edges. *)
Definition graph_path (G : graph) (p : list node) (a b : node) : Prop :=
  hd_error p = Some a /\ last p a = b /\ (p = [a] \/ expansions G p <> []).

Lemma last_cons_default {A} (l : list A) (x d d' : A) :
  last (x :: l) d = last (x :: l) d'.
Proof.
  revert x. induction l as [|y l IH]; intros x; [reflexivity|].
  change (last (y :: l) d = last (y :: l) d'). apply IH.
Qed.

Lemma realizes_walk (G : graph) :
  forall (p : list node) (a : node) (es : list hop),
    hd_error p = Some a -> realizes G p es -> walk G a es (last p a).
Proof.
  induction p as [|x p IH]; intros a es Hhd Hreal; [discriminate|].
  injection Hhd as ->. destruct p as [|y p].
  - inversion Hreal. constructor.
  - unfold realizes in Hreal. cbn [steps] in Hreal.
    inversion Hreal as [|st h sts es' Hx Hrest]; subst.
    destruct h as [[a' b'] l]. simpl in Hx. destruct Hx as (-> & -> & key & He).
    apply (walk_cons G a y _ l key); [assumption|].
    change (last (a :: y :: p) a) with (last (y :: p) a).
    rewrite (last_cons_default p y a y). apply IH; [reflexivity | exact Hrest].
Qed.

(** The expansion that [relabel] takes: the first one, or no hop at all. *)
Definition chosen_expansion (path_edges : list (list hop)) : list hop :=
  match path_edges with
  | [] => []
  | first_expansion :: _ => first_expansion
  end.

Lemma potential_chosen (m : morphism) (lbl : label)
  (path_edges : list (list hop)) :
  potential m lbl path_edges
  = (vec <- lookup_or KeyError (dict_get label_eqb m lbl) ;;
     path_sum m vec (chosen_expansion path_edges)).
Proof. unfold potential. destruct path_edges; reflexivity. Qed.

Lemma path_expansions_walk (G : graph) (p : list node) (a b : node)
  (ess : list (list hop)) :
  graph_path G p a b -> get_path_edges G p = Returns ess ->
  walk G a (chosen_expansion ess) b
  /\ forall e, In e ess -> walk G a e b.
Proof.
  intros (Hhd & Hlast & Hp) Hess.
  assert (Hall : forall e, In e ess -> walk G a e b).
  { intros e He. destruct p as [|x [|y p]]; try discriminate.
    - simpl in Hess. injection Hess as <-. destruct He.
    - apply get_path_edges_returns in Hess. subst ess b.
      apply realizes_walk; [assumption|]. now apply expansions_sound. }
  split; [|assumption].
  destruct ess as [|e ess]; simpl; [|apply Hall; simpl; auto].
  destruct Hp as [->|Hp].
  - simpl in Hlast. subst b. constructor.
  - destruct p as [|x [|y p]]; try discriminate.
    + injection Hhd as ->. simpl in Hlast. subst b. constructor.
    + apply get_path_edges_returns in Hess. congruence.
Qed.

(** C6. Let the morphism be balanced on the graph, with images of one
    dimension, and let [u] be a node from which one can walk back to the
    root.  Then the images of the labels along any two edge sequences that
    [get_path_edges] gives for paths from the root to [u] have the same
    sum, whatever vector the sum starts from; so the potential computed by
    [relabel] is the same for any two such paths and any choice of
    parallel edges along them. *)
Theorem potential_path_independent (G : graph) (m : morphism) (k : nat)
  (root u : node) (back : list hop) (p1 p2 : list node)
  (ess1 ess2 : list (list hop)) :
  balanced G m k -> uniform m k ->
  walk G u back root ->
  graph_path G p1 root u -> graph_path G p2 root u ->
  get_path_edges G p1 = Returns ess1 ->
  get_path_edges G p2 = Returns ess2 ->
  (forall e1 e2 v0,
     In e1 ess1 -> In e2 ess2 -> List.length v0 = k ->
     path_sum m v0 e1 = path_sum m v0 e2)
  /\ (forall lbl, potential m lbl ess1 = potential m lbl ess2).
Proof.
  intros Hbal Huni Hback Hp1 Hp2 He1 He2.
  destruct (path_expansions_walk G p1 root u ess1 Hp1 He1) as [Hc1 Hall1].
  destruct (path_expansions_walk G p2 root u ess2 Hp2 He2) as [Hc2 Hall2].
  assert (Hsame : forall e1 e2 v0,
            walk G root e1 u -> walk G root e2 u -> List.length v0 = k ->
            path_sum m v0 e1 = path_sum m v0 e2).
  { intros e1 e2 v0 Hw1 Hw2 Hv0.
    rewrite (path_sum_from m k e1 v0 Hv0), (path_sum_from m k e2 v0 Hv0).
    now destruct (walks_same_sum G m k Hbal root u e1 e2 back Hw1 Hw2 Hback)
      as [-> _]. }
  split.
  - intros e1 e2 v0 Hi1 Hi2 Hv0. apply Hsame; auto.
  - intros lbl. rewrite !potential_chosen.
    destruct (dict_get label_eqb m lbl) as [vec|] eqn:E; [|reflexivity].
    simpl. apply Hsame; auto. exact (Huni lbl vec E).
Qed.

(** ** A two-state loop reading a, b *)

Local Open Scope string_scope.

Definition two_cycle_graph : graph :=
  [(0, [(1, [("a", Sym "a")])]); (1, [(0, [("b", Sym "b")])])].

(** The balanced morphism a -> (-1), b -> (1). *)
Definition two_cycle_morphism : morphism :=
  [(Sym "a", [Q2Qc (-1 # 1)]); (Sym "b", [Q2Qc (1 # 1)])].

Lemma Returns_vec_eq (o : outcome vec) (w : vec) :
  match o with Returns v => vec_eqb v w | _ => false end = true ->
  o = Returns w.
Proof.
  destruct o as [v| |]; try discriminate. intros H.
  apply vec_eqb_eq in H. now subst.
Qed.

Lemma two_cycle_balanced : balanced two_cycle_graph two_cycle_morphism 1.
Proof.
  intros a cycle Hw Hne Hnd.
  inversion Hw as [|a0 c b l key es He Hrest]; subst; [contradiction|].
  simpl in He. destruct He as [[= <- <- <- <-]|[[= <- <- <- <-]|[]]].
  - inversion Hrest as [|a0 c b l key es' He' Hrest']; subst.
    simpl in He'. destruct He' as [[=]|[[= <- <- <-]|[]]].
    inversion Hrest' as [|a0 c b l key es'' He'' Hrest'']; subst.
    + apply Returns_vec_eq. vm_compute. reflexivity.
    + simpl in He''. destruct He'' as [[= <- <- <-]|[[=]|[]]].
      exfalso. inversion Hnd as [|? ? Hnot _]; subst. apply Hnot.
      simpl. auto.
  - inversion Hrest as [|a0 c b l key es' He' Hrest']; subst.
    simpl in He'. destruct He' as [[= <- <- <-]|[[=]|[]]].
    inversion Hrest' as [|a0 c b l key es'' He'' Hrest'']; subst.
    + apply Returns_vec_eq. vm_compute. reflexivity.
    + simpl in He''. destruct He'' as [[=]|[[= <- <- <-]|[]]].
      exfalso. inversion Hnd as [|? ? Hnot _]; subst. apply Hnot.
      simpl. auto.
Qed.

Lemma two_cycle_uniform : uniform two_cycle_morphism 1.
Proof.
  intros [s|w] v; unfold two_cycle_morphism; cbn [dict_get label_eqb];
    [|discriminate].
  destruct (String.eqb "a" s); [intros H; now inversion H|].
  destruct (String.eqb "b" s); [intros H; now inversion H | discriminate].
Qed.

Lemma potential_path_independent_witness :
  potential two_cycle_morphism (Sym "b") [[(0, 1, Sym "a")]]
  = potential two_cycle_morphism (Sym "b")
      [[(0, 1, Sym "a"); (1, 0, Sym "b"); (0, 1, Sym "a")]].
Proof.
  refine (proj2 (potential_path_independent two_cycle_graph
                   two_cycle_morphism 1 0 1 [(1, 0, Sym "b")] [0; 1]
                   [0; 1; 0; 1] _ _ two_cycle_balanced two_cycle_uniform
                   _ _ _ eq_refl eq_refl) (Sym "b")).
  - apply (walk_cons _ 1 0 0 (Sym "b") "b"); [simpl; auto | constructor].
  - repeat split. right. discriminate.
  - repeat split. right. discriminate.
Defined.

Local Close Scope string_scope.

(** * Renaming the states

    What [attack_scc] answers on a component is a property of the
    component as a labelled graph: it does not depend on the numbering of
    the nodes, on the root, on the order of the alphabet or on the basis
    that sympy returns for the null space. *)

(** ** Weights: one rational per label *)

Definition weight : Type := label -> Qc.

Fixpoint walk_sum (psi : weight) (w : list hop) : Qc :=
  match w with
  | [] => 0%Qc
  | h :: w' => (psi (snd h) + walk_sum psi w')%Qc
  end.

(** A weight is balanced when it sums to zero along every closed walk. *)
Definition balanced_weight (G : graph) (psi : weight) : Prop :=
  forall a c, walk G a c a -> walk_sum psi c = 0%Qc.

Lemma walk_sum_app (psi : weight) (w1 w2 : list hop) :
  walk_sum psi (w1 ++ w2) = (walk_sum psi w1 + walk_sum psi w2)%Qc.
Proof.
  induction w1 as [|h w1 IH]; cbn [walk_sum app]; [ring|]. rewrite IH. ring.
Qed.

(** Zero on the simple cycles, up to rotation, is zero on every closed
    walk. *)
Lemma balanced_from_simple_cycles (G : graph) (psi : weight) :
  (forall a c, walk G a c a -> c <> [] -> NoDup (map hop_source c) ->
     walk_sum psi c = 0%Qc) ->
  balanced_weight G psi.
Proof.
  intros Hsimple a c. remember (List.length c) as n eqn:En.
  assert (Hlen : List.length c <= n) by lia. clear En.
  revert a c Hlen. induction n as [|n IH]; intros a c Hlen Hwalk.
  - destruct c; [reflexivity | simpl in Hlen; lia].
  - destruct c as [|h0 c0]; [reflexivity|].
    destruct (ListDec.NoDup_dec Nat.eq_dec (map hop_source (h0 :: c0)))
      as [Hnd|Hdup].
    + apply (Hsimple a); [assumption | discriminate | assumption].
    + apply repeated_split in Hdup as (x & l1 & l2 & l3 & Hsplit).
      apply map_split_app in Hsplit as (c1 & c23 & Ec & _ & H23).
      change (x :: l2 ++ x :: l3) with ((x :: l2) ++ (x :: l3)) in H23.
      apply map_split_app in H23 as (c2 & c3 & -> & H2 & H3).
      destruct c2 as [|h2 c2]; [discriminate|].
      destruct c3 as [|h3 c3]; [discriminate|].
      injection H2 as Hh2 _. injection H3 as Hh3 _.
      rewrite Ec in Hwalk, Hlen |- *. clear Ec.
      apply walk_split in Hwalk as (b1 & Hw1 & Hw23).
      apply walk_split in Hw23 as (b2 & Hw2 & Hw3).
      pose proof (walk_source _ _ _ _ _ Hw2) as E1.
      pose proof (walk_source _ _ _ _ _ Hw3) as E2.
      assert (Eb : b2 = b1) by congruence. clear E1 E2 Hh2 Hh3. subst b2.
      rewrite !length_app in Hlen. simpl in Hlen.
      rewrite !walk_sum_app.
      rewrite (IH b1 (h2 :: c2)); [|simpl; lia | assumption].
      assert (Hout : walk_sum psi (c1 ++ h3 :: c3) = 0%Qc).
      { apply (IH a); [rewrite length_app; simpl; lia|].
        eapply walk_app; eauto. }
      rewrite walk_sum_app in Hout.
      transitivity (walk_sum psi c1 + walk_sum psi (h3 :: c3))%Qc;
        [ring | exact Hout].
Qed.

(** Under a balanced weight, in a graph where one can walk back, two
    walks with the same ends have the same sum. *)
Lemma balanced_walks (G : graph) (psi : weight) (a b : node)
  (w1 w2 back : list hop) :
  balanced_weight G psi ->
  walk G a w1 b -> walk G a w2 b -> walk G b back a ->
  walk_sum psi w1 = walk_sum psi w2.
Proof.
  intros Hbal H1 H2 Hb.
  pose proof (Hbal a (w1 ++ back) (walk_app _ _ _ _ _ _ H1 Hb)) as Z1.
  pose proof (Hbal a (w2 ++ back) (walk_app _ _ _ _ _ _ H2 Hb)) as Z2.
  rewrite walk_sum_app in Z1, Z2.
  transitivity (walk_sum psi w1 + walk_sum psi back - walk_sum psi back)%Qc;
    [ring|].
  rewrite Z1, <- Z2. ring.
Qed.

(** ** Vectors as weights *)

(** The weight that a vector of the null space gives to the labels of the
    ordered alphabet. *)
Definition weight_of (alphabet : list label) (v : vec) : weight :=
  fun l => match index_of alphabet l with
           | Some i => nth i v 0%Qc
           | None => 0%Qc
           end.

(** [row . v] for a row of the matrix of loop equations. *)
Fixpoint dot (row : list Z) (v : vec) : Qc :=
  match row, v with
  | r :: row', x :: v' => (Q2Qc (inject_Z r) * x + dot row' v')%Qc
  | _, _ => 0%Qc
  end.

Lemma dot_zeros (n : nat) (v : vec) : dot (repeat 0%Z n) v = 0%Qc.
Proof.
  revert v. induction n as [|n IH]; intros [|x v]; cbn [repeat dot];
    try reflexivity.
  rewrite IH. change (Q2Qc (inject_Z 0)) with 0%Qc. ring.
Qed.

Lemma Q2Qc_succ (r : Z) :
  Q2Qc (inject_Z (r + 1)) = (Q2Qc (inject_Z r) + 1)%Qc.
Proof.
  apply Qc_is_canon. unfold Qcplus. cbn [this Q2Qc].
  rewrite !Qred_correct. rewrite inject_Z_plus. reflexivity.
Qed.

Lemma dot_increment (row : list Z) (i : nat) (v : vec) :
  i < List.length row -> List.length v = List.length row ->
  dot (increment row i) v = (dot row v + nth i v 0)%Qc.
Proof.
  revert i v. induction row as [|r row IH]; intros i v Hi Hl;
    simpl in Hi; [lia|].
  destruct v as [|x v]; [discriminate|]. injection Hl as Hl.
  destruct i as [|i]; cbn [increment dot nth].
  - rewrite Q2Qc_succ. ring.
  - rewrite IH by (auto; lia). ring.
Qed.

Lemma increment_length (row : list Z) (i : nat) :
  List.length (increment row i) = List.length row.
Proof.
  revert i. induction row as [|r row IH]; intros [|i]; simpl; auto.
Qed.

Lemma index_of_lt (alphabet : list label) (l : label) (i : nat) :
  index_of alphabet l = Some i -> i < List.length alphabet.
Proof.
  intros H. apply index_of_Some in H.
  apply nth_error_Some. congruence.
Qed.

(** The row that [loop_equations] builds for a cycle pairs with a vector
    into the sum of its weights along the cycle. *)
Lemma loop_equations_row_dot (alphabet : list label) (cycle : list hop)
  (v : vec) :
  List.length v = List.length alphabet ->
  forall row0 row,
    List.length row0 = List.length alphabet ->
    foldM (fun vec '(_, _, sym) =>
             index <- lookup_or ValueError (index_of alphabet sym) ;;
             Returns (increment vec index))
          cycle row0 = Returns row ->
    List.length row = List.length alphabet
    /\ dot row v = (dot row0 v + walk_sum (weight_of alphabet v) cycle)%Qc.
Proof.
  intros Hv. induction cycle as [|[[a b] sym] cycle IH]; intros row0 row Hl H;
    simpl in H.
  - injection H as <-. split; [assumption|]. cbn [walk_sum]. ring.
  - destruct (index_of alphabet sym) as [i|] eqn:E; cbn [lookup_or bind] in H;
      [|discriminate].
    destruct (IH _ _ (eq_trans (increment_length row0 i) Hl) H) as [Hr Hd].
    split; [assumption|]. rewrite Hd.
    rewrite dot_increment;
      [|rewrite Hl; eapply index_of_lt; eauto | congruence].
    cbn [walk_sum snd]. unfold weight_of at 2. rewrite E. ring.
Qed.

Lemma loop_equations_dot (alphabet : list label) (cycles : list (list hop))
  (M : list (list Z)) :
  loop_equations alphabet cycles = Returns M ->
  Forall2 (fun cycle row =>
             List.length row = List.length alphabet
             /\ forall v, List.length v = List.length alphabet ->
                  dot row v = walk_sum (weight_of alphabet v) cycle)
          cycles M.
Proof.
  unfold loop_equations. intros H. apply mapM_Returns_Forall2 in H.
  eapply Forall2_impl; [|exact H]. intros cycle row Hrow. simpl in Hrow.
  split.
  - eapply (loop_equations_row_dot alphabet cycle (repeat 0%Qc _));
      [apply repeat_length | apply repeat_length | exact Hrow].
  - intros v Hv.
    destruct (loop_equations_row_dot alphabet cycle v Hv _ row
                (repeat_length _ _) Hrow) as [_ ->].
    rewrite dot_zeros. ring.
Qed.

(** ** The morphism that a round builds *)

Lemma index_of_app_fresh (pre suf : list label) (a : label) :
  ~ In a pre -> index_of (pre ++ a :: suf) a = Some (List.length pre).
Proof.
  induction pre as [|b pre IH]; intros Hnot; simpl.
  - now rewrite label_eqb_refl.
  - destruct (label_eqb b a) eqn:E.
    + apply label_eqb_eq in E. subst. exfalso. apply Hnot. simpl; auto.
    + rewrite IH; [reflexivity|]. intros H. apply Hnot. simpl; auto.
Qed.

(** The image of a label: its weight under each basis vector. *)
Definition image (alphabet : list label) (ns : list vec) (l : label) : vec :=
  map (fun n => weight_of alphabet n l) ns.

Lemma mapM_nth (ns : list vec) (i : nat) :
  (forall n, In n ns -> i < List.length n) ->
  mapM (fun nb => lookup_or IndexError (nth_error nb i)) ns
  = Returns (map (fun n => nth i n 0%Qc) ns).
Proof.
  induction ns as [|n ns IH]; intros H; simpl; [reflexivity|].
  destruct (nth_error n i) as [x|] eqn:E.
  - simpl. rewrite IH by (intros; apply H; simpl; auto). simpl.
    now rewrite (nth_error_nth _ _ _ E).
  - apply nth_error_None in E. specialize (H n (or_introl eq_refl)). lia.
Qed.

Lemma build_morphism_images (alphabet : list label) (ns : list vec) :
  NoDup alphabet ->
  (forall n, In n ns -> List.length n = List.length alphabet) ->
  exists m,
    build_morphism alphabet ns = Returns m
    /\ (forall a, In a alphabet ->
          dict_get label_eqb m a = Some (image alphabet ns a))
    /\ (forall l v, dict_get label_eqb m l = Some v ->
          List.length v = List.length ns).
Proof.
  intros Hnd Hlen. unfold build_morphism.
  assert (Hgen : forall suf pre m0,
            alphabet = pre ++ suf ->
            (forall a, In a pre ->
               dict_get label_eqb m0 a = Some (image alphabet ns a)) ->
            (forall l v, dict_get label_eqb m0 l = Some v ->
               List.length v = List.length ns) ->
            exists m,
              foldM (fun m '(i, sym) =>
                       vec <- mapM (fun nb =>
                                      lookup_or IndexError (nth_error nb i))
                                   ns ;;
                       Returns (dict_set label_eqb m sym vec))
                    (combine (seq (List.length pre) (List.length suf)) suf) m0
              = Returns m
              /\ (forall a, In a alphabet ->
                    dict_get label_eqb m a = Some (image alphabet ns a))
              /\ (forall l v, dict_get label_eqb m l = Some v ->
                    List.length v = List.length ns)).
  { induction suf as [|a suf IH]; intros pre m0 Ealpha Hpre Huni.
    - exists m0. simpl. rewrite app_nil_r in Ealpha. subst pre. auto.
    - cbn [List.length seq combine foldM].
      assert (Hfresh : ~ In a pre).
      { rewrite Ealpha in Hnd. apply NoDup_remove_2 in Hnd.
        intros H. apply Hnd. apply in_or_app. auto. }
      rewrite mapM_nth.
      2:{ intros n Hn. rewrite (Hlen n Hn), Ealpha, length_app. simpl. lia. }
      cbn [bind].
      assert (Eimg : map (fun n => nth (List.length pre) n 0%Qc) ns
                     = image alphabet ns a).
      { unfold image, weight_of. rewrite Ealpha.
        now rewrite (index_of_app_fresh pre suf a Hfresh). }
      rewrite Eimg.
      destruct (IH (pre ++ [a]) (dict_set label_eqb m0 a (image alphabet ns a)))
        as (m & Hm & Himg & Hu).
      + now rewrite <- app_assoc.
      + intros b Hb. rewrite (dict_get_set _ label_eqb_eq).
        destruct (label_eqb a b) eqn:E.
        * apply label_eqb_eq in E. now subst.
        * apply in_app_or in Hb as [Hb|[->|[]]]; [auto|].
          rewrite label_eqb_refl in E. discriminate.
      + intros l v. rewrite (dict_get_set _ label_eqb_eq).
        destruct (label_eqb a l); [|apply Huni].
        intros [= <-]. unfold image. apply length_map.
      + exists m. rewrite length_app in Hm. simpl in Hm.
        rewrite Nat.add_1_r in Hm. auto. }
  apply (Hgen alphabet [] []); [reflexivity | intros a [] | discriminate].
Qed.

(** ** Sums along walks, entry by entry *)

Lemma vplus_map {A} (f g : A -> Qc) (l : list A) :
  vplus (map f l) (map g l) = map (fun x => (f x + g x)%Qc) l.
Proof. induction l as [|x l IH]; simpl; [reflexivity|]. now rewrite IH. Qed.

Lemma vplus_map_zero {A} (z : vec) (l : list A) :
  List.length z = List.length l -> vplus z (map (fun _ => 0%Qc) l) = z.
Proof.
  revert l. induction z as [|x z IH]; intros [|y l]; simpl; intros H;
    try discriminate; [reflexivity|].
  injection H as H. now rewrite IH, Qcplus_0_r.
Qed.

Lemma path_sum_entries (alphabet : list label) (ns : list vec) (m : morphism)
  (w : list hop) :
  (forall h, In h w ->
     dict_get label_eqb m (snd h) = Some (image alphabet ns (snd h))) ->
  forall z,
    List.length z = List.length ns ->
    path_sum m z w
    = Returns (vplus z (map (fun n => walk_sum (weight_of alphabet n) w) ns)).
Proof.
  unfold path_sum.
  induction w as [|h w IH]; intros Hm z Hz; cbn [foldM walk_sum].
  - now rewrite vplus_map_zero.
  - rewrite (Hm h) by (simpl; auto). cbn [lookup_or bind].
    rewrite vadd_vplus by (unfold image; now rewrite length_map).
    cbn [bind]. rewrite IH.
    + f_equal. rewrite vplus_assoc. f_equal. unfold image.
      now rewrite vplus_map.
    + intros; apply Hm; simpl; auto.
    + rewrite vplus_length; unfold image; rewrite ?length_map; auto.
Qed.

(** ** Linear combinations *)

Definition scale (c : Qc) (v : vec) : vec := map (Qcmult c) v.

Fixpoint lincomb (width : nat) (cs : list Qc) (ns : list vec) : vec :=
  match cs, ns with
  | c :: cs', n :: ns' => vplus (scale c n) (lincomb width cs' ns')
  | _, _ => zero_vector width
  end.

Fixpoint combination (cs xs : list Qc) : Qc :=
  match cs, xs with
  | c :: cs', x :: xs' => (c * x + combination cs' xs')%Qc
  | _, _ => 0%Qc
  end.

Lemma lincomb_length (width : nat) (cs : list Qc) (ns : list vec) :
  (forall n, In n ns -> List.length n = width) ->
  List.length (lincomb width cs ns) = width.
Proof.
  revert ns. induction cs as [|c cs IH]; intros [|n ns] H; simpl;
    try apply zero_vector_length.
  rewrite vplus_length.
  - unfold scale. rewrite length_map. apply H. simpl; auto.
  - unfold scale. rewrite length_map, IH; [apply H; simpl; auto|].
    intros; apply H; simpl; auto.
Qed.

Lemma nth_vplus (a b : vec) (i : nat) :
  List.length a = List.length b ->
  nth i (vplus a b) 0%Qc = (nth i a 0 + nth i b 0)%Qc.
Proof.
  revert b i. induction a as [|x a IH]; intros [|y b] [|i] H; simpl in H;
    try discriminate; cbn [vplus nth]; try ring; auto.
Qed.

Lemma nth_scale (c : Qc) (v : vec) (i : nat) :
  nth i (scale c v) 0%Qc = (c * nth i v 0)%Qc.
Proof.
  revert i. induction v as [|x v IH]; intros [|i]; cbn [scale map nth];
    try ring. apply IH.
Qed.

Lemma nth_zero_vector (width i : nat) : nth i (zero_vector width) 0%Qc = 0%Qc.
Proof.
  unfold zero_vector. revert i. induction width as [|k IH]; intros [|i];
    simpl; auto.
Qed.

Lemma nth_lincomb (width : nat) (cs : list Qc) (ns : list vec) (i : nat) :
  (forall n, In n ns -> List.length n = width) ->
  nth i (lincomb width cs ns) 0%Qc
  = combination cs (map (fun n => nth i n 0%Qc) ns).
Proof.
  revert ns. induction cs as [|c cs IH]; intros [|n ns] H;
    cbn [lincomb map combination]; try apply nth_zero_vector.
  rewrite nth_vplus, nth_scale, IH; [reflexivity | |].
  - intros; apply H; simpl; auto.
  - unfold scale. rewrite length_map, lincomb_length.
    + apply H; simpl; auto.
    + intros; apply H; simpl; auto.
Qed.

Lemma combination_zeros {A} (cs : list Qc) (l : list A) :
  combination cs (map (fun _ => 0%Qc) l) = 0%Qc.
Proof.
  revert l. induction cs as [|c cs IH]; intros [|x l];
    cbn [map combination]; try reflexivity.
  rewrite IH. ring.
Qed.

Lemma combination_plus {A} (cs : list Qc) (f g : A -> Qc) (l : list A) :
  combination cs (map (fun x => (f x + g x)%Qc) l)
  = (combination cs (map f l) + combination cs (map g l))%Qc.
Proof.
  revert l. induction cs as [|c cs IH]; intros [|x l];
    cbn [map combination]; try ring.
  rewrite IH. ring.
Qed.

(** The weight of a linear combination is the combination of the weights,
    and so are the sums along a walk. *)
Lemma weight_of_lincomb (alphabet : list label) (cs : list Qc)
  (ns : list vec) (l : label) :
  (forall n, In n ns -> List.length n = List.length alphabet) ->
  weight_of alphabet (lincomb (List.length alphabet) cs ns) l
  = combination cs (map (fun n => weight_of alphabet n l) ns).
Proof.
  intros H. unfold weight_of. destruct (index_of alphabet l) as [i|].
  - now apply nth_lincomb.
  - symmetry. apply combination_zeros.
Qed.

Lemma walk_sum_lincomb (alphabet : list label) (cs : list Qc)
  (ns : list vec) (w : list hop) :
  (forall n, In n ns -> List.length n = List.length alphabet) ->
  walk_sum (weight_of alphabet (lincomb (List.length alphabet) cs ns)) w
  = combination cs (map (fun n => walk_sum (weight_of alphabet n) w) ns).
Proof.
  intros H. induction w as [|h w IH]; cbn [walk_sum].
  - symmetry. apply combination_zeros.
  - rewrite IH, weight_of_lincomb by assumption.
    symmetry. apply (combination_plus cs
                       (fun n => weight_of alphabet n (snd h))
                       (fun n => walk_sum (weight_of alphabet n) w)).
Qed.

(** ** Separation, as a property of the edges *)

Definition separates (G : graph) : Prop :=
  forall e1 e2, In e1 (edges G) -> In e2 (edges G) ->
    elabel e1 = elabel e2 -> dst e1 = dst e2.

Lemma separated_from_spec (es : list edge) :
  forall labels,
    separated_from labels es = true <->
    (forall e w, In e es -> dict_get label_eqb labels (elabel e) = Some w ->
       w = dst e)
    /\ (forall e1 e2, In e1 es -> In e2 es -> elabel e1 = elabel e2 ->
          dst e1 = dst e2).
Proof.
  induction es as [|e es IH]; intros labels; simpl.
  - split; [intros _; split; intros; contradiction | reflexivity].
  - destruct (dict_get label_eqb labels (elabel e)) as [w|] eqn:E.
    + destruct (Nat.eqb w (dst e)) eqn:Ew; simpl.
      * apply Nat.eqb_eq in Ew. subst w. rewrite IH. split.
        -- intros [H1 H2]. split.
           ++ intros e0 w [<-|H0] Hw; [congruence | eauto].
           ++ intros e1 e2 [<-|H1'] [<-|H2'] El; eauto.
              ** apply (H1 e2 (dst e) H2'). rewrite <- El. exact E.
              ** symmetry. apply (H1 e1 (dst e) H1'). rewrite El. exact E.
        -- intros [H1 H2]. split; eauto.
      * split; [discriminate|]. intros [H1 _].
        apply Nat.eqb_neq in Ew. exfalso. apply Ew. eauto.
    + rewrite IH. split.
      * intros [H1 H2]. split.
        -- intros e0 w [<-|H0] Hw; [congruence|].
           apply (H1 e0 w H0). rewrite (dict_get_set _ label_eqb_eq).
           destruct (label_eqb (elabel e) (elabel e0)) eqn:El; [|assumption].
           apply label_eqb_eq in El. congruence.
        -- intros e1 e2 [<-|H1'] [<-|H2'] El; eauto.
           ++ apply (H1 e2 (dst e) H2').
              rewrite (dict_get_set _ label_eqb_eq), El.
              now rewrite label_eqb_refl.
           ++ symmetry. apply (H1 e1 (dst e) H1').
              rewrite (dict_get_set _ label_eqb_eq), <- El.
              now rewrite label_eqb_refl.
      * intros [H1 H2]. split; [|eauto].
        intros e0 w H0. rewrite (dict_get_set _ label_eqb_eq).
        destruct (label_eqb (elabel e) (elabel e0)) eqn:El.
        -- apply label_eqb_eq in El. intros [= <-]. eauto.
        -- eauto.
Qed.

Lemma separated_spec (G : graph) : separated G = true <-> separates G.
Proof.
  unfold separated, separates. rewrite separated_from_spec. split.
  - intros [_ H]. exact H.
  - intros H. split; [discriminate | exact H].
Qed.

(** ** Graphs with the same nodes and keys *)

Lemma relabelled_weaken (free : node -> node -> bool) (G G' : graph) :
  relabelled free G G' -> relabelled anywhere G G'.
Proof.
  apply Forall2_impl. intros [u nb] [u' nb'] [Eu Hnb].
  split; [assumption|]. revert Hnb. apply Forall2_impl.
  intros [v kd] [v' kd'] [Ev Hkd]. split; [assumption|].
  revert Hkd. apply Forall2_impl. intros a b [E _]. split; auto.
Qed.

Lemma relabelled_anywhere_sym (G G' : graph) :
  relabelled anywhere G G' -> relabelled anywhere G' G.
Proof.
  intros H. apply Forall2_flip in H. revert H. apply Forall2_impl.
  intros [u nb] [u' nb'] [Eu Hnb]. split; [auto|].
  apply Forall2_flip in Hnb. revert Hnb. apply Forall2_impl.
  intros [v kd] [v' kd'] [Ev Hkd]. split; [auto|].
  apply Forall2_flip in Hkd. revert Hkd. apply Forall2_impl.
  intros a b [E _]. split; auto.
Qed.

Lemma Forall2_filter_keys {K V} (P : K -> bool) (R : K * V -> K * V -> Prop)
  (d d' : list (K * V)) :
  Forall2 (fun a b => fst a = fst b /\ R a b) d d' ->
  Forall2 (fun a b => fst a = fst b /\ R a b)
          (filter (fun '(k, _) => P k) d) (filter (fun '(k, _) => P k) d').
Proof.
  induction 1 as [|[k v] [k' v'] d d' [E HR] _ IH]; simpl; [constructor|].
  simpl in E. subst k'. destruct (P k); [constructor; auto | assumption].
Qed.

Lemma relabelled_induced (free : node -> node -> bool) (G G' : graph)
  (c : list node) :
  relabelled free G G' ->
  relabelled free (induced (mkView G c)) (induced (mkView G' c)).
Proof.
  intros H. unfold induced. simpl. apply Forall2_map.
  apply (Forall2_filter_keys (shown c)) in H.
  revert H. apply Forall2_impl. intros [u nb] [u' nb'] [Eu Hnb].
  simpl in *. split; [assumption|].
  exact (Forall2_filter_keys (shown c) _ _ _ Hnb).
Qed.

Lemma Forall2_equal {A} (R : A -> A -> Prop) (l l' : list A) :
  Forall2 R l l' ->
  (forall a b, In a l -> In b l' -> R a b -> a = b) ->
  l = l'.
Proof.
  induction 1 as [|a b l l' Hab _ IH]; intros H; [reflexivity|].
  f_equal.
  - apply H; simpl; auto.
  - apply IH. intros; apply H; simpl; auto.
Qed.

(** Two graphs with the same keys and, under the same keys, the same
    labels are the same graph. *)
Lemma graph_ext (G G' : graph) :
  relabelled anywhere G G' ->
  (forall u v k l l', In (mkEdge u v k l) (edges G) ->
     In (mkEdge u v k l') (edges G') -> l = l') ->
  G = G'.
Proof.
  intros Hrel Hlab. apply (Forall2_equal _ _ _ Hrel).
  intros [u nb] [u' nb'] HG HG' [Eu Hnb]. simpl in *. subst u'. f_equal.
  apply (Forall2_equal _ _ _ Hnb).
  intros [v kd] [v' kd'] Hv Hv' [Ev Hkd]. simpl in *. subst v'. f_equal.
  apply (Forall2_equal _ _ _ Hkd).
  intros [k l] [k' l'] Hk Hk' [Ek _]. simpl in *. subst k'. f_equal.
  apply (Hlab u v k); apply in_edges; eauto.
Qed.

Lemma set_edge_label_returns (G : graph) (u v : node) (k : symbol)
  (l l0 : label) :
  edge_label G u v k = Some l0 ->
  exists G', set_edge_label G u v k l = Returns G'.
Proof.
  unfold edge_label, set_edge_label.
  destruct (dict_get Nat.eqb G u) as [nb|]; simpl; [|discriminate].
  destruct (dict_get Nat.eqb nb v) as [kd|]; simpl; [|discriminate].
  intros ->. simpl. eauto.
Qed.

Lemma foldM_total_invariant {A S} (P : S -> Prop) (body : S -> A -> outcome S)
  (xs : list A) :
  (forall acc x, In x xs -> P acc ->
     exists acc', body acc x = Returns acc' /\ P acc') ->
  forall acc, P acc -> exists r, foldM body xs acc = Returns r /\ P r.
Proof.
  induction xs as [|x xs IH]; intros H acc Hacc; simpl; [eauto|].
  destruct (H acc x) as (acc' & -> & Hacc'); [simpl; auto | assumption|].
  simpl. apply IH; [|assumption]. intros; apply H; simpl; auto.
Qed.

(** "copy back" of a copy with the keys of the view returns. *)
Lemma copy_back_returns (sg : view) (graph_copy : graph) :
  wf_graph (base sg) = true ->
  relabelled anywhere (induced sg) graph_copy ->
  exists sg', copy_back sg graph_copy = Returns sg'.
Proof.
  intros Hwf Hshape. unfold copy_back.
  destruct (foldM_total_invariant
              (fun s => keep s = keep sg
                        /\ relabelled (inside (keep sg)) (base sg) (base s))
              (fun s e => view_set_label s (src e) (dst e) (ekey e) (elabel e))
              (edges graph_copy)) with (acc := sg) as (r & Hr & _).
  - intros s e He [Hk Hrel].
    destruct (Forall2_In_r _ _ _ _ (relabelled_edges _ _ _ Hshape) He)
      as (e0 & He0 & Es & Ed & Ek & _).
    apply edges_induced in He0 as [He0 Hin].
    destruct (Forall2_In_l _ _ _ _ (relabelled_edges _ _ _ Hrel) He0)
      as (es & Hes & Es' & Ed' & Ek' & _).
    pose proof (wf_edge_label (base s) es
                  (wf_relabelled _ _ _ Hrel Hwf) Hes) as Hl.
    rewrite Es', Ed', Ek', <- Es, <- Ed, <- Ek in Hl.
    destruct (set_edge_label_returns (base s) (src e) (dst e) (ekey e)
                (elabel e) _ Hl) as (G' & HG').
    unfold view_set_label. rewrite Hk. unfold inside in Hin.
    rewrite <- Es, <- Ed in Hin.
    rewrite Hin, HG'. simpl. eexists. split; [reflexivity|].
    simpl. split; [reflexivity|].
    eapply relabelled_trans; [exact Hrel|].
    eapply set_edge_label_relabelled; [|exact HG'].
    exact Hin.
  - split; [reflexivity | apply relabelled_refl].
  - eauto.
Qed.

Lemma relabelled_adj (free : node -> node -> bool) (G G' : graph) :
  relabelled free G G' -> adj G' = adj G.
Proof.
  unfold adj. induction 1 as [|[u nb] [u' nb'] G G' [Eu Hnb] _ IH];
    [reflexivity|].
  simpl in *. subst u'. rewrite IH. f_equal. f_equal.
  symmetry. exact (Forall2_keys _ _ _ Hnb).
Qed.

Lemma mapM_map {A B} (f : A -> outcome B) (g : A -> B) (xs : list A) :
  (forall x, In x xs -> f x = Returns (g x)) ->
  mapM f xs = Returns (map g xs).
Proof.
  induction xs as [|x xs IH]; intros H; simpl; [reflexivity|].
  rewrite H by (simpl; auto). simpl. rewrite IH; [reflexivity|].
  intros; apply H; simpl; auto.
Qed.

Lemma mapM_app {A B} (f : A -> outcome B) (xs ys : list A) (xs' ys' : list B) :
  mapM f xs = Returns xs' -> mapM f ys = Returns ys' ->
  mapM f (xs ++ ys) = Returns (xs' ++ ys').
Proof.
  rewrite !mapM_Returns_Forall2. apply Forall2_app.
Qed.

Lemma dict_get_app_fresh {K V} (eqb : K -> K -> bool)
  (eqb_iff : forall a b, eqb a b = true <-> a = b)
  (d1 d2 : list (K * V)) (k : K) :
  ~ In k (map fst d1) ->
  dict_get eqb (d1 ++ d2) k = dict_get eqb d2 k.
Proof.
  induction d1 as [|[k0 v0] d1 IH]; intros H; simpl; [reflexivity|].
  destruct (eqb k0 k) eqn:E.
  - apply eqb_iff in E. subst. exfalso. apply H. simpl; auto.
  - apply IH. intros Hin. apply H. simpl; auto.
Qed.

Lemma map_fst_values {K V W} (f : V -> W) (d : list (K * V)) :
  map fst (map (fun '(k, l) => (k, f l)) d) = map fst d.
Proof.
  rewrite map_map. apply map_ext. now intros [k l].
Qed.

Section RelabelResult.
Variable shortest_path : adjacency -> node -> node -> option (list node).

(** What [relabel] leaves behind: the view shows the relabelled copy. *)
Lemma relabel_result (sg sg1 : view) (cycles : list (list hop))
  (m : morphism) :
  wf_graph (base sg) = true ->
  relabel shortest_path sg cycles m = Returns sg1 ->
  exists root gc,
    hd_error (nodes (induced sg)) = Some root
    /\ relabel_copy shortest_path (induced sg) root m (induced sg)
       = Returns gc
    /\ induced sg1 = gc
    /\ wf_graph (base sg1) = true
    /\ keep sg1 = keep sg.
Proof.
  intros Hwf H. pose proof (relabel_frame _ _ _ _ _ H) as [Hkeep Hframe].
  assert (Hwf1 : wf_graph (base sg1) = true) by (eapply wf_relabelled; eauto).
  unfold relabel in H.
  destruct (hd_error (nodes (induced sg))) as [root|] eqn:Eroot;
    [|discriminate].
  cbn [lookup_or bind] in H.
  apply bind_Returns in H as (gc & Hcopy & Hback).
  exists root, gc. repeat split; auto.
  pose proof Hcopy as Hcopy'.
  apply relabel_copy_tuples in Hcopy' as [Hshape _]; [|now apply wf_induced].
  assert (Hwfgc : wf_graph gc = true).
  { eapply wf_relabelled; [exact Hshape | now apply wf_induced]. }
  apply graph_ext.
  - eapply relabelled_trans; [|exact Hshape].
    apply relabelled_anywhere_sym. apply relabelled_weaken with (free := inside (keep sg)).
    pose proof (relabelled_induced _ _ _ (keep sg) Hframe) as Hi.
    rewrite view_same_keep in Hi. rewrite <- Hkeep in Hi at 2.
    now rewrite view_same_keep in Hi.
  - intros u v k l l' He1 He.
    pose proof (copy_back_written gc (edges gc) sg sg1
                  (fun e' He' => wf_edge_label gc e' Hwfgc He') Hback
                  _ He) as Hw.
    simpl in Hw. apply edges_induced in He1 as [He1 _].
    pose proof (wf_edge_label (base sg1) _ Hwf1 He1) as Hl. simpl in Hl.
    congruence.
Qed.

End RelabelResult.

(** ** The first relabelling, on a graph labelled by its symbols *)

Section FirstRelabel.
Variable shortest_path : adjacency -> node -> node -> option (list node).
Variable G : graph.
Variable root : node.
Variable alphabet : list label.
Variable ns : list vec.
Variable m : morphism.

Hypothesis Hwf : wf_graph G = true.
Hypothesis Hroot : In root (nodes G).
Hypothesis Hsym : forall e, In e (edges G) -> elabel e = Sym (ekey e).
Hypothesis Himage :
  forall e, In e (edges G) ->
    dict_get label_eqb m (elabel e) = Some (image alphabet ns (elabel e)).
Hypothesis Hpaths :
  forall e, In e (edges G) ->
    exists p, shortest_path (adj G) root (src e) = Some p
              /\ graph_path G p root (src e).

(** The walk from the root to [u] that [relabel] sums along. *)
Definition root_walk (u : node) : list hop :=
  match shortest_path (adj G) root u with
  | Some p =>
      match get_path_edges G p with
      | Returns path_edges => chosen_expansion path_edges
      | _ => []
      end
  | None => []
  end.

(** The potential of an edge from [u] labelled [l], entry by entry. *)
Definition new_label (u : node) (l : label) : label :=
  Vec (map (fun n => (weight_of alphabet n l
                      + walk_sum (weight_of alphabet n) (root_walk u))%Qc)
           ns).

Definition relabel_all : graph :=
  map (fun '(u, nb) =>
         (u, map (fun '(v, kd) =>
                    (v, map (fun '(k, l) => (k, new_label u l)) kd))
                 nb))
      G.

Lemma get_path_edges_of_path (p : list node) (a b : node) :
  In a (nodes G) -> graph_path G p a b ->
  exists ess, get_path_edges G p = Returns ess.
Proof.
  intros Ha (Hhd & _ & _). destruct p as [|x [|y p]].
  - discriminate.
  - simpl. eauto.
  - injection Hhd as ->. rewrite get_path_edges_closed;
      [eauto | now apply wf_graph_closed | assumption].
Qed.

Lemma root_walk_walk (e : edge) :
  In e (edges G) -> walk G root (root_walk (src e)) (src e).
Proof.
  intros He. unfold root_walk.
  destruct (Hpaths e He) as (p & -> & Hp).
  destruct (get_path_edges_of_path p root (src e) Hroot Hp) as (ess & Hess).
  rewrite Hess.
  exact (proj1 (path_expansions_walk G p root (src e) ess Hp Hess)).
Qed.

Lemma walk_labels (a b : node) (w : list hop) (h : hop) :
  walk G a w b -> In h w -> In (snd h) (map elabel (edges G)).
Proof.
  induction 1 as [|a c b l key es He _ IH]; simpl; [tauto|].
  intros [<-|Hh]; [|auto]. simpl. apply in_map_iff.
  exists (mkEdge a c key l). auto.
Qed.

Lemma walk_images (a b : node) (w : list hop) :
  walk G a w b ->
  forall h, In h w ->
    dict_get label_eqb m (snd h) = Some (image alphabet ns (snd h)).
Proof.
  intros Hw h Hh. apply (walk_labels a b w h Hw) in Hh.
  apply in_map_iff in Hh as (e & <- & He). now apply Himage.
Qed.

Lemma relabel_edge_first (e : edge) (v : node) (kd : keydict) (key : symbol) :
  In e (edges G) ->
  dict_get String.eqb kd key = Some (elabel e) ->
  relabel_edge shortest_path G root m (src e) v kd key
  = update_keys G (src e) v (elabel e)
      (map (fun n => (weight_of alphabet n (elabel e)
                      + walk_sum (weight_of alphabet n)
                                 (root_walk (src e)))%Qc) ns)
      kd.
Proof.
  intros He Hget. unfold relabel_edge. rewrite Hget. cbn [lookup_or bind].
  pose proof (root_walk_walk e He) as Hwalk. unfold root_walk in *.
  destruct (Hpaths e He) as (p & Hsp & Hp). rewrite Hsp in *.
  cbn [lookup_or bind].
  destruct (get_path_edges_of_path p root (src e) Hroot Hp) as (ess & Hess).
  rewrite Hess in *. cbn [bind].
  rewrite potential_chosen, (Himage e He). cbn [lookup_or bind].
  rewrite (path_sum_entries alphabet ns m (chosen_expansion ess));
    [|eapply walk_images; eauto | unfold image; apply length_map].
  cbn [bind]. unfold image. now rewrite vplus_map.
Qed.

(** The keys of one dictionary, one after the other: the entries already
    relabelled are vectors, the others still carry their symbols. *)
Lemma relabel_keys_first (u v : node) :
  forall (todo done : keydict),
    NoDup (map fst (done ++ todo)) ->
    (forall k l, In (k, l) (done ++ todo) ->
       In (mkEdge u v k l) (edges G)) ->
    foldM (relabel_edge shortest_path G root m u v) (map fst todo)
          (map (fun '(k, l) => (k, new_label u l)) done ++ todo)
    = Returns (map (fun '(k, l) => (k, new_label u l)) (done ++ todo)).
Proof.
  induction todo as [|[k l] todo IH]; intros done Hnd Hin.
  - simpl. now rewrite !app_nil_r.
  - cbn [map fst foldM].
    assert (He : In (mkEdge u v k l) (edges G))
      by (apply Hin, in_or_app; simpl; auto).
    assert (Hl : l = Sym k) by (apply (Hsym _ He)).
    assert (Hfresh : ~ In k (map fst done)).
    { rewrite map_app in Hnd. simpl in Hnd. apply NoDup_remove_2 in Hnd.
      intros H. apply Hnd. apply in_or_app. auto. }
    rewrite (relabel_edge_first (mkEdge u v k l) v _ k He).
    2:{ rewrite (dict_get_app_fresh _ string_eqb_iff).
        - simpl. now rewrite String.eqb_refl.
        - now rewrite map_fst_values. }
    cbn [src elabel].
    fold (new_label u l).
    assert (Hupd : update_keys G u v l
                     (map (fun n => (weight_of alphabet n l
                                     + walk_sum (weight_of alphabet n)
                                         (root_walk u))%Qc) ns)
                     (map (fun '(k0, l0) => (k0, new_label u l0)) done
                      ++ (k, l) :: todo)
                   = Returns (map (fun '(k0, l0) => (k0, new_label u l0))
                                  (done ++ [(k, l)]) ++ todo)).
    { unfold update_keys. rewrite map_app, <- app_assoc. apply mapM_app.
      - apply mapM_fixed. intros [k0 l0] H0.
        apply in_map_iff in H0 as ([k1 l1] & [= <- <-] & _).
        subst l. reflexivity.
      - cbn [mapM map app]. rewrite label_eqb_refl. subst l.
        cbn [is_tuple negb bind].
        rewrite mapM_fixed; [reflexivity|].
        intros [k0 l0] H0.
        assert (He0 : In (mkEdge u v k0 l0) (edges G))
          by (apply Hin, in_or_app; simpl; auto).
        pose proof (Hsym _ He0) as Hl0. simpl in Hl0. subst l0. simpl.
        destruct (String.eqb k0 k) eqn:E; [|reflexivity].
        apply String.eqb_eq in E. subst k0. exfalso.
        rewrite map_app in Hnd. apply NoDup_app_remove_l in Hnd.
        simpl in Hnd. apply NoDup_cons_iff in Hnd as [Hnk _].
        apply Hnk. apply in_map_iff. exists (k, Sym k). auto. }
    rewrite Hupd. cbn [bind].
    rewrite (IH (done ++ [(k, l)])).
    + now rewrite <- app_assoc.
    + now rewrite <- app_assoc.
    + intros k0 l0 H0. apply Hin. now rewrite <- app_assoc in H0.
Qed.

Lemma relabel_copy_first :
  relabel_copy shortest_path G root m G = Returns relabel_all.
Proof.
  unfold relabel_copy, relabel_all.
  pose proof (proj1 (wf_graph_iff G) Hwf) as [_ Hnb].
  apply mapM_map. intros [u nb] Hu. cbv beta iota.
  match goal with
  | |- bind ?a _ = _ =>
      assert (E : a = Returns
                        (map (fun '(v, kd) =>
                                (v, map (fun '(k, l) => (k, new_label u l)) kd))
                             nb))
  end.
  { apply mapM_map. intros [v kd] Hv. cbv beta iota.
    destruct (Hnb u nb Hu) as [_ Hkd]. destruct (Hkd v kd Hv) as [_ Hnd].
    pose proof (relabel_keys_first u v kd []) as Hkeys. cbn [map app] in Hkeys.
    rewrite Hkeys; [reflexivity | assumption |].
    intros k l Hk. apply in_edges. eauto. }
  rewrite E. reflexivity.
Qed.

Definition relabel_one (e : edge) : edge :=
  mkEdge (src e) (dst e) (ekey e) (new_label (src e) (elabel e)).

Lemma edges_relabel_all : edges relabel_all = map relabel_one (edges G).
Proof.
  unfold relabel_all, edges. generalize G as g.
  induction g as [|[u nb] g IH]; [reflexivity|].
  cbn [map flat_map]. rewrite map_app, IH. f_equal.
  unfold edges_from. induction nb as [|[v kd] nb IHnb]; [reflexivity|].
  cbn [map flat_map]. rewrite map_app, IHnb. f_equal.
  rewrite !map_map. apply map_ext. now intros [k l].
Qed.

End FirstRelabel.

(** ** Walks, paths and circuits *)

Lemma walk_realizes (G : graph) (a b : node) (c : list hop) :
  walk G a c b -> realizes G (map hop_source c ++ [b]) c.
Proof.
  induction 1 as [a|a x b l key es He Hw IH]; [constructor|].
  unfold realizes in *. cbn [map hop_source fst app].
  assert (E : exists tail, map hop_source es ++ [b] = x :: tail).
  { inversion Hw; subst; simpl; eauto. }
  destruct E as (tail & E). rewrite E in *. cbn [steps].
  constructor; [|exact IH]. simpl. eauto.
Qed.

Lemma edge_ends (G : graph) (e : edge) :
  wf_graph G = true -> In e (edges G) ->
  In (src e) (nodes G) /\ In (dst e) (nodes G).
Proof.
  intros Hwf He. destruct e as [u v k l].
  apply in_edges in He as (nb & kd & Hu & Hv & _). simpl. split.
  - apply in_map_iff. exists (u, nb). auto.
  - exact (wf_graph_closed G Hwf u nb v kd Hu Hv).
Qed.

Lemma walk_ends (G : graph) (a b : node) (w : list hop) :
  wf_graph G = true -> walk G a w b -> In a (nodes G) -> In b (nodes G).
Proof.
  intros Hwf. induction 1 as [a|a x b l key es He _ IH]; [auto|].
  intros _. apply IH. exact (proj2 (edge_ends G _ Hwf He)).
Qed.

Lemma walk_sum_rotate (psi : weight) (c1 c2 : list hop) :
  walk_sum psi (c2 ++ c1) = walk_sum psi (c1 ++ c2).
Proof. rewrite !walk_sum_app. ring. Qed.

(** ** Vectors and weights *)

Lemma weight_of_map (alphabet : list label) (psi : weight) (l : label) :
  In l alphabet -> weight_of alphabet (map psi alphabet) l = psi l.
Proof.
  intros Hin. unfold weight_of.
  destruct (index_of_In alphabet l Hin) as (i & E). rewrite E.
  apply index_of_Some in E.
  rewrite (nth_indep _ 0%Qc (psi l))
    by (rewrite length_map; apply nth_error_Some; congruence).
  rewrite map_nth. f_equal. now apply nth_error_nth.
Qed.

Lemma index_of_nth (alphabet : list label) (i : nat) (d : label) :
  NoDup alphabet -> i < List.length alphabet ->
  index_of alphabet (nth i alphabet d) = Some i.
Proof.
  intros Hnd. revert i. induction Hnd as [|a alphabet Ha _ IH]; intros i Hi;
    simpl in Hi; [lia|].
  destruct i as [|i]; simpl.
  - now rewrite label_eqb_refl.
  - destruct (label_eqb a (nth i alphabet d)) eqn:E.
    + apply label_eqb_eq in E. exfalso. apply Ha. rewrite E.
      apply nth_In. lia.
    + rewrite IH by lia. reflexivity.
Qed.

Lemma nonzero_entry (v : vec) :
  v <> zero_vector (List.length v) -> exists i, i < List.length v /\ nth i v 0%Qc <> 0%Qc.
Proof.
  induction v as [|x v IH]; intros H; [now contradiction H|].
  destruct (Qc_eq_dec x 0) as [->|Hx].
  - destruct IH as (i & Hi & Hn).
    + intros E. apply H. simpl. unfold zero_vector in *. simpl. now f_equal.
    + exists (S i). simpl. split; [lia | assumption].
  - exists 0. simpl. split; [lia | assumption].
Qed.

Lemma lincomb_nil (width : nat) (cs : list Qc) :
  lincomb width cs [] = zero_vector width.
Proof. destruct cs; reflexivity. Qed.

Lemma weight_of_zero (alphabet : list label) (l : label) :
  weight_of alphabet (zero_vector (List.length alphabet)) l = 0%Qc.
Proof.
  unfold weight_of. destruct (index_of alphabet l); [|reflexivity].
  apply nth_zero_vector.
Qed.

(** ** What the libraries are asked on a component *)

Definition arc (G : graph) (u v : node) : Prop :=
  exists key l, In (mkEdge u v key l) (edges G).

(** An elementary circuit: distinct nodes, each with an edge to the next
    and the last with an edge to the first. *)
Definition circuit (G : graph) (p : list node) : Prop :=
  NoDup p
  /\ exists a rest, p = a :: rest
                    /\ Forall (fun '(u, v) => arc G u v) (steps (p ++ [a])).

Definition strongly_connected (G : graph) : Prop :=
  forall u v, In u (nodes G) -> In v (nodes G) -> exists w, walk G u w v.

(** The labelling that [automata_to_graph] produces. *)
Definition symbol_labelled (G : graph) : Prop :=
  forall e, In e (edges G) -> elabel e = Sym (ekey e).

Definition in_kernel (M : list (list Z)) (v : vec) : Prop :=
  forall row, In row M -> dot row v = 0%Qc.

(** A list of nonzero vectors of the kernel of [M] that spans it. *)
Definition kernel_basis (width : nat) (M : list (list Z)) (ns : list vec)
  : Prop :=
  (forall n, In n ns ->
     List.length n = width /\ in_kernel M n /\ n <> zero_vector width)
  /\ (forall v, List.length v = width -> in_kernel M v ->
        exists cs, v = lincomb width cs ns).

(** The edge cycles of a graph: every expansion of every node cycle. *)
Definition all_cycles (cycles : list (node * list node)) (G : graph)
  : list (list hop) :=
  flat_map (fun '(c0, rest) => expansions G ((c0 :: rest) ++ [c0])) cycles.

Lemma all_cycles_walk (cycles : list (node * list node)) (G : graph)
  (cyc : list hop) :
  In cyc (all_cycles cycles G) -> exists a, walk G a cyc a.
Proof.
  unfold all_cycles. rewrite in_flat_map. intros ([c0 rest] & _ & Hex).
  exists c0. apply expansions_sound in Hex.
  apply (realizes_walk G _ c0) in Hex; [|reflexivity].
  now rewrite last_last in Hex.
Qed.

Lemma all_cycles_labels (cycles : list (node * list node)) (G : graph)
  (cyc : list hop) (h : hop) :
  In cyc (all_cycles cycles G) -> In h cyc ->
  In (snd h) (map elabel (edges G)).
Proof.
  unfold all_cycles. rewrite in_flat_map. intros ([c0 rest] & _ & Hex).
  eapply expansions_labels; eauto.
Qed.

Lemma walk_arcs (G : graph) (a b : node) (c : list hop) :
  walk G a c b ->
  Forall (fun '(u, v) => arc G u v) (steps (map hop_source c ++ [b])).
Proof.
  intros H. apply walk_realizes in H. unfold realizes in H.
  induction H as [|[u v] [[x y] l] st es (-> & -> & key & He) _ IH];
    constructor; [|assumption].
  exists key, l. assumption.
Qed.

Lemma walk_sum_ext (psi phi : weight) (w : list hop) :
  (forall h, In h w -> psi (snd h) = phi (snd h)) ->
  walk_sum psi w = walk_sum phi w.
Proof.
  induction w as [|h w IH]; intros H; cbn [walk_sum]; [reflexivity|].
  rewrite H by (simpl; auto). rewrite IH; [reflexivity|].
  intros; apply H; simpl; auto.
Qed.

Section Contracts.
Variable simple_cycles : adjacency -> list (node * list node).
Variable shortest_path : adjacency -> node -> node -> option (list node).
Variable nullspace : list (list Z) -> list vec.
Variable set_order : list label -> list label.

(** [nx.simple_cycles]: the cycles start at nodes of the graph, and every
    elementary circuit is listed, from one of its nodes. *)
Definition cycles_contract (G : graph) : Prop :=
  Forall (fun c => In (fst c) (nodes G)) (simple_cycles (adj G))
  /\ forall p, circuit G p ->
       exists p1 p2 c0 rest,
         p = p1 ++ p2 /\ p2 ++ p1 = c0 :: rest
         /\ In (c0, rest) (simple_cycles (adj G)).

(** [nx.shortest_path]: a path of the graph to every node that can be
    reached. *)
Definition paths_contract (G : graph) : Prop :=
  forall a b, In a (nodes G) -> In b (nodes G) ->
    (exists w, walk G a w b) ->
    exists p, shortest_path (adj G) a b = Some p /\ graph_path G p a b.

(** [Matrix(basis).nullspace()]: a basis of the kernel of the loop
    equations of the graph. *)
Definition kernel_contract (G : graph) : Prop :=
  forall M,
    loop_equations (get_ordered_alphabet set_order G)
                   (all_cycles (simple_cycles (adj G)) G) = Returns M ->
    kernel_basis (List.length (get_ordered_alphabet set_order G)) M
                 (nullspace M).

Lemma cycles_edges_all (G : graph) :
  wf_graph G = true ->
  Forall (fun c => In (fst c) (nodes G)) (simple_cycles (adj G)) ->
  get_simple_cycles_edges simple_cycles G
  = Returns (all_cycles (simple_cycles (adj G)) G).
Proof.
  intros Hwf Hnodes. unfold get_simple_cycles_edges, all_cycles.
  rewrite (foldM_ext _
             (fun acc c => r <- get_path_edges G ((fst c :: snd c) ++ [fst c]) ;;
                           Returns (acc ++ r)))
    by (intros a [c0 rest] _; reflexivity).
  rewrite (foldM_collect _
             (fun c => expansions G ((fst c :: snd c) ++ [fst c]))).
  - simpl. f_equal. apply flat_map_ext. now intros [c0 rest].
  - intros [c0 rest] Hin. simpl fst; simpl snd.
    destruct (closing_path c0 rest) as (r0 & rest' & ->).
    apply get_path_edges_closed; [now apply wf_graph_closed|].
    rewrite Forall_forall in Hnodes. exact (Hnodes _ Hin).
Qed.

(** A simple closed walk is, from one of its nodes, one of the cycles. *)
Lemma simple_cycle_listed (G : graph) (a : node) (c : list hop) :
  wf_graph G = true -> cycles_contract G ->
  walk G a c a -> c <> [] -> NoDup (map hop_source c) ->
  exists c1 c2, c = c1 ++ c2
                /\ In (c2 ++ c1) (all_cycles (simple_cycles (adj G)) G).
Proof.
  intros Hwf [_ Hall] Hwalk Hne Hnd.
  destruct c as [|h c]; [now contradiction Hne|].
  pose proof (walk_source _ _ _ _ _ Hwalk) as Hsrc.
  destruct (Hall (map hop_source (h :: c))) as (p1 & p2 & c0 & rest & E & Er & Hin).
  { split; [assumption|]. exists a, (map hop_source c). split.
    - simpl. now rewrite Hsrc.
    - apply (walk_arcs G a a (h :: c) Hwalk). }
  apply map_split_app in E as (c1 & c2 & Ec & <- & <-).
  exists c1, c2. split; [assumption|].
  unfold all_cycles. apply in_flat_map. exists (c0, rest).
  split; [assumption|]. rewrite <- Er.
  apply expansions_complete; [now apply wf_graph_nodes|].
  rewrite Ec in Hwalk. apply walk_split in Hwalk as (b & H1 & H2).
  pose proof (walk_app _ _ _ _ _ _ H2 H1) as Hrot.
  assert (Eb : b = c0).
  { rewrite <- map_app in Er. destruct (c2 ++ c1) as [|h' w'] eqn:Ew.
    - discriminate.
    - injection Er as Er _. rewrite <- Er.
      symmetry. exact (walk_source _ _ _ _ _ Hrot). }
  subst b. rewrite <- map_app. exact (walk_realizes G c0 c0 _ Hrot).
Qed.

End Contracts.

(** ** What [attack_scc] decides on a component *)

(** No balanced weight tells the labels of the graph from zero. *)
Definition balanced_weights_trivial (G : graph) : Prop :=
  forall psi, balanced_weight G psi ->
    forall e, In e (edges G) -> psi (elabel e) = 0%Qc.

(** Two edges that every balanced weight gives the same potential,
    whatever node the potentials are measured from. *)
Definition equipotential (G : graph) (e1 e2 : edge) : Prop :=
  forall psi, balanced_weight G psi ->
    forall r w1 w2, walk G r w1 (src e1) -> walk G r w2 (src e2) ->
      (psi (elabel e1) + walk_sum psi w1
       = psi (elabel e2) + walk_sum psi w2)%Qc.

Definition separates_by_potential (G : graph) : Prop :=
  forall e1 e2, In e1 (edges G) -> In e2 (edges G) ->
    equipotential G e1 e2 -> dst e1 = dst e2.

(** The answer on a component, read off the component alone. *)
Definition component_accepted (G : graph) : Prop :=
  (balanced_weights_trivial G /\ separates G)
  \/ (~ balanced_weights_trivial G /\ separates_by_potential G).

Lemma nil_or_member {A} (l : list A) : l = [] \/ exists x, In x l.
Proof. destruct l as [|x l]; [now left | right; exists x; simpl; auto]. Qed.

Section Kernel.
Variable simple_cycles : adjacency -> list (node * list node).
Variable set_order : list label -> list label.

Hypothesis set_order_spec :
  forall l, NoDup (set_order l) /\ forall x, In x (set_order l) <-> In x l.

Variable G : graph.
Hypothesis Hwf : wf_graph G = true.
Hypothesis Hcyc : cycles_contract simple_cycles G.

Variable M : list (list Z).
Hypothesis HM :
  loop_equations (get_ordered_alphabet set_order G)
                 (all_cycles (simple_cycles (adj G)) G) = Returns M.

Lemma alphabet_labels (l : label) :
  In l (get_ordered_alphabet set_order G) <-> In l (map elabel (edges G)).
Proof. unfold get_ordered_alphabet. apply set_order_spec. Qed.

Lemma alphabet_edge (e : edge) :
  In e (edges G) -> In (elabel e) (get_ordered_alphabet set_order G).
Proof. intros He. apply alphabet_labels. now apply in_map. Qed.

Lemma alphabet_walk (a b : node) (w : list hop) (h : hop) :
  walk G a w b -> In h w -> In (snd h) (get_ordered_alphabet set_order G).
Proof.
  intros Hw Hh. apply alphabet_labels. eapply walk_labels; eauto.
Qed.

(** A vector of the kernel weighs every closed walk zero. *)
Lemma kernel_balanced (n : vec) :
  List.length n = List.length (get_ordered_alphabet set_order G) ->
  in_kernel M n ->
  balanced_weight G (weight_of (get_ordered_alphabet set_order G) n).
Proof.
  intros Hlen Hker. apply balanced_from_simple_cycles.
  intros a c Hwalk Hne Hnd.
  destruct (simple_cycle_listed simple_cycles G a c Hwf Hcyc Hwalk Hne Hnd)
    as (c1 & c2 & -> & Hin).
  rewrite <- walk_sum_rotate.
  destruct (Forall2_In_l _ _ _ _ (loop_equations_dot _ _ _ HM) Hin)
    as (row & Hrow & _ & Hdot).
  rewrite <- (Hdot n Hlen). now apply Hker.
Qed.

(** A balanced weight, read along the alphabet, is in the kernel. *)
Lemma balanced_kernel (psi : weight) :
  balanced_weight G psi ->
  in_kernel M (map psi (get_ordered_alphabet set_order G)).
Proof.
  intros Hbal row Hrow.
  destruct (Forall2_In_r _ _ _ _ (loop_equations_dot _ _ _ HM) Hrow)
    as (cyc & Hcyc' & _ & Hdot).
  rewrite Hdot by apply length_map.
  destruct (all_cycles_walk _ _ _ Hcyc') as (a & Hwalk).
  rewrite (walk_sum_ext _ psi).
  - exact (Hbal a cyc Hwalk).
  - intros h Hh. apply weight_of_map. eapply alphabet_walk; eauto.
Qed.

Variable ns : list vec.
Hypothesis Hbasis :
  kernel_basis (List.length (get_ordered_alphabet set_order G)) M ns.

Lemma basis_width (n : vec) :
  In n ns -> List.length n = List.length (get_ordered_alphabet set_order G).
Proof. intros Hn. now destruct (proj1 Hbasis n Hn). Qed.

Lemma basis_balanced (n : vec) :
  In n ns ->
  balanced_weight G (weight_of (get_ordered_alphabet set_order G) n).
Proof.
  intros Hn. destruct (proj1 Hbasis n Hn) as (Hl & Hk & _).
  now apply kernel_balanced.
Qed.

(** A balanced weight is, on the labels of the graph, a combination of
    the basis. *)
Lemma balanced_combination (psi : weight) :
  balanced_weight G psi ->
  exists cs,
    (forall e, In e (edges G) ->
       psi (elabel e)
       = combination cs
           (map (fun n => weight_of (get_ordered_alphabet set_order G) n
                                    (elabel e)) ns))
    /\ (forall a b w, walk G a w b ->
          walk_sum psi w
          = combination cs
              (map (fun n =>
                      walk_sum (weight_of (get_ordered_alphabet set_order G) n)
                               w) ns)).
Proof.
  intros Hbal.
  destruct (proj2 Hbasis (map psi (get_ordered_alphabet set_order G))
              (length_map _ _) (balanced_kernel psi Hbal)) as (cs & Ecs).
  exists cs. split.
  - intros e He.
    rewrite <- (weight_of_map _ psi _ (alphabet_edge e He)), Ecs.
    apply weight_of_lincomb. exact basis_width.
  - intros a b w Hw.
    rewrite <- (walk_sum_lincomb _ cs ns w basis_width), <- Ecs.
    apply walk_sum_ext. intros h Hh. symmetry. apply weight_of_map.
    eapply alphabet_walk; eauto.
Qed.

(** The basis is empty exactly when the balanced weights are trivial. *)
Lemma basis_empty_iff : ns = [] <-> balanced_weights_trivial G.
Proof.
  split.
  - intros E psi Hbal e He.
    destruct (balanced_combination psi Hbal) as (cs & Hl & _).
    rewrite (Hl e He), E. now destruct cs.
  - intros Htriv. destruct (nil_or_member ns) as [E|(n & Hn)]; [exact E|].
    exfalso.
    destruct (proj1 Hbasis n Hn) as (Hl & _ & Hnz).
    rewrite <- Hl in Hnz. apply nonzero_entry in Hnz as (i & Hi & Hnz).
    rewrite Hl in Hi. apply Hnz.
    pose proof (nth_In (get_ordered_alphabet set_order G) (Sym EmptyString) Hi)
      as Hin.
    apply alphabet_labels, in_map_iff in Hin as (e & Ee & He).
    pose proof (Htriv _ (basis_balanced n Hn) e He) as Hz.
    unfold weight_of in Hz. rewrite Ee in Hz.
    rewrite index_of_nth in Hz; [exact Hz | apply set_order_spec | exact Hi].
Qed.

(** *** Potentials *)

Variable shortest_path : adjacency -> node -> node -> option (list node).
Variable root : node.
Hypothesis Hconnected : strongly_connected G.
Hypothesis Hroot : In root (nodes G).
Hypothesis Hpaths :
  forall e, In e (edges G) ->
    exists p, shortest_path (adj G) root (src e) = Some p
              /\ graph_path G p root (src e).

Lemma walk_start (r b : node) (w : list hop) :
  walk G r w b -> In b (nodes G) -> In r (nodes G).
Proof.
  intros Hw Hb. destruct Hw as [a|a x b l key es He _]; [assumption|].
  exact (proj1 (edge_ends G _ Hwf He)).
Qed.

(** The potentials that the first relabelling computes from the root
    compare as the potentials from any other node do. *)
Lemma from_root (psi : weight) (e1 e2 : edge) (r : node) (w1 w2 : list hop) :
  balanced_weight G psi ->
  In e1 (edges G) -> In e2 (edges G) ->
  walk G r w1 (src e1) -> walk G r w2 (src e2) ->
  (psi (elabel e1) + walk_sum psi (root_walk shortest_path G root (src e1))
   = psi (elabel e2) + walk_sum psi (root_walk shortest_path G root (src e2)))%Qc
  ->
  (psi (elabel e1) + walk_sum psi w1
   = psi (elabel e2) + walk_sum psi w2)%Qc.
Proof.
  intros Hbal He1 He2 H1 H2 K.
  pose proof (proj1 (edge_ends G e1 Hwf He1)) as Hu1.
  pose proof (proj1 (edge_ends G e2 Hwf He2)) as Hu2.
  pose proof (walk_start _ _ _ H1 Hu1) as Hr.
  destruct (Hconnected root r Hroot Hr) as (c & Hc).
  destruct (Hconnected (src e1) root Hu1 Hroot) as (b1 & Hb1).
  destruct (Hconnected (src e2) root Hu2 Hroot) as (b2 & Hb2).
  pose proof (balanced_walks G psi root (src e1) (c ++ w1) _ b1 Hbal
                (walk_app _ _ _ _ _ _ Hc H1)
                (root_walk_walk shortest_path G root Hwf Hroot Hpaths e1 He1)
                Hb1) as S1.
  pose proof (balanced_walks G psi root (src e2) (c ++ w2) _ b2 Hbal
                (walk_app _ _ _ _ _ _ Hc H2)
                (root_walk_walk shortest_path G root Hwf Hroot Hpaths e2 He2)
                Hb2) as S2.
  rewrite walk_sum_app in S1, S2.
  transitivity (psi (elabel e1)
                + walk_sum psi (root_walk shortest_path G root (src e1))
                - walk_sum psi c)%Qc; [rewrite <- S1; ring|].
  rewrite K, <- S2. ring.
Qed.

Lemma potentials_equal (e1 e2 : edge) :
  In e1 (edges G) -> In e2 (edges G) ->
  new_label shortest_path G root (get_ordered_alphabet set_order G) ns
            (src e1) (elabel e1)
  = new_label shortest_path G root (get_ordered_alphabet set_order G) ns
              (src e2) (elabel e2)
  <-> equipotential G e1 e2.
Proof.
  intros He1 He2. unfold new_label. split.
  - intros E psi Hbal r w1 w2 H1 H2.
    injection E as E. pose proof (proj1 map_ext_in_iff E) as E'.
    apply (from_root psi e1 e2 r w1 w2); auto.
    destruct (balanced_combination psi Hbal) as (cs & Hl & Hw).
    rewrite (Hl e1 He1), (Hl e2 He2).
    rewrite (Hw _ _ _ (root_walk_walk shortest_path G root Hwf Hroot Hpaths
                         e1 He1)).
    rewrite (Hw _ _ _ (root_walk_walk shortest_path G root Hwf Hroot Hpaths
                         e2 He2)).
    rewrite <- !combination_plus. f_equal. apply map_ext_in. exact E'.
  - intros Heq. f_equal. apply map_ext_in. intros n Hn.
    apply (Heq _ (basis_balanced n Hn) root).
    + exact (root_walk_walk shortest_path G root Hwf Hroot Hpaths e1 He1).
    + exact (root_walk_walk shortest_path G root Hwf Hroot Hpaths e2 He2).
Qed.

(** The relabelled component is separated by its labels exactly when
    the potentials separate the component. *)
Lemma relabelled_separates :
  separates (relabel_all shortest_path G root
               (get_ordered_alphabet set_order G) ns)
  <-> separates_by_potential G.
Proof.
  unfold separates, separates_by_potential. rewrite edges_relabel_all.
  split.
  - intros H e1 e2 He1 He2 Heq.
    apply (H (relabel_one shortest_path G root
                (get_ordered_alphabet set_order G) ns e1)
             (relabel_one shortest_path G root
                (get_ordered_alphabet set_order G) ns e2));
      [now apply in_map | now apply in_map |].
    simpl. now apply potentials_equal.
  - intros H e1' e2' He1 He2 El.
    apply in_map_iff in He1 as (e1 & <- & He1).
    apply in_map_iff in He2 as (e2 & <- & He2).
    simpl in *. apply (H e1 e2 He1 He2). now apply potentials_equal.
Qed.

End Kernel.

(** ** Relabelling a component whose labels are vectors already *)

Section VectorRelabel.
Variable shortest_path : adjacency -> node -> node -> option (list node).
Variable sg : view.
Variable root : node.
Variable alphabet : list label.
Variable ns : list vec.
Variable m : morphism.

Hypothesis Hbase : wf_graph (base sg) = true.
Hypothesis Hhead : hd_error (nodes (induced sg)) = Some root.
Hypothesis Hvec :
  forall e, In e (edges (induced sg)) -> is_tuple (elabel e) = true.
Hypothesis Himage :
  forall e, In e (edges (induced sg)) ->
    dict_get label_eqb m (elabel e) = Some (image alphabet ns (elabel e)).
Hypothesis Hpaths :
  forall e, In e (edges (induced sg)) ->
    exists p, shortest_path (adj (induced sg)) root (src e) = Some p
              /\ graph_path (induced sg) p root (src e).

Lemma head_node (G : graph) (a : node) :
  hd_error (nodes G) = Some a -> In a (nodes G).
Proof. destruct (nodes G); [discriminate|]. intros [= ->]. simpl; auto. Qed.

Lemma relabel_copy_vectors :
  relabel_copy shortest_path (induced sg) root m (induced sg)
  = Returns (induced sg).
Proof.
  pose proof (wf_induced sg Hbase) as Hwf.
  pose proof (head_node _ _ Hhead) as Hroot.
  unfold relabel_copy. apply mapM_fixed. intros [u nb] Hu.
  match goal with
  | |- bind ?a _ = _ => assert (E : a = Returns nb)
  end.
  { apply mapM_fixed. intros [v kd] Hv.
    rewrite foldM_fixed; [reflexivity|].
    intros key Hkey. apply in_map_iff in Hkey as ([key' l] & Ek & Hkd).
    simpl in Ek. subst key'.
    assert (He : In (mkEdge u v key l) (edges (induced sg)))
      by (apply in_edges; eauto).
    assert (Hfixed : forall key0 l0, In (key0, l0) kd ->
              is_tuple l0 = true
              /\ edge_label (induced sg) u v key0 = Some l0).
    { intros key0 l0 H0.
      assert (He0 : In (mkEdge u v key0 l0) (edges (induced sg)))
        by (apply in_edges; eauto).
      split; [exact (Hvec _ He0) | exact (wf_edge_label _ _ Hwf He0)]. }
    pose proof (wf_edge_label _ _ Hwf He) as Hlabel. simpl in Hlabel.
    assert (Hget : dict_get String.eqb kd key = Some l).
    { unfold edge_label in Hlabel.
      destruct (dict_get Nat.eqb (induced sg) u) as [nb0|] eqn:E0;
        [|discriminate].
      destruct (dict_get Nat.eqb nb0 v) as [kd0|] eqn:E1; [|discriminate].
      apply wf_graph_iff in Hwf as [Hn Hnb].
      pose proof (In_dict_get _ nat_eqb_iff _ _ _ Hn Hu) as E0'.
      rewrite E0 in E0'. injection E0' as ->.
      pose proof (In_dict_get _ nat_eqb_iff _ _ _ (proj1 (Hnb u nb Hu)) Hv)
        as E1'.
      rewrite E1 in E1'. now injection E1' as ->. }
    pose proof (relabel_edge_first shortest_path (induced sg) root alphabet
                  ns m Hwf Hroot Himage Hpaths (mkEdge u v key l) v kd key
                  He Hget) as Hstep.
    cbn [src elabel] in Hstep. rewrite Hstep.
    now apply update_keys_fixed. }
  rewrite E. reflexivity.
Qed.

Lemma relabel_vectors (cycles : list (list hop)) :
  relabel shortest_path sg cycles m = Returns sg.
Proof.
  destruct (copy_back_returns sg (induced sg) Hbase) as (sg' & Hback).
  { apply relabelled_refl. }
  assert (H : relabel shortest_path sg cycles m = Returns sg').
  { unfold relabel. rewrite Hhead. cbn [lookup_or bind].
    rewrite relabel_copy_vectors. exact Hback. }
  rewrite H. f_equal. eapply relabel_fixed; eauto.
Qed.

End VectorRelabel.

(** ** The relabelled component as a graph *)

Section Relabelled.
Variable shortest_path : adjacency -> node -> node -> option (list node).
Variable G : graph.
Variable root : node.
Variable alphabet : list label.
Variable ns : list vec.

Lemma nodes_relabel_all :
  nodes (relabel_all shortest_path G root alphabet ns) = nodes G.
Proof.
  unfold relabel_all, nodes. rewrite map_map. apply map_ext.
  now intros [u nb].
Qed.

Lemma adj_relabel_all :
  adj (relabel_all shortest_path G root alphabet ns) = adj G.
Proof.
  unfold relabel_all, adj. rewrite map_map. apply map_ext.
  intros [u nb]. f_equal. rewrite map_map. apply map_ext. now intros [v kd].
Qed.

Lemma relabel_all_vectors (e : edge) :
  In e (edges (relabel_all shortest_path G root alphabet ns)) ->
  is_tuple (elabel e) = true.
Proof.
  rewrite edges_relabel_all. intros H.
  apply in_map_iff in H as (e0 & <- & _). reflexivity.
Qed.

Lemma relabel_all_sources (e : edge) :
  In e (edges (relabel_all shortest_path G root alphabet ns)) ->
  exists e0, In e0 (edges G) /\ src e0 = src e.
Proof.
  rewrite edges_relabel_all. intros H.
  apply in_map_iff in H as (e0 & <- & He0). eauto.
Qed.

Lemma realizes_relabel_all (p : list node) (es : list hop) :
  realizes G p es ->
  realizes (relabel_all shortest_path G root alphabet ns) p
           (map (fun '(a, b, l) =>
                   (a, b, new_label shortest_path G root alphabet ns a l))
                es).
Proof.
  unfold realizes. generalize (steps p) as st. intros st H.
  induction H as [|[u v] [[a b] l] st es (-> & -> & key & He) _ IH];
    cbn [map]; constructor; [|assumption].
  repeat split. exists key. rewrite edges_relabel_all.
  apply in_map_iff. exists (mkEdge u v key l). auto.
Qed.

Lemma graph_path_relabel_all (p : list node) (a b : node) :
  NoDup (nodes G) ->
  graph_path G p a b ->
  graph_path (relabel_all shortest_path G root alphabet ns) p a b.
Proof.
  intros Hnd (Hhd & Hlast & Hp). repeat split; [assumption..|].
  destruct Hp as [Hp|Hp]; [now left | right].
  destruct (expansions G p) as [|es ess] eqn:E; [now contradiction Hp|].
  assert (Hes : In es (expansions G p)) by (rewrite E; simpl; auto).
  apply expansions_sound, realizes_relabel_all in Hes.
  apply expansions_complete in Hes; [|now rewrite nodes_relabel_all].
  intros E'. rewrite E' in Hes. contradiction.
Qed.

End Relabelled.

Section Equations.
Variable set_order : list label -> list label.
Hypothesis set_order_spec :
  forall l, NoDup (set_order l) /\ forall x, In x (set_order l) <-> In x l.

Lemma equations_return (cycles : list (node * list node)) (G : graph) :
  exists M,
    loop_equations (get_ordered_alphabet set_order G) (all_cycles cycles G)
    = Returns M.
Proof.
  unfold loop_equations. apply mapM_total. intros cycle Hcy.
  apply loop_equations_row. intros h Hh.
  apply set_order_spec. eapply all_cycles_labels; eauto.
Qed.

(** Every row of the loop equations is as wide as the alphabet. *)
Lemma equations_width (cycles : list (node * list node)) (G : graph)
  (M : list (list Z)) (row : list Z) :
  loop_equations (get_ordered_alphabet set_order G) (all_cycles cycles G)
  = Returns M ->
  In row M ->
  List.length row = List.length (get_ordered_alphabet set_order G).
Proof.
  intros HM Hrow.
  destruct (Forall2_In_r _ _ _ _ (loop_equations_dot _ _ _ HM) Hrow)
    as (cyc & _ & Hl & _).
  exact Hl.
Qed.

End Equations.

(** ** The rounds of [attack_scc] on a component *)

Section Rounds.
Variable simple_cycles : adjacency -> list (node * list node).
Variable shortest_path : adjacency -> node -> node -> option (list node).
Variable nullspace : list (list Z) -> list vec.
Variable set_order : list label -> list label.

Hypothesis set_order_spec :
  forall l, NoDup (set_order l) /\ forall x, In x (set_order l) <-> In x l.
Hypothesis nullspace_empty : nullspace [] = [].
Hypothesis nullspace_width :
  forall row M n, In n (nullspace (row :: M)) ->
    List.length n = List.length row.

(** What later rounds need of the view they work on. *)
Definition ready (sg : view) (root : node) : Prop :=
  wf_graph (base sg) = true
  /\ hd_error (nodes (induced sg)) = Some root
  /\ Forall (fun c => In (fst c) (nodes (induced sg)))
            (simple_cycles (adj (induced sg)))
  /\ (forall e, In e (edges (induced sg)) -> is_tuple (elabel e) = true)
  /\ (forall e, In e (edges (induced sg)) ->
        exists p, shortest_path (adj (induced sg)) root (src e) = Some p
                  /\ graph_path (induced sg) p root (src e)).

Lemma attack_round_unfold (prev : option (list vec)) (sg : view)
  (M : list (list Z)) :
  get_simple_cycles_edges simple_cycles (induced sg)
  = Returns (all_cycles (simple_cycles (adj (induced sg))) (induced sg)) ->
  loop_equations (get_ordered_alphabet set_order (induced sg))
                 (all_cycles (simple_cycles (adj (induced sg))) (induced sg))
  = Returns M ->
  attack_round simple_cycles shortest_path nullspace set_order prev sg
  = if same_nullspace (nullspace M) prev then Returns Break
    else match nullspace M with
         | [] => Returns Break
         | _ :: _ =>
             m <- build_morphism (get_ordered_alphabet set_order (induced sg))
                                 (nullspace M) ;;
             sg' <- relabel shortest_path sg
                      (all_cycles (simple_cycles (adj (induced sg)))
                                  (induced sg)) m ;;
             Returns (Continue (nullspace M) sg')
         end.
Proof.
  intros Hc HM. unfold attack_round. rewrite Hc. cbn [bind].
  rewrite HM. reflexivity.
Qed.

(** On a view whose labels are vectors, a round stops or goes on with the
    same view. *)
Lemma later_round (sg : view) (root : node) (prev : option (list vec)) :
  ready sg root ->
  attack_round simple_cycles shortest_path nullspace set_order prev sg
  = Returns Break
  \/ exists current,
       attack_round simple_cycles shortest_path nullspace set_order prev sg
       = Returns (Continue current sg).
Proof.
  intros (Hbase & Hhead & Hheads & Hvec & Hpaths).
  pose proof (wf_induced sg Hbase) as Hwf.
  destruct (equations_return set_order set_order_spec
              (simple_cycles (adj (induced sg))) (induced sg)) as (M & HM).
  rewrite (attack_round_unfold prev sg M
             (cycles_edges_all simple_cycles _ Hwf Hheads) HM).
  destruct (same_nullspace (nullspace M) prev); [now left|].
  destruct (nil_or_member (nullspace M)) as [E|(n & Hn)];
    [rewrite E; now left|].
  right.
  assert (Hw : forall x, In x (nullspace M) ->
                 List.length x
                 = List.length (get_ordered_alphabet set_order (induced sg))).
  { intros x Hx. destruct M as [|row M'].
    - rewrite nullspace_empty in Hx. contradiction.
    - rewrite (nullspace_width row M' x Hx).
      eapply equations_width; eauto. simpl; auto. }
  remember (nullspace M) as current eqn:Ecur.
  destruct (build_morphism_images
              (get_ordered_alphabet set_order (induced sg)) current
              (proj1 (set_order_spec _)) Hw)
    as (m & Hm & Himg & _).
  assert (Himage : forall e, In e (edges (induced sg)) ->
            dict_get label_eqb m (elabel e)
            = Some (image (get_ordered_alphabet set_order (induced sg))
                          current (elabel e))).
  { intros e He. apply Himg. now apply alphabet_edge. }
  exists current. destruct current as [|n0 rest]; [contradiction|].
  rewrite Hm. cbn [bind].
  rewrite (relabel_vectors shortest_path sg root _ _ m Hbase Hhead Hvec
             Himage Hpaths).
  reflexivity.
Qed.

(** Two rounds are enough on such a view, and they leave it alone. *)
Lemma later_rounds (sg : view) (root : node) (prev : option (list vec))
  (fuel : nat) :
  ready sg root ->
  snd (attack_loop simple_cycles shortest_path nullspace set_order
                   (S (S fuel)) prev sg)
  = Returns (separated (induced sg)).
Proof.
  intros Hready. cbn [attack_loop].
  destruct (later_round sg root prev Hready) as [->|(current & H)];
    [reflexivity|].
  rewrite H. rewrite (attack_round_repeat _ _ _ _ _ _ _ H). reflexivity.
Qed.

(** The first round on a component labelled by its symbols. *)
Lemma first_round (sg : view) :
  wf_graph (base sg) = true ->
  symbol_labelled (induced sg) ->
  strongly_connected (induced sg) ->
  cycles_contract simple_cycles (induced sg) ->
  paths_contract shortest_path (induced sg) ->
  kernel_contract simple_cycles nullspace set_order (induced sg) ->
  (attack_round simple_cycles shortest_path nullspace set_order None sg
   = Returns Break
   /\ balanced_weights_trivial (induced sg))
  \/ (exists current sg1 root,
        attack_round simple_cycles shortest_path nullspace set_order None sg
        = Returns (Continue current sg1)
        /\ ~ balanced_weights_trivial (induced sg)
        /\ ready sg1 root
        /\ (separates (induced sg1)
            <-> separates_by_potential (induced sg))).
Proof.
  intros Hbase Hsym Hconnected Hcyc Hpath Hker.
  pose proof (wf_induced sg Hbase) as Hwf.
  destruct (equations_return set_order set_order_spec
              (simple_cycles (adj (induced sg))) (induced sg)) as (M & HM).
  pose proof (Hker M HM) as Hbasis.
  pose proof (basis_empty_iff simple_cycles set_order set_order_spec _ Hwf
                Hcyc M HM _ Hbasis) as Hempty.
  rewrite (attack_round_unfold None sg M
             (cycles_edges_all simple_cycles _ Hwf (proj1 Hcyc)) HM).
  cbn [same_nullspace].
  destruct (nil_or_member (nullspace M)) as [E|(n & Hn)].
  { left. rewrite E. split; [reflexivity | now apply Hempty]. }
  right.
  (* the component has an edge, hence a root *)
  assert (Hedge : exists e0, In e0 (edges (induced sg))).
  { destruct (proj1 Hbasis n Hn) as (Hl & _ & Hnz).
    rewrite <- Hl in Hnz. apply nonzero_entry in Hnz as (i & Hi & _).
    rewrite Hl in Hi.
    pose proof (nth_In _ (Sym EmptyString) Hi) as Hin.
    apply (alphabet_labels set_order set_order_spec), in_map_iff in Hin
      as (e0 & _ & He0).
    eauto. }
  destruct Hedge as (e0 & He0).
  assert (Hhead : exists root, hd_error (nodes (induced sg)) = Some root).
  { pose proof (proj1 (edge_ends _ e0 Hwf He0)) as Hs.
    destruct (nodes (induced sg)) as [|r rs]; [contradiction | simpl; eauto]. }
  destruct Hhead as (root & Hhead).
  pose proof (head_node _ _ Hhead) as Hroot.
  assert (Hpaths : forall e, In e (edges (induced sg)) ->
            exists p, shortest_path (adj (induced sg)) root (src e) = Some p
                      /\ graph_path (induced sg) p root (src e)).
  { intros e He. pose proof (proj1 (edge_ends _ e Hwf He)) as Hs.
    apply Hpath; auto. }
  remember (nullspace M) as current eqn:Ecur.
  destruct (build_morphism_images
              (get_ordered_alphabet set_order (induced sg)) current
              (proj1 (set_order_spec _))
              (basis_width set_order _ M current Hbasis))
    as (m & Hm & Himg & _).
  assert (Himage : forall e, In e (edges (induced sg)) ->
            dict_get label_eqb m (elabel e)
            = Some (image (get_ordered_alphabet set_order (induced sg))
                          current (elabel e))).
  { intros e He. apply Himg. now apply alphabet_edge. }
  pose proof (relabel_copy_first shortest_path (induced sg) root
                (get_ordered_alphabet set_order (induced sg)) current m
                Hwf Hroot Hsym Himage Hpaths) as Hcopy.
  destruct (copy_back_returns sg _ Hbase
              (proj1 (relabel_copy_tuples shortest_path _ _ _ _ _ Hwf Hcopy)))
    as (sg1 & Hback).
  assert (Hrel : relabel shortest_path sg
                   (all_cycles (simple_cycles (adj (induced sg)))
                               (induced sg)) m
                 = Returns sg1).
  { unfold relabel. rewrite Hhead. cbn [lookup_or bind].
    rewrite Hcopy. exact Hback. }
  destruct (relabel_result shortest_path sg sg1 _ m Hbase Hrel)
    as (root' & gc & Hhead' & Hcopy' & Hind & Hbase1 & _).
  rewrite Hhead in Hhead'. injection Hhead' as <-.
  rewrite Hcopy in Hcopy'. injection Hcopy' as <-.
  exists current, sg1, root.
  split; [|split; [|split]].
  - destruct current as [|n0 rest]; [contradiction|].
    rewrite Hm. cbn [bind]. rewrite Hrel. reflexivity.
  - intros Ht. apply Hempty in Ht. rewrite Ht in Hn. contradiction.
  - unfold ready. rewrite Hind, nodes_relabel_all, adj_relabel_all.
    repeat split; auto.
    + exact (proj1 Hcyc).
    + apply relabel_all_vectors.
    + intros e He. apply relabel_all_sources in He as (e1 & He1 & <-).
      destruct (Hpaths e1 He1) as (p & Hp & Hgp). exists p.
      split; [assumption|].
      apply graph_path_relabel_all; [now apply wf_graph_nodes | assumption].
  - rewrite Hind.
    exact (relabelled_separates simple_cycles set_order set_order_spec _ Hwf
             Hcyc M HM current Hbasis shortest_path root Hconnected Hroot
             Hpaths).
Qed.

(** What [attack_scc] returns on a component: three rounds are enough,
    and the answer can be read off the component. *)
Lemma attack_scc_component (sg : view) (fuel : nat) :
  wf_graph (base sg) = true ->
  symbol_labelled (induced sg) ->
  strongly_connected (induced sg) ->
  cycles_contract simple_cycles (induced sg) ->
  paths_contract shortest_path (induced sg) ->
  kernel_contract simple_cycles nullspace set_order (induced sg) ->
  3 <= fuel ->
  exists b,
    snd (attack_scc simple_cycles shortest_path nullspace set_order fuel sg)
    = Returns b
    /\ (b = true <-> component_accepted (induced sg)).
Proof.
  intros Hbase Hsym Hconnected Hcyc Hpath Hker Hfuel.
  destruct fuel as [|[|[|fuel]]]; try lia.
  unfold attack_scc, component_accepted.
  destruct (first_round sg Hbase Hsym Hconnected Hcyc Hpath Hker)
    as [[Hround Htriv]|(current & sg1 & root & Hround & Hnot & Hready & Hsep)].
  - exists (separated (induced sg)). cbn [attack_loop]. rewrite Hround.
    split; [reflexivity|]. rewrite separated_spec. tauto.
  - exists (separated (induced sg1)).
    change (attack_loop simple_cycles shortest_path nullspace set_order
              (S (S (S fuel))) None sg)
      with (match attack_round simple_cycles shortest_path nullspace
                               set_order None sg with
            | Returns Break => (sg, Returns (separated (induced sg)))
            | Returns (Continue current0 sg') =>
                attack_loop simple_cycles shortest_path nullspace set_order
                            (S (S fuel)) (Some current0) sg'
            | Raises e => (sg, Raises e)
            | OutOfFuel => (sg, OutOfFuel)
            end).
    rewrite Hround.
    split; [exact (later_rounds sg1 root _ fuel Hready)|].
    rewrite separated_spec, Hsep. tauto.
Qed.

End Rounds.

(** ** The same component under other node numbers *)

Definition rename_edge (g : node -> node) (e : edge) : edge :=
  mkEdge (g (src e)) (g (dst e)) (ekey e) (elabel e).

Definition rename_hop (g : node -> node) (h : hop) : hop :=
  let '(a, b, l) := h in (g a, g b, l).

(** [g] carries the edges of [G] onto the edges of [G'], one to one on
    the nodes of [G]. *)
Definition graph_iso (g : node -> node) (G G' : graph) : Prop :=
  (forall u v, In u (nodes G) -> In v (nodes G) -> g u = g v -> u = v)
  /\ (forall e, In e (edges G) -> In (rename_edge g e) (edges G'))
  /\ (forall e', In e' (edges G') ->
        exists e, In e (edges G) /\ e' = rename_edge g e).

Section Isomorphic.
Variable g : node -> node.
Variables G G' : graph.
Hypothesis Hwf : wf_graph G = true.
Hypothesis Hiso : graph_iso g G G'.

Lemma walk_sum_rename (psi : weight) (w : list hop) :
  walk_sum psi (map (rename_hop g) w) = walk_sum psi w.
Proof.
  induction w as [|[[a b] l] w IH]; cbn [map walk_sum rename_hop snd];
    [reflexivity|]. now rewrite IH.
Qed.

Lemma walk_rename (a b : node) (w : list hop) :
  walk G a w b -> walk G' (g a) (map (rename_hop g) w) (g b).
Proof.
  induction 1 as [a|a x b l key es He _ IH]; [constructor|].
  cbn [map rename_hop]. apply (walk_cons G' (g a) (g x) (g b) l key);
    [|assumption].
  exact (proj1 (proj2 Hiso) _ He).
Qed.

Lemma walk_rename_back (w' : list hop) :
  forall a b', In a (nodes G) -> walk G' (g a) w' b' ->
    exists w b, In b (nodes G) /\ b' = g b
                /\ w' = map (rename_hop g) w /\ walk G a w b.
Proof.
  induction w' as [|h w' IH]; intros a b' Ha Hw.
  - inversion Hw; subst. exists [], a. repeat split; auto. constructor.
  - inversion Hw as [|a0 x b0 l key es He' Hrest]; subst.
    destruct (proj2 (proj2 Hiso) _ He') as (e & He & Ee).
    destruct e as [u v k l0]. unfold rename_edge in Ee. simpl in Ee.
    injection Ee as Eu Ev Ek El. subst x key l0.
    destruct (edge_ends G _ Hwf He) as [Hu Hv]. simpl in Hu, Hv.
    assert (u = a) by (apply (proj1 Hiso); auto). subst u.
    destruct (IH v b' Hv Hrest) as (w & b & Hb & Eb & Ew & Hwalk).
    exists ((a, v, l) :: w), b. repeat split; auto.
    + cbn [map rename_hop]. now rewrite Ew.
    + econstructor; eauto.
Qed.

(** Where a walk of [G'] that reaches the image of a node starts. *)
Lemma walk_rename_start (r' : node) (w' : list hop) (u : node) :
  In u (nodes G) -> walk G' r' w' (g u) ->
  exists r, In r (nodes G) /\ r' = g r.
Proof.
  intros Hu Hw. inversion Hw as [|a0 x b0 l key es He' Hrest]; subst.
  - eauto.
  - destruct (proj2 (proj2 Hiso) _ He') as (e & He & Ee).
    exists (src e). split; [exact (proj1 (edge_ends G _ Hwf He))|].
    now injection Ee.
Qed.

Lemma balanced_rename (psi : weight) :
  balanced_weight G psi <-> balanced_weight G' psi.
Proof.
  split; intros Hbal a c Hw.
  - destruct c as [|h c]; [reflexivity|].
    inversion Hw as [|a0 x b0 l key es He' Hrest]; subst.
    destruct (proj2 (proj2 Hiso) _ He') as (e & He & Ee).
    assert (Ea : a = g (src e)) by now injection Ee.
    pose proof (proj1 (edge_ends G _ Hwf He)) as Hs.
    clear Ee He' Hrest. subst a.
    destruct (walk_rename_back _ _ _ Hs Hw) as (w & b & Hb & Eb & Ew & Hwalk).
    assert (b = src e) by (apply (proj1 Hiso); auto). subst b.
    rewrite Ew, walk_sum_rename. exact (Hbal _ _ Hwalk).
  - rewrite <- walk_sum_rename. exact (Hbal _ _ (walk_rename _ _ _ Hw)).
Qed.

Lemma trivial_rename :
  balanced_weights_trivial G <-> balanced_weights_trivial G'.
Proof.
  split; intros Ht psi Hbal e He.
  - destruct (proj2 (proj2 Hiso) _ He) as (e0 & He0 & ->).
    exact (Ht psi (proj2 (balanced_rename psi) Hbal) e0 He0).
  - apply (Ht psi (proj1 (balanced_rename psi) Hbal) (rename_edge g e)).
    exact (proj1 (proj2 Hiso) _ He).
Qed.

Lemma dst_rename (e1 e2 : edge) :
  In e1 (edges G) -> In e2 (edges G) ->
  (dst (rename_edge g e1) = dst (rename_edge g e2) <-> dst e1 = dst e2).
Proof.
  intros H1 H2. simpl. split; [|congruence].
  apply (proj1 Hiso).
  - exact (proj2 (edge_ends G _ Hwf H1)).
  - exact (proj2 (edge_ends G _ Hwf H2)).
Qed.

Lemma separates_rename : separates G <-> separates G'.
Proof.
  unfold separates. split; intros H e1 e2 H1 H2 El.
  - destruct (proj2 (proj2 Hiso) _ H1) as (a1 & Ha1 & ->).
    destruct (proj2 (proj2 Hiso) _ H2) as (a2 & Ha2 & ->).
    apply dst_rename; auto.
  - apply dst_rename; auto.
    apply H; [apply Hiso; auto | apply Hiso; auto | exact El].
Qed.

Lemma equipotential_rename (e1 e2 : edge) :
  In e1 (edges G) -> In e2 (edges G) ->
  (equipotential G e1 e2
   <-> equipotential G' (rename_edge g e1) (rename_edge g e2)).
Proof.
  intros H1 H2.
  pose proof (proj1 (edge_ends G _ Hwf H1)) as Hs1.
  pose proof (proj1 (edge_ends G _ Hwf H2)) as Hs2.
  split; intros Heq psi Hbal r w1 w2 Hw1 Hw2.
  - simpl in Hw1, Hw2 |- *.
    destruct (walk_rename_start _ _ _ Hs1 Hw1) as (r0 & Hr0 & ->).
    destruct (walk_rename_back _ _ _ Hr0 Hw1) as (v1 & b1 & Hb1 & E1 & -> & Hv1).
    destruct (walk_rename_back _ _ _ Hr0 Hw2) as (v2 & b2 & Hb2 & E2 & -> & Hv2).
    apply (proj1 Hiso) in E1; auto. apply (proj1 Hiso) in E2; auto.
    subst b1 b2. rewrite !walk_sum_rename.
    apply (Heq psi (proj2 (balanced_rename psi) Hbal) r0); assumption.
  - pose proof (Heq psi (proj1 (balanced_rename psi) Hbal) (g r)
                  _ _ (walk_rename _ _ _ Hw1) (walk_rename _ _ _ Hw2)) as E.
    now rewrite !walk_sum_rename in E.
Qed.

Lemma by_potential_rename :
  separates_by_potential G <-> separates_by_potential G'.
Proof.
  unfold separates_by_potential. split; intros H e1 e2 H1 H2 Heq.
  - destruct (proj2 (proj2 Hiso) _ H1) as (a1 & Ha1 & ->).
    destruct (proj2 (proj2 Hiso) _ H2) as (a2 & Ha2 & ->).
    apply dst_rename; auto. apply H; auto.
    now apply equipotential_rename.
  - apply dst_rename; auto.
    apply H; [apply Hiso; auto | apply Hiso; auto |].
    now apply equipotential_rename.
Qed.

(** The answer on a component does not depend on the node numbers. *)
Lemma component_accepted_rename :
  component_accepted G <-> component_accepted G'.
Proof.
  unfold component_accepted.
  rewrite trivial_rename, separates_rename, by_potential_rename.
  reflexivity.
Qed.

End Isomorphic.

(** ** The components *)

Definition mutually_reachable (G : graph) (u v : node) : Prop :=
  (exists w, walk G u w v) /\ (exists w, walk G v w u).

(** [nx.strongly_connected_components]: the classes of mutual
    reachability among the nodes of the graph. *)
Definition scc_contract (G : graph) (sccs : list (list node)) : Prop :=
  pairwise_disjoint sccs
  /\ (forall c u, In c sccs -> In u c -> In u (nodes G))
  /\ (forall u, In u (nodes G) -> exists c, In c sccs /\ In u c)
  /\ (forall c u v, In c sccs -> In u c -> In v (nodes G) ->
        (In v c <-> mutually_reachable G u v)).

Lemma inside_In (c : list node) (u v : node) :
  inside c u v = true <-> In u c /\ In v c.
Proof. unfold inside. now rewrite andb_true_iff, !shown_In. Qed.

Section Components.
Variable G : graph.
Variable sccs : list (list node).
Hypothesis Hwf : wf_graph G = true.
Hypothesis Hscc : scc_contract G sccs.

Lemma walk_inside (c : list node) (a v : node) (w : list hop) :
  In c sccs ->
  walk G a w v ->
  In a c -> (exists back, walk G v back a) ->
  walk (induced (mkView G c)) a w v.
Proof.
  intros Hc. induction 1 as [a|a x b l key es He Hw IH]; intros Ha Hback;
    [constructor|].
  destruct Hback as (back & Hback).
  destruct Hscc as (_ & Hnodes & _ & Hclass).
  assert (Hx : In x c).
  { apply (Hclass c a x Hc Ha).
    - exact (proj2 (edge_ends G _ Hwf He)).
    - split.
      + exists [(a, x, l)]. econstructor; [exact He | constructor].
      + exists (es ++ back). eapply walk_app; eauto. }
  apply (walk_cons _ a x b l key).
  - apply edges_induced. split; [exact He|]. apply inside_In. auto.
  - apply IH; [assumption|]. exists (back ++ [(a, x, l)]).
    eapply walk_app; [exact Hback|].
    econstructor; [exact He | constructor].
Qed.

Lemma component_connected (c : list node) :
  In c sccs -> strongly_connected (induced (mkView G c)).
Proof.
  intros Hc u v Hu Hv. rewrite nodes_induced in Hu, Hv.
  apply filter_In in Hu as [Hu Huc]. apply filter_In in Hv as [Hv Hvc].
  simpl in *. apply shown_In in Huc, Hvc.
  destruct Hscc as (_ & _ & _ & Hclass).
  destruct (proj1 (Hclass c u v Hc Huc Hv) Hvc) as [(w & Hw) Hback].
  exists w. now apply walk_inside.
Qed.

Lemma component_symbols (c : list node) :
  symbol_labelled G -> symbol_labelled (induced (mkView G c)).
Proof.
  intros Hsym e He. apply edges_induced in He as [He _]. now apply Hsym.
Qed.

End Components.

(** ** Components of two graphs that differ by the node numbers *)

(** Every node of the graph is an end of one of its edges, as in a graph
    built by [add_edge] alone. *)
Definition covered (G : graph) : Prop :=
  forall u, In u (nodes G) ->
    exists e, In e (edges G) /\ (src e = u \/ dst e = u).

Lemma component_accepted_no_edges (G : graph) :
  (forall e, ~ In e (edges G)) -> component_accepted G.
Proof.
  intros H. left. split.
  - intros psi _ e He. now apply H in He.
  - intros e1 e2 He. now apply H in He.
Qed.

Section Matching.
Variable g : node -> node.
Variables G1 G2 : graph.
Variables sccs1 sccs2 : list (list node).
Hypothesis Hwf1 : wf_graph G1 = true.
Hypothesis Hwf2 : wf_graph G2 = true.
Hypothesis Hcov1 : covered G1.
Hypothesis Hcov2 : covered G2.
Hypothesis Hiso : graph_iso g G1 G2.
Hypothesis Hscc1 : scc_contract G1 sccs1.
Hypothesis Hscc2 : scc_contract G2 sccs2.

Lemma nodes_rename (u : node) : In u (nodes G1) -> In (g u) (nodes G2).
Proof.
  intros Hu. destruct (Hcov1 u Hu) as (e & He & Hend).
  pose proof (proj1 (proj2 Hiso) e He) as He'.
  destruct (edge_ends G2 _ Hwf2 He') as [Hs Hd]. simpl in Hs, Hd.
  destruct Hend as [<-|<-]; assumption.
Qed.

Lemma nodes_rename_back (u' : node) :
  In u' (nodes G2) -> exists u, In u (nodes G1) /\ u' = g u.
Proof.
  intros Hu. destruct (Hcov2 u' Hu) as (e' & He' & Hend).
  destruct (proj2 (proj2 Hiso) e' He') as (e & He & ->).
  destruct (edge_ends G1 _ Hwf1 He) as [Hs Hd].
  destruct Hend as [<-|<-]; simpl; eauto.
Qed.

Lemma reachable_rename (u v : node) :
  In u (nodes G1) -> In v (nodes G1) ->
  (mutually_reachable G1 u v <-> mutually_reachable G2 (g u) (g v)).
Proof.
  intros Hu Hv. unfold mutually_reachable. split.
  - intros [(w1 & H1) (w2 & H2)]. split; eexists;
      eapply (walk_rename g G1 G2 Hiso); eauto.
  - intros [(w1 & H1) (w2 & H2)].
    destruct (walk_rename_back g G1 G2 Hwf1 Hiso _ _ _ Hu H1)
      as (v1 & b1 & Hb1 & E1 & _ & Hv1).
    destruct (walk_rename_back g G1 G2 Hwf1 Hiso _ _ _ Hv H2)
      as (v2 & b2 & Hb2 & E2 & _ & Hv2).
    apply (proj1 Hiso) in E1; auto. apply (proj1 Hiso) in E2; auto.
    subst b1 b2. split; eauto.
Qed.

(** Two components that share a node, up to the renaming, show
    isomorphic graphs. *)
Lemma component_iso (c c' : list node) (u : node) :
  In c sccs1 -> In c' sccs2 -> In u c -> In (g u) c' ->
  graph_iso g (induced (mkView G1 c)) (induced (mkView G2 c')).
Proof.
  intros Hc Hc' Hu Hu'.
  destruct Hscc1 as (_ & Hin1 & _ & Hclass1).
  destruct Hscc2 as (_ & Hin2 & _ & Hclass2).
  pose proof (Hin1 c u Hc Hu) as Hun.
  assert (Hsame : forall v, In v (nodes G1) -> (In v c <-> In (g v) c')).
  { intros v Hv.
    rewrite (Hclass1 c u v Hc Hu Hv).
    rewrite (Hclass2 c' (g u) (g v) Hc' Hu' (nodes_rename v Hv)).
    now apply reachable_rename. }
  split; [|split].
  - intros a b Ha Hb. rewrite nodes_induced in Ha, Hb.
    apply filter_In in Ha as [Ha _]. apply filter_In in Hb as [Hb _].
    now apply (proj1 Hiso).
  - intros e He. apply edges_induced in He as [He Hins]. simpl in *.
    apply inside_In in Hins as [Hs Hd].
    destruct (edge_ends G1 _ Hwf1 He) as [Hsn Hdn].
    apply edges_induced. split; [now apply Hiso|].
    apply inside_In. simpl. split; now apply Hsame.
  - intros e' He'. apply edges_induced in He' as [He' Hins]. simpl in *.
    destruct (proj2 (proj2 Hiso) e' He') as (e & He & ->).
    apply inside_In in Hins as [Hs Hd]. simpl in Hs, Hd.
    destruct (edge_ends G1 _ Hwf1 He) as [Hsn Hdn].
    exists e. split; [|reflexivity].
    apply edges_induced. split; [exact He|].
    apply inside_In. simpl. split; now apply Hsame.
Qed.

Lemma no_edges_inside_nothing (G : graph) (e : edge) :
  ~ In e (edges (induced (mkView G []))).
Proof.
  intros He. apply edges_induced in He as [_ Hins]. discriminate.
Qed.

(** All components of one graph are accepted exactly when all components
    of the other are. *)
Lemma components_accepted_rename :
  (forall c, In c sccs1 -> component_accepted (induced (mkView G1 c)))
  <-> (forall c', In c' sccs2 -> component_accepted (induced (mkView G2 c'))).
Proof.
  split.
  - intros H c' Hc'. destruct (nil_or_member c') as [->|(u' & Hu')].
    + apply component_accepted_no_edges, no_edges_inside_nothing.
    + destruct (nodes_rename_back u') as (u & Hu & ->).
      { destruct Hscc2 as (_ & Hin2 & _). eauto. }
      destruct Hscc1 as (_ & _ & Hcover & _).
      destruct (Hcover u Hu) as (c & Hc & Huc).
      apply (component_accepted_rename g (induced (mkView G1 c)) _
               (wf_induced (mkView G1 c) Hwf1)
               (component_iso c c' u Hc Hc' Huc Hu')).
      now apply H.
  - intros H c Hc. destruct (nil_or_member c) as [->|(u & Hu)].
    + apply component_accepted_no_edges, no_edges_inside_nothing.
    + destruct Hscc1 as (_ & Hin1 & _).
      pose proof (nodes_rename u (Hin1 c u Hc Hu)) as Hu'.
      destruct Hscc2 as (_ & _ & Hcover & _).
      destruct (Hcover _ Hu') as (c' & Hc' & Huc').
      apply (component_accepted_rename g _ (induced (mkView G2 c'))
               (wf_induced (mkView G1 c) Hwf1)
               (component_iso c c' u Hc Hc' Hu Huc')).
      now apply H.
Qed.

End Matching.

(** ** The decision on a transition graph *)

Lemma conjunction_results {A} (P : A -> Prop) (f : A -> outcome bool)
  (l : list A) :
  (forall x, In x l -> exists b, f x = Returns b /\ (b = true <-> P x)) ->
  exists b, conjunction (map f l) = Returns b
            /\ (b = true <-> forall x, In x l -> P x).
Proof.
  induction l as [|x l IH]; intros H.
  - exists true. simpl. split; [reflexivity|]. split; [intros _ y []|auto].
  - destruct (H x) as (b & Hb & HP); [simpl; auto|].
    destruct IH as (b' & Hb' & HP'); [intros; apply H; simpl; auto|].
    cbn [map conjunction]. rewrite Hb. destruct b.
    + exists b'. split; [assumption|]. rewrite HP'. split.
      * intros Hl y [<-|Hy]; [now apply HP | auto].
      * intros Hl y Hy. apply Hl. simpl; auto.
    + exists false. split; [reflexivity|]. split; [discriminate|].
      intros Hl. apply HP, Hl. simpl; auto.
Qed.

Section Decision.
Variable simple_cycles : adjacency -> list (node * list node).
Variable shortest_path : adjacency -> node -> node -> option (list node).
Variable strongly_connected_components : adjacency -> list (list node).
Variable nullspace : list (list Z) -> list vec.
Variable set_order : list label -> list label.

Hypothesis set_order_spec :
  forall l, NoDup (set_order l) /\ forall x, In x (set_order l) <-> In x l.
Hypothesis nullspace_empty : nullspace [] = [].
Hypothesis nullspace_width :
  forall row M n, In n (nullspace (row :: M)) ->
    List.length n = List.length row.

(** The libraries keep their contracts on the graph and its components. *)
Definition libraries_contract (G : graph) : Prop :=
  scc_contract G (strongly_connected_components (adj G))
  /\ forall c, In c (strongly_connected_components (adj G)) ->
       cycles_contract simple_cycles (induced (mkView G c))
       /\ paths_contract shortest_path (induced (mkView G c))
       /\ kernel_contract simple_cycles nullspace set_order
                          (induced (mkView G c)).

Lemma decide_graph (fuel : nat) (G : graph) :
  wf_graph G = true -> symbol_labelled G -> libraries_contract G ->
  3 <= fuel ->
  exists b,
    snd (decide_loop simple_cycles shortest_path nullspace set_order fuel G
                     (strongly_connected_components (adj G)))
    = Returns b
    /\ (b = true <->
        forall c, In c (strongly_connected_components (adj G)) ->
          component_accepted (induced (mkView G c))).
Proof.
  intros Hwf Hsym [Hscc Hlib] Hfuel.
  rewrite (decide_loop_conjunction simple_cycles shortest_path nullspace
             set_order fuel G _ G (proj1 Hscc)) by reflexivity.
  apply conjunction_results. intros c Hc.
  destruct (Hlib c Hc) as (Hcyc & Hpath & Hker).
  unfold scc_result.
  apply (attack_scc_component simple_cycles shortest_path nullspace set_order
           set_order_spec nullspace_empty nullspace_width (mkView G c) fuel);
    auto.
  - now apply component_symbols.
  - eapply component_connected; eauto.
Qed.

(** Two transition graphs that differ by the node numbers get the same
    answer. *)
Lemma decide_graph_rename (fuel : nat) (g : node -> node) (G1 G2 : graph) :
  wf_graph G1 = true -> wf_graph G2 = true ->
  symbol_labelled G1 -> symbol_labelled G2 ->
  covered G1 -> covered G2 ->
  graph_iso g G1 G2 ->
  libraries_contract G1 -> libraries_contract G2 ->
  3 <= fuel ->
  exists b,
    snd (decide_loop simple_cycles shortest_path nullspace set_order fuel G1
                     (strongly_connected_components (adj G1)))
    = Returns b
    /\ snd (decide_loop simple_cycles shortest_path nullspace set_order fuel
                        G2 (strongly_connected_components (adj G2)))
       = Returns b.
Proof.
  intros Hwf1 Hwf2 Hsym1 Hsym2 Hcov1 Hcov2 Hiso Hlib1 Hlib2 Hfuel.
  destruct (decide_graph fuel G1 Hwf1 Hsym1 Hlib1 Hfuel) as (b1 & Hb1 & H1).
  destruct (decide_graph fuel G2 Hwf2 Hsym2 Hlib2 Hfuel) as (b2 & Hb2 & H2).
  exists b1. split; [assumption|]. rewrite Hb2. f_equal. symmetry.
  pose proof (components_accepted_rename g G1 G2 _ _ Hwf1 Hwf2 Hcov1 Hcov2
                Hiso (proj1 Hlib1) (proj1 Hlib2)) as Hsame.
  destruct b1, b2; try reflexivity.
  - assert (E : false = true); [|discriminate E].
    apply (proj2 H2), (proj1 Hsame), (proj1 H1). reflexivity.
  - apply (proj2 H1), (proj2 Hsame), (proj1 H2). reflexivity.
Qed.

End Decision.

(** ** The graph that [automata_to_graph] builds *)

Section DictSet.
Context {K V : Type} (eqb : K -> K -> bool).
Hypothesis eqb_iff : forall a b, eqb a b = true <-> a = b.

Lemma dict_set_In_new (d : list (K * V)) (k : K) (v : V) :
  In (k, v) (dict_set eqb d k v).
Proof.
  induction d as [|[k0 v0] d IH]; simpl; [auto|].
  destruct (eqb k0 k) eqn:E; simpl; [|auto].
  apply eqb_iff in E. subst. auto.
Qed.

Lemma dict_set_In_old (d : list (K * V)) (k k' : K) (v v' : V) :
  k' <> k -> In (k', v') d -> In (k', v') (dict_set eqb d k v).
Proof.
  intros Hne. induction d as [|[k0 v0] d IH]; simpl; [tauto|].
  intros [[= -> ->]|H].
  - destruct (eqb k' k) eqn:E; [apply eqb_iff in E; contradiction|].
    simpl; auto.
  - destruct (eqb k0 k); simpl; auto.
Qed.

Lemma dict_set_In (d : list (K * V)) (k : K) (v : V) (x : K * V) :
  In x (dict_set eqb d k v) -> x = (k, v) \/ In x d.
Proof.
  induction d as [|[k0 v0] d IH]; simpl.
  - intros [<-|[]]. auto.
  - destruct (eqb k0 k) eqn:E; simpl.
    + apply eqb_iff in E. subst. intros [<-|H]; auto.
    + intros [<-|H]; auto. destruct (IH H); auto.
Qed.

Lemma dict_set_keys_In (d : list (K * V)) (k k' : K) (v : V) :
  In k' (map fst (dict_set eqb d k v)) <-> k' = k \/ In k' (map fst d).
Proof.
  induction d as [|[k0 v0] d IH]; simpl.
  - intuition.
  - destruct (eqb k0 k) eqn:E; simpl.
    + apply eqb_iff in E. subst. intuition.
    + rewrite IH. intuition.
Qed.

Lemma dict_set_NoDup (d : list (K * V)) (k : K) (v : V) :
  NoDup (map fst d) -> NoDup (map fst (dict_set eqb d k v)).
Proof.
  induction d as [|[k0 v0] d IH]; simpl; intros Hnd.
  - constructor; [tauto | constructor].
  - inversion Hnd as [|? ? Hnot Hrest]; subst.
    destruct (eqb k0 k) eqn:E; simpl.
    + constructor; assumption.
    + constructor; [|auto]. rewrite dict_set_keys_In. intros [->|H].
      * rewrite (proj2 (eqb_iff k k) eq_refl) in E. discriminate.
      * contradiction.
Qed.

End DictSet.

Lemma add_node_nodes (G : graph) (n x : node) :
  In x (nodes (add_node G n)) <-> x = n \/ In x (nodes G).
Proof.
  unfold add_node, dict_mem.
  destruct (dict_get Nat.eqb G n) as [nb|] eqn:E.
  - split; [auto|]. intros [->|H]; [|assumption].
    apply (dict_get_In _ nat_eqb_iff) in E.
    apply in_map_iff. exists (n, nb). auto.
  - unfold nodes. rewrite map_app, in_app_iff. simpl. intuition.
Qed.

Lemma add_node_edges (G : graph) (n : node) :
  edges (add_node G n) = edges G.
Proof.
  unfold add_node. destruct (dict_mem Nat.eqb G n); [reflexivity|].
  unfold edges. rewrite flat_map_app. simpl. now rewrite app_nil_r.
Qed.

Lemma add_node_wf (G : graph) (n : node) :
  wf_graph G = true -> wf_graph (add_node G n) = true.
Proof.
  intros Hwf. unfold add_node, dict_mem.
  destruct (dict_get Nat.eqb G n) as [nb|] eqn:E; [assumption|].
  apply (dict_get_None _ nat_eqb_iff) in E.
  apply wf_graph_iff in Hwf as [Hnd H]. apply wf_graph_iff.
  unfold nodes in *. rewrite map_app. simpl. split.
  - apply NoDup_app; [assumption | constructor; [tauto | constructor] |].
    intros x Hx [<-|[]]. contradiction.
  - intros u nb Hin. apply in_app_or in Hin as [Hin|[[= <- <-]|[]]].
    + destruct (H u nb Hin) as [Hk Hv]. split; [assumption|].
      intros v kd Hvk. destruct (Hv v kd Hvk) as [Hvn Hkk].
      split; [|assumption]. apply in_or_app. auto.
    + split; [constructor | intros v kd []].
Qed.

Lemma add_node_In (G : graph) (n u : node) (nb : nbrdict) :
  In (u, nb) (add_node G n) -> In (u, nb) G \/ nb = [].
Proof.
  unfold add_node. destruct (dict_mem Nat.eqb G n); [auto|].
  intros H. apply in_app_or in H as [H|[[= <- <-]|[]]]; auto.
Qed.

Lemma dict_get_member {V} (d : list (node * V)) (k : node) :
  In k (map fst d) -> exists v, dict_get Nat.eqb d k = Some v.
Proof.
  intros H. destruct (dict_get Nat.eqb d k) as [v|] eqn:E; [eauto|].
  apply (dict_get_None _ nat_eqb_iff) in E. contradiction.
Qed.

(** The key dictionary that [add_edge] stores for [(u, v)]. *)
Definition added_keys (nb : nbrdict) (v : node) (key : symbol) (lbl : label)
  : keydict :=
  match dict_get Nat.eqb nb v with
  | Some kd => dict_set String.eqb kd key lbl
  | None => [(key, lbl)]
  end.

Lemma add_edge_unfold (G : graph) (u v : node) (key : symbol) (lbl : label)
  (nb : nbrdict) :
  dict_get Nat.eqb (add_node (add_node G u) v) u = Some nb ->
  add_edge G u v key lbl
  = dict_set Nat.eqb (add_node (add_node G u) v) u
             (dict_set Nat.eqb nb v (added_keys nb v key lbl)).
Proof. intros E. unfold add_edge, added_keys. now rewrite E. Qed.

Section AddEdge.
Variable G : graph.
Variables u v : node.
Variable key : symbol.
Hypothesis Hwf : wf_graph G = true.
Hypothesis Hsym : symbol_labelled G.

Lemma add_edge_source :
  exists nb,
    dict_get Nat.eqb (add_node (add_node G u) v) u = Some nb
    /\ In (u, nb) (add_node (add_node G u) v).
Proof.
  destruct (dict_get_member (add_node (add_node G u) v) u) as (nb & E).
  - apply add_node_nodes. right. apply add_node_nodes. auto.
  - exists nb. split; [assumption|].
    now apply (dict_get_In _ nat_eqb_iff).
Qed.

Lemma add_edge_nodes (x : node) :
  In x (nodes (add_edge G u v key (Sym key)))
  <-> x = u \/ x = v \/ In x (nodes G).
Proof.
  destruct add_edge_source as (nb & E & _).
  rewrite (add_edge_unfold _ _ _ _ _ _ E). unfold nodes at 1.
  rewrite (dict_set_keys _ _ _ _ _ E).
  change (map fst (add_node (add_node G u) v))
    with (nodes (add_node (add_node G u) v)).
  rewrite !add_node_nodes. tauto.
Qed.

Lemma add_edge_wf : wf_graph (add_edge G u v key (Sym key)) = true.
Proof.
  destruct add_edge_source as (nb & E & Hin).
  rewrite (add_edge_unfold _ _ _ _ _ _ E).
  pose proof (add_node_wf _ v (add_node_wf _ u Hwf)) as Hwf1.
  apply wf_graph_iff in Hwf1 as [Hnd H]. apply wf_graph_iff.
  unfold nodes in *. rewrite (dict_set_keys _ _ _ _ _ E).
  split; [assumption|]. intros a nb' Ha.
  apply (dict_set_In _ nat_eqb_iff) in Ha as [[= -> ->]|Ha]; [|exact (H a nb' Ha)].
  destruct (H u nb Hin) as [Hk Hv]. split.
  - now apply (dict_set_NoDup _ nat_eqb_iff).
  - intros b kd Hb. apply (dict_set_In _ nat_eqb_iff) in Hb as [[= -> ->]|Hb];
      [|exact (Hv b kd Hb)].
    split.
    + apply (add_node_nodes (add_node G u) v). auto.
    + unfold added_keys. destruct (dict_get Nat.eqb nb v) as [kd0|] eqn:Ev.
      * apply (dict_set_NoDup _ string_eqb_iff).
        apply (dict_get_In _ nat_eqb_iff) in Ev. now apply (Hv v kd0).
      * constructor; [simpl; tauto | constructor].
Qed.

Lemma add_edge_edges (e : edge) :
  In e (edges (add_edge G u v key (Sym key)))
  <-> e = mkEdge u v key (Sym key) \/ In e (edges G).
Proof.
  destruct add_edge_source as (nb & E & Hin).
  rewrite (add_edge_unfold _ _ _ _ _ _ E).
  pose proof (add_node_wf _ v (add_node_wf _ u Hwf)) as Hwf1.
  apply wf_graph_iff in Hwf1 as [Hnd H].
  rewrite <- (add_node_edges G u), <- (add_node_edges (add_node G u) v).
  destruct e as [a b k l]. rewrite !in_edges. split.
  - intros (nb' & kd & Ha & Hb & Hk).
    apply (dict_set_In _ nat_eqb_iff) in Ha as [[= -> ->]|Ha]; [|right; eauto].
    apply (dict_set_In _ nat_eqb_iff) in Hb as [[= -> ->]|Hb]; [|right; eauto].
    unfold added_keys in Hk.
    destruct (dict_get Nat.eqb nb v) as [kd0|] eqn:Ev.
    + apply (dict_set_In _ string_eqb_iff) in Hk as [[= -> ->]|Hk]; [now left|].
      right. apply (dict_get_In _ nat_eqb_iff) in Ev. eauto.
    + destruct Hk as [[= -> ->]|[]]. now left.
  - intros [[= -> -> -> ->]|(nb' & kd & Ha & Hb & Hk)].
    + exists (dict_set Nat.eqb nb v (added_keys nb v key (Sym key))),
             (added_keys nb v key (Sym key)).
      split; [apply (dict_set_In_new _ nat_eqb_iff)|].
      split; [apply (dict_set_In_new _ nat_eqb_iff)|].
      unfold added_keys. destruct (dict_get Nat.eqb nb v);
        [apply (dict_set_In_new _ string_eqb_iff) | simpl; auto].
    + assert (Hl : l = Sym k).
      { apply (Hsym (mkEdge a b k l)).
        rewrite <- (add_node_edges G u), <- (add_node_edges (add_node G u) v).
        apply in_edges. eauto. }
      destruct (Nat.eq_dec a u) as [->|Hau].
      2:{ exists nb', kd. split; [|auto].
          now apply (dict_set_In_old _ nat_eqb_iff). }
      assert (nb' = nb).
      { pose proof (In_dict_get _ nat_eqb_iff _ _ _ Hnd Ha) as E'.
        congruence. }
      subst nb'. destruct (H u nb Hin) as [Hk1 Hv].
      destruct (Nat.eq_dec b v) as [->|Hbv].
      2:{ exists (dict_set Nat.eqb nb v (added_keys nb v key (Sym key))), kd.
          split; [apply (dict_set_In_new _ nat_eqb_iff)|].
          split; [|assumption].
          now apply (dict_set_In_old _ nat_eqb_iff). }
      exists (dict_set Nat.eqb nb v (added_keys nb v key (Sym key))),
             (added_keys nb v key (Sym key)).
      split; [apply (dict_set_In_new _ nat_eqb_iff)|].
      split; [apply (dict_set_In_new _ nat_eqb_iff)|].
      unfold added_keys.
      rewrite (In_dict_get _ nat_eqb_iff _ _ _ Hk1 Hb).
      destruct (string_dec k key) as [->|Hkk].
      * subst l. apply (dict_set_In_new _ string_eqb_iff).
      * now apply (dict_set_In_old _ string_eqb_iff).
Qed.

Lemma add_edge_symbols : symbol_labelled (add_edge G u v key (Sym key)).
Proof.
  intros e He. apply add_edge_edges in He as [->|He]; [reflexivity|].
  now apply Hsym.
Qed.

Lemma add_edge_covered :
  covered G -> covered (add_edge G u v key (Sym key)).
Proof.
  intros Hcov x Hx. apply add_edge_nodes in Hx as [->|[->|Hx]].
  - exists (mkEdge u v key (Sym key)). split; [|simpl; auto].
    apply add_edge_edges. auto.
  - exists (mkEdge u v key (Sym key)). split; [|simpl; auto].
    apply add_edge_edges. auto.
  - destruct (Hcov x Hx) as (e & He & Hend). exists e.
    split; [|assumption]. apply add_edge_edges. auto.
Qed.

End AddEdge.

Lemma lookup_or_Returns {A} (e : exn) (o : option A) (a : A) :
  lookup_or e o = Returns a -> o = Some a.
Proof. destruct o; simpl; congruence. Qed.

(** An invariant that follows the part of the list already folded. *)
Lemma foldM_prefix_from {A S} (P : list A -> S -> Prop)
  (body : S -> A -> outcome S) (xs : list A) :
  forall (pre : list A) (acc r : S),
    P pre acc ->
    (forall pre' x acc acc', In x xs -> P pre' acc ->
       body acc x = Returns acc' -> P (pre' ++ [x]) acc') ->
    foldM body xs acc = Returns r ->
    P (pre ++ xs) r.
Proof.
  induction xs as [|y ys IH]; intros pre acc r Hpre Hstep Hrun;
    simpl in Hrun.
  - injection Hrun as <-. now rewrite app_nil_r.
  - apply bind_Returns in Hrun as (acc' & Hb & Hrest).
    change (y :: ys) with ([y] ++ ys). rewrite app_assoc.
    apply (IH (pre ++ [y]) acc' r).
    + apply (Hstep pre y acc acc'); simpl; auto.
    + intros pre' x a a' Hx. apply Hstep. simpl; auto.
    + exact Hrest.
Qed.

Lemma foldM_prefix {A S} (P : list A -> S -> Prop)
  (body : S -> A -> outcome S) (xs : list A) (acc0 r : S) :
  P [] acc0 ->
  (forall pre x acc acc', In x xs -> P pre acc ->
     body acc x = Returns acc' -> P (pre ++ [x]) acc') ->
  foldM body xs acc0 = Returns r ->
  P xs r.
Proof. intros H0 Hstep Hrun. exact (foldM_prefix_from P body xs [] _ _ H0 Hstep Hrun). Qed.

(** The node of a state: its place in [list(states)]. *)
Definition state_index (D : DFA) (q : state) : option node :=
  dict_get String.eqb (build_state_mapping (states D) 0 []) q.

(** [transitions[q][sym] = t] *)
Definition delta (D : DFA) (q : state) (sym : symbol) (t : state) : Prop :=
  exists row, dict_get String.eqb (transitions D) q = Some row
              /\ In (sym, t) row.

(** The edge that [automata_to_graph] adds for a transition. *)
Definition edge_of (D : DFA) (q : state) (sym : symbol) (t : state)
  (e : edge) : Prop :=
  exists u v, state_index D q = Some u /\ state_index D t = Some v
              /\ e = mkEdge u v sym (Sym sym).

Definition built (G : graph) : Prop :=
  wf_graph G = true /\ symbol_labelled G /\ covered G.

Lemma built_empty : built [].
Proof.
  split; [reflexivity|]. split; [intros e []|intros u []].
Qed.

Lemma built_add_edge (G : graph) (u v : node) (key : symbol) :
  built G -> built (add_edge G u v key (Sym key)).
Proof.
  intros (Hwf & Hsym & Hcov). split; [|split].
  - now apply add_edge_wf.
  - now apply add_edge_symbols.
  - now apply add_edge_covered.
Qed.

Section Builder.
Variable D : DFA.

(** The transitions of one state. *)
Lemma add_row (q : state) (row : list (symbol * state)) (G0 G : graph) :
  built G0 ->
  foldM (fun G '(sym, target) =>
           u <- lookup_or KeyError (state_index D q) ;;
           v <- lookup_or KeyError (state_index D target) ;;
           Returns (add_edge G u v sym (Sym sym)))
        row G0 = Returns G ->
  built G
  /\ (forall e, In e (edges G) <->
        In e (edges G0)
        \/ exists sym t, In (sym, t) row /\ edge_of D q sym t e)
  /\ (forall sym t, In (sym, t) row -> exists e, edge_of D q sym t e).
Proof.
  intros H0.
  apply (foldM_prefix
           (fun pre G =>
              built G
              /\ (forall e, In e (edges G) <->
                    In e (edges G0)
                    \/ exists sym t, In (sym, t) pre /\ edge_of D q sym t e)
              /\ (forall sym t, In (sym, t) pre ->
                    exists e, edge_of D q sym t e))).
  - split; [assumption|]. split.
    + intros e. split; [auto|]. intros [H|(sym & t & [] & _)]. exact H.
    + intros sym t [].
  - intros pre [sym t] acc acc' _ (Hb & He & Hl) Hbody.
    apply bind_Returns in Hbody as (u & Hu & Hbody).
    apply bind_Returns in Hbody as (v & Hv & [= <-]).
    apply lookup_or_Returns in Hu, Hv.
    assert (Hedge : edge_of D q sym t (mkEdge u v sym (Sym sym)))
      by (exists u, v; auto).
    split; [now apply built_add_edge|]. split.
    + intros e. destruct Hb as (Hwf & Hsym & _).
      rewrite (add_edge_edges acc u v sym Hwf Hsym e), He. split.
      * intros [->|[H|(sym' & t' & Hin & Hof)]]; [|auto|].
        -- right. exists sym, t. split; [|assumption].
           apply in_or_app. simpl; auto.
        -- right. exists sym', t'. split; [|assumption].
           apply in_or_app. auto.
      * intros [H|(sym' & t' & Hin & Hof)]; [auto|].
        apply in_app_or in Hin as [Hin|[[= <- <-]|[]]].
        -- right. right. eauto.
        -- left. destruct Hof as (u' & v' & Hu' & Hv' & ->). congruence.
    + intros sym' t' Hin. apply in_app_or in Hin as [Hin|[[= <- <-]|[]]];
        eauto.
Qed.

(** The graph of the automaton: one edge for each transition of each
    state, between the nodes of the two states and labelled by the
    symbol. *)
Lemma automata_to_graph_spec (G : graph) :
  automata_to_graph D = Returns G ->
  built G
  /\ (forall e, In e (edges G) <->
        exists q sym t, In q (states D) /\ delta D q sym t
                        /\ edge_of D q sym t e)
  /\ (forall q sym t, In q (states D) -> delta D q sym t ->
        exists e, edge_of D q sym t e).
Proof.
  unfold automata_to_graph.
  apply (foldM_prefix
           (fun pre G =>
              built G
              /\ (forall e, In e (edges G) <->
                    exists q sym t, In q pre /\ delta D q sym t
                                    /\ edge_of D q sym t e)
              /\ (forall q sym t, In q pre -> delta D q sym t ->
                    exists e, edge_of D q sym t e))).
  - split; [apply built_empty|]. split.
    + intros e. split; [intros [] | intros (q & _ & _ & [] & _)].
    + intros q sym t [].
  - intros pre q acc acc' _ (Hb & He & Hl) Hbody.
    apply bind_Returns in Hbody as (row & Hrow & Hinner).
    apply lookup_or_Returns in Hrow.
    apply (add_row q row acc acc' Hb) in Hinner as (Hb' & He' & Hl').
    split; [assumption|]. split.
    + intros e. rewrite He', He. split.
      * intros [(q' & sym & t & Hq & Hd & Hof)|(sym & t & Hin & Hof)].
        -- exists q', sym, t. split; [apply in_or_app; auto | auto].
        -- exists q, sym, t. split; [apply in_or_app; simpl; auto|].
           split; [exists row; auto | assumption].
      * intros (q' & sym & t & Hq & Hd & Hof).
        apply in_app_or in Hq as [Hq|[<-|[]]].
        -- left. eauto 8.
        -- right. destruct Hd as (row' & Hrow' & Hin).
           assert (row' = row) by congruence. subst row'. eauto.
    + intros q' sym t Hq Hd. apply in_app_or in Hq as [Hq|[<-|[]]].
      * eauto.
      * destruct Hd as (row' & Hrow' & Hin).
        assert (row' = row) by congruence. subst row'. eauto.
Qed.

End Builder.

(** *** The numbering of the states *)

Lemma state_mapping_spec (l : list state) :
  NoDup l ->
  forall (i : nat) (m : list (state * node)) (q : state),
    (forall j, nth_error l j = Some q ->
       dict_get String.eqb (build_state_mapping l i m) q = Some (i + j))
    /\ (~ In q l ->
        dict_get String.eqb (build_state_mapping l i m) q
        = dict_get String.eqb m q).
Proof.
  induction 1 as [|x l Hx _ IH]; intros i m q; cbn [build_state_mapping].
  - split; [intros [|j]; discriminate | reflexivity].
  - destruct (IH (S i) (dict_set String.eqb m x i) q) as [IH1 IH2]. split.
    + intros [|j] Hj; simpl in Hj.
      * injection Hj as ->. rewrite IH2 by assumption.
        rewrite (dict_get_set _ string_eqb_iff), String.eqb_refl.
        f_equal. lia.
      * rewrite (IH1 j Hj). f_equal. lia.
    + intros Hnot. rewrite IH2 by (intros H; apply Hnot; simpl; auto).
      rewrite (dict_get_set _ string_eqb_iff).
      destruct (String.eqb x q) eqn:E; [|reflexivity].
      apply String.eqb_eq in E. subst. exfalso. apply Hnot. simpl; auto.
Qed.

Lemma state_index_nth (D : DFA) (q : state) (u : node) :
  NoDup (states D) ->
  (state_index D q = Some u <-> nth_error (states D) u = Some q).
Proof.
  intros Hnd. unfold state_index.
  destruct (state_mapping_spec (states D) Hnd 0 [] q) as [H1 H2]. split.
  - intros H. destruct (in_dec string_dec q (states D)) as [Hin|Hnot].
    + apply In_nth_error in Hin as (j & Hj).
      rewrite (H1 j Hj) in H. injection H as <-. exact Hj.
    + rewrite (H2 Hnot) in H. discriminate.
  - intros H. now rewrite (H1 u H).
Qed.

Lemma state_index_total (D : DFA) (q : state) :
  NoDup (states D) -> In q (states D) -> exists u, state_index D q = Some u.
Proof.
  intros Hnd Hin. apply In_nth_error in Hin as (j & Hj).
  exists j. now apply state_index_nth.
Qed.

Lemma state_index_In (D : DFA) (q : state) (u : node) :
  NoDup (states D) -> state_index D q = Some u -> In q (states D).
Proof.
  intros Hnd H. apply state_index_nth in H; [|assumption].
  eapply nth_error_In; eauto.
Qed.

(** ** Renamed automata *)

(** [D2] is [D1] with every state [q] renamed [rho q]: the same states
    and the same transitions, listed in any order. *)
Definition renaming (rho : state -> state) (D1 D2 : DFA) : Prop :=
  NoDup (states D1) /\ NoDup (states D2)
  /\ (forall q1 q2, In q1 (states D1) -> In q2 (states D1) ->
        rho q1 = rho q2 -> q1 = q2)
  /\ (forall q', In q' (states D2) <->
        exists q, In q (states D1) /\ q' = rho q)
  /\ (forall q sym t', In q (states D1) ->
        (delta D2 (rho q) sym t' <->
         exists t, delta D1 q sym t /\ t' = rho t)).

(** The node of the renamed state, for the node of a state. *)
Definition renumber (rho : state -> state) (D1 D2 : DFA) (u : node) : node :=
  match nth_error (states D1) u with
  | Some q => match state_index D2 (rho q) with
              | Some u' => u'
              | None => u
              end
  | None => u
  end.

Section Renamed.
Variable rho : state -> state.
Variables D1 D2 : DFA.
Variables G1 G2 : graph.
Hypothesis Hren : renaming rho D1 D2.
Hypothesis HG1 : automata_to_graph D1 = Returns G1.
Hypothesis HG2 : automata_to_graph D2 = Returns G2.

Lemma renumber_index (q : state) (u : node) :
  state_index D1 q = Some u ->
  In q (states D1)
  /\ state_index D2 (rho q) = Some (renumber rho D1 D2 u).
Proof.
  destruct Hren as (Hnd1 & Hnd2 & _ & Hstates & _). intros Hu.
  pose proof (state_index_In D1 q u Hnd1 Hu) as Hq. split; [assumption|].
  apply (state_index_nth D1 q u Hnd1) in Hu. unfold renumber. rewrite Hu.
  destruct (state_index_total D2 (rho q) Hnd2) as (u' & ->); [|reflexivity].
  apply Hstates. eauto.
Qed.

Lemma node_state (u : node) :
  In u (nodes G1) -> exists q, state_index D1 q = Some u.
Proof.
  intros Hu.
  destruct (automata_to_graph_spec D1 G1 HG1) as ((_ & _ & Hcov) & He & _).
  destruct (Hcov u Hu) as (e & Hin & Hend).
  apply He in Hin as (q & sym & t & _ & _ & (a & b & Ha & Hb & ->)).
  simpl in Hend. destruct Hend as [<-|<-]; eauto.
Qed.

(** The renamed automaton has the same graph, up to the node numbers. *)
Lemma renaming_iso : graph_iso (renumber rho D1 D2) G1 G2.
Proof.
  destruct (automata_to_graph_spec D1 G1 HG1) as (_ & He1 & Hl1).
  destruct (automata_to_graph_spec D2 G2 HG2) as (_ & He2 & _).
  pose proof Hren as (Hnd1 & Hnd2 & Hinj & Hstates & Hdelta).
  split; [|split].
  - intros u v Hu Hv E.
    destruct (node_state u Hu) as (qu & Hqu).
    destruct (node_state v Hv) as (qv & Hqv).
    destruct (renumber_index qu u Hqu) as [Hinu Hu2].
    destruct (renumber_index qv v Hqv) as [Hinv Hv2].
    rewrite E in Hu2.
    apply (state_index_nth D2 _ _ Hnd2) in Hu2, Hv2.
    assert (qu = qv) by (apply Hinj; congruence). subst qv. congruence.
  - intros e He.
    apply He1 in He as (q & sym & t & Hq & Hd & (u & v & Hu & Hv & ->)).
    destruct (renumber_index q u Hu) as [_ Hu2].
    destruct (renumber_index t v Hv) as [_ Hv2].
    apply He2. exists (rho q), sym, (rho t). split; [|split].
    + apply Hstates. eauto.
    + apply Hdelta; eauto.
    + exists (renumber rho D1 D2 u), (renumber rho D1 D2 v). auto.
  - intros e' He'.
    apply He2 in He' as (q' & sym & t' & Hq' & Hd' & (u' & v' & Hu' & Hv' & ->)).
    apply Hstates in Hq' as (q & Hq & ->).
    apply Hdelta in Hd' as (t & Hd & ->); [|assumption].
    destruct (Hl1 q sym t Hq Hd) as (e & (u & v & Hu & Hv & ->)).
    destruct (renumber_index q u Hu) as [_ Hu2].
    destruct (renumber_index t v Hv) as [_ Hv2].
    exists (mkEdge u v sym (Sym sym)). split.
    + apply He1. exists q, sym, t. split; [assumption|].
      split; [assumption|]. exists u, v. auto.
    + unfold rename_edge. simpl. congruence.
Qed.

End Renamed.

Section RenamingInvariance.
Variable simple_cycles : adjacency -> list (node * list node).
Variable shortest_path : adjacency -> node -> node -> option (list node).
Variable strongly_connected_components : adjacency -> list (list node).
Variable nullspace : list (list Z) -> list vec.
Variable set_order : list label -> list label.

Hypothesis set_order_spec :
  forall l, NoDup (set_order l) /\ forall x, In x (set_order l) <-> In x l.
Hypothesis nullspace_empty : nullspace [] = [].
Hypothesis nullspace_width :
  forall row M n, In n (nullspace (row :: M)) ->
    List.length n = List.length row.

(** C8. Let [D2] be the automaton [D1] with its states renamed by [rho],
    states and transitions listed in any order.  When the libraries keep
    their contracts on the two transition graphs (networkx reports the
    classes of mutual reachability, every elementary circuit of a
    component and a path to every reachable node; sympy returns a basis
    of the kernel of the loop equations; a set lists each label once),
    [decide_CRASP_membership] returns a boolean on both automata, and the
    same one. *)
Theorem decide_renaming_invariant (fuel : nat) (rho : state -> state)
  (D1 D2 : DFA) (G1 G2 : graph) :
  renaming rho D1 D2 ->
  automata_to_graph D1 = Returns G1 ->
  automata_to_graph D2 = Returns G2 ->
  libraries_contract simple_cycles shortest_path
    strongly_connected_components nullspace set_order G1 ->
  libraries_contract simple_cycles shortest_path
    strongly_connected_components nullspace set_order G2 ->
  3 <= fuel ->
  exists b,
    decide_CRASP_membership simple_cycles shortest_path
      strongly_connected_components nullspace set_order fuel D1 = Returns b
    /\ decide_CRASP_membership simple_cycles shortest_path
         strongly_connected_components nullspace set_order fuel D2
       = Returns b.
Proof.
  intros Hren HG1 HG2 Hlib1 Hlib2 Hfuel.
  destruct (automata_to_graph_spec D1 G1 HG1)
    as ((Hwf1 & Hsym1 & Hcov1) & _).
  destruct (automata_to_graph_spec D2 G2 HG2)
    as ((Hwf2 & Hsym2 & Hcov2) & _).
  unfold decide_CRASP_membership. rewrite HG1, HG2. cbn [bind].
  apply (decide_graph_rename simple_cycles shortest_path
           strongly_connected_components nullspace set_order
           set_order_spec nullspace_empty nullspace_width
           fuel (renumber rho D1 D2)); auto.
  exact (renaming_iso rho D1 D2 G1 G2 Hren HG1 HG2).
Qed.

End RenamingInvariance.

(** ** A renamed automaton, run *)

(** *** The reference libraries keep the general contracts *)

Lemma distinct_spec (l : list label) :
  forall seen,
    NoDup (Ref.distinct seen l)
    /\ forall x, In x (Ref.distinct seen l) <->
         In x l /\ existsb (label_eqb x) seen = false.
Proof.
  induction l as [|y l IH]; intros seen; cbn [Ref.distinct].
  - split; [constructor | simpl; tauto].
  - destruct (existsb (label_eqb y) seen) eqn:E.
    + destruct (IH seen) as [Hnd Hin]. split; [assumption|].
      intros x. rewrite Hin. simpl. split; [tauto|].
      intros [[->|H] Hx]; [rewrite E in Hx; discriminate | auto].
    + destruct (IH (y :: seen)) as [Hnd Hin]. split.
      * constructor; [|assumption]. rewrite Hin. simpl.
        rewrite label_eqb_refl. intros [_ H]. discriminate.
      * intros x. simpl. rewrite Hin. simpl. rewrite orb_false_iff. split.
        -- intros [->|(Hl & _ & Hs)]; auto.
        -- intros [[->|Hl] Hs]; [auto|].
           destruct (label_eqb x y) eqn:Exy.
           ++ apply label_eqb_eq in Exy. auto.
           ++ right. repeat split; auto.
Qed.

Lemma ref_set_order_spec (l : list label) :
  NoDup (Ref.set_order l) /\ forall x, In x (Ref.set_order l) <-> In x l.
Proof.
  destruct (distinct_spec l []) as [Hnd Hin]. split; [assumption|].
  intros x. unfold Ref.set_order. rewrite Hin. simpl. tauto.
Qed.

Lemma set_entry_length (v : vec) (j : nat) (x : Qc) :
  List.length (Ref.set_entry v j x) = List.length v.
Proof.
  revert j. induction v as [|y v IH]; intros [|j]; simpl; auto.
Qed.

Lemma ref_nullspace_width (row : list Z) (M : list (list Z)) (n : vec) :
  In n (Ref.nullspace (row :: M)) -> List.length n = List.length row.
Proof.
  unfold Ref.nullspace. cbn [map]. rewrite length_map.
  destruct (Ref.rref _ _ _ _) as [reduced pivots].
  intros H. apply in_map_iff in H as (free & <- & _).
  generalize (combine reduced pivots) as steps.
  assert (H0 : List.length
                 (Ref.set_entry (repeat 0%Qc (List.length row)) free 1%Qc)
               = List.length row)
    by (now rewrite set_entry_length, repeat_length).
  revert H0.
  generalize (Ref.set_entry (repeat 0%Qc (List.length row)) free 1%Qc) as v.
  intros v Hv steps. revert v Hv.
  induction steps as [|[piv_row piv_col] steps IH]; intros v Hv;
    cbn [fold_left]; [assumption|].
  apply IH. now rewrite set_entry_length.
Qed.

(** *** Two states around a loop that reads a, b, and the same automaton
    with other state names, listed in the other order *)

(** The graph of a loop over two states: [0 -x-> 1 -y-> 0]. *)
Definition two_loop (x y : symbol) : graph :=
  [(0, [(1, [(x, Sym x)])]); (1, [(0, [(y, Sym y)])])].

Section TwoLoop.
Variables x y : symbol.

Lemma two_loop_arc (u v : node) :
  arc (two_loop x y) u v -> (u = 0 /\ v = 1) \/ (u = 1 /\ v = 0).
Proof.
  intros (key & l & [H|[H|[]]]); injection H as <- <- _ _; auto.
Qed.

Lemma two_loop_walks (u v : node) :
  In u [0; 1] -> In v [0; 1] -> exists w, walk (two_loop x y) u w v.
Proof.
  assert (H01 : walk (two_loop x y) 0 [(0, 1, Sym x)] 1)
    by (apply (walk_cons _ 0 1 1 (Sym x) x); [simpl; auto | constructor]).
  assert (H10 : walk (two_loop x y) 1 [(1, 0, Sym y)] 0)
    by (apply (walk_cons _ 1 0 0 (Sym y) y); [simpl; auto | constructor]).
  intros [<-|[<-|[]]] [<-|[<-|[]]]; eauto using walk_nil.
Qed.

Lemma two_loop_components :
  scc_contract (two_loop x y)
    (Ref.strongly_connected_components (adj (two_loop x y))).
Proof.
  change (Ref.strongly_connected_components (adj (two_loop x y)))
    with [[0; 1]].
  split; [repeat constructor|]. split; [|split].
  - intros c u [<-|[]] Hu. exact Hu.
  - intros u Hu. exists [0; 1]. split; [simpl; auto | exact Hu].
  - intros c u v [<-|[]] Hu Hv. split; [|intros _; exact Hv].
    intros _. split; now apply two_loop_walks.
Qed.

Lemma two_loop_cycles :
  cycles_contract Ref.simple_cycles (two_loop x y).
Proof.
  split.
  - change (Ref.simple_cycles (adj (two_loop x y))) with [(0, [1])].
    constructor; [simpl; auto | constructor].
  - change (Ref.simple_cycles (adj (two_loop x y))) with [(0, [1])].
    intros p (Hnd & a & rest & -> & Harcs).
    destruct rest as [|b rest].
    { inversion Harcs as [|? ? Ha _]; subst.
      apply two_loop_arc in Ha as [[-> Ha]|[-> Ha]]; discriminate. }
    cbn [app steps] in Harcs.
    inversion Harcs as [|? ? Hab Hrest]; subst.
    destruct rest as [|c rest].
    { apply two_loop_arc in Hab as [[-> ->]|[-> ->]].
      - exists [], [0; 1], 0, [1]. repeat split. simpl; auto.
      - exists [1], [0], 0, [1]. repeat split. simpl; auto. }
    exfalso. cbn [app steps] in Hrest.
    inversion Hrest as [|? ? Hbc _]; subst.
    inversion Hnd as [|? ? Hnot _]; subst. apply Hnot.
    apply two_loop_arc in Hab as [[-> ->]|[-> ->]];
      apply two_loop_arc in Hbc as [[E ->]|[E ->]]; try discriminate;
      simpl; auto.
Qed.

Lemma two_loop_paths :
  paths_contract Ref.shortest_path (two_loop x y).
Proof.
  intros a b Ha Hb _.
  destruct Ha as [<-|[<-|[]]]; destruct Hb as [<-|[<-|[]]].
  - exists [0]. repeat split. now left.
  - exists [0; 1]. repeat split. right. discriminate.
  - exists [1; 0]. repeat split. right. discriminate.
  - exists [1]. repeat split. now left.
Qed.

End TwoLoop.

(** The kernel of the one loop equation [x + y = 0]. *)
Lemma one_loop_kernel :
  kernel_basis 2 [[1%Z; 1%Z]] (Ref.nullspace [[1%Z; 1%Z]]).
Proof.
  assert (E : Ref.nullspace [[1%Z; 1%Z]] = [[(- (1))%Qc; 1%Qc]])
    by (apply nullspace_eqb_eq; vm_compute; reflexivity).
  rewrite E. split.
  - intros n [<-|[]]. split; [reflexivity|]. split.
    + intros row [<-|[]]. cbn [dot].
      change (Q2Qc (inject_Z 1)) with 1%Qc. ring.
    + intros H.
      apply (f_equal (fun v => this (nth 1 v 0%Qc))) in H.
      vm_compute in H. discriminate H.
  - intros v Hlen Hker.
    destruct v as [|a [|b [|c v]]]; try discriminate.
    specialize (Hker [1%Z; 1%Z] (or_introl eq_refl)). cbn [dot] in Hker.
    change (Q2Qc (inject_Z 1)) with 1%Qc in Hker.
    exists [b]. cbn [lincomb scale vplus zero_vector map repeat].
    f_equal; [|f_equal; ring].
    transitivity (1 * a + (1 * b + 0) - b)%Qc; [ring|].
    rewrite Hker. ring.
Qed.

Local Open Scope string_scope.

Definition swap_dfa : DFA :=
  mkDFA ["q0"; "q1"] ["a"; "b"]
        [("q0", [("a", "q1")]); ("q1", [("b", "q0")])] "q0" ["q0"].

(** [q0] is now called [r] and [q1] is called [s]; [s] comes first. *)
Definition swap_dfa_renamed : DFA :=
  mkDFA ["s"; "r"] ["a"; "b"]
        [("r", [("a", "s")]); ("s", [("b", "r")])] "r" ["r"].

Definition swap_names (q : state) : state :=
  if String.eqb q "q0" then "r" else if String.eqb q "q1" then "s" else q.

Lemma swap_renaming : renaming swap_names swap_dfa swap_dfa_renamed.
Proof.
  split; [repeat constructor; simpl; intuition discriminate|].
  split; [repeat constructor; simpl; intuition discriminate|].
  split; [|split].
  - intros q1 q2 [<-|[<-|[]]] [<-|[<-|[]]]; vm_compute; congruence.
  - intros q'. split.
    + intros [<-|[<-|[]]]; [exists "q1" | exists "q0"]; simpl; auto.
    + intros (q & [<-|[<-|[]]] & ->); simpl; auto.
  - intros q sym t' [<-|[<-|[]]]; unfold delta; split.
    + intros (row & [= <-] & [[= <- <-]|[]]).
      exists "q1". split; [|reflexivity].
      exists [("a", "q1")]. simpl; auto.
    + intros (t & (row & [= <-] & [[= <- <-]|[]]) & ->).
      exists [("a", "s")]. simpl; auto.
    + intros (row & [= <-] & [[= <- <-]|[]]).
      exists "q0". split; [|reflexivity].
      exists [("b", "q0")]. simpl; auto.
    + intros (t & (row & [= <-] & [[= <- <-]|[]]) & ->).
      exists [("b", "r")]. simpl; auto.
Qed.

Lemma swap_libraries (x y : symbol) :
  loop_equations (get_ordered_alphabet Ref.set_order (two_loop x y))
    (all_cycles (Ref.simple_cycles (adj (two_loop x y))) (two_loop x y))
  = Returns [[1%Z; 1%Z]] ->
  List.length (get_ordered_alphabet Ref.set_order (two_loop x y)) = 2 ->
  libraries_contract Ref.simple_cycles Ref.shortest_path
    Ref.strongly_connected_components Ref.nullspace Ref.set_order
    (two_loop x y).
Proof.
  intros HM Hlen. split; [apply two_loop_components|].
  intros c [<-|[]].
  change (induced (mkView (two_loop x y) [0; 1])) with (two_loop x y).
  split; [apply two_loop_cycles|]. split; [apply two_loop_paths|].
  intros M HM'. pose proof (eq_trans (eq_sym HM) HM') as E.
  injection E as <-. pose proof one_loop_kernel as K.
  rewrite <- Hlen in K. exact K.
Qed.

Lemma decide_renaming_invariant_witness :
  exists b,
    decide_CRASP_membership Ref.simple_cycles Ref.shortest_path
      Ref.strongly_connected_components Ref.nullspace Ref.set_order
      3 swap_dfa = Returns b
    /\ decide_CRASP_membership Ref.simple_cycles Ref.shortest_path
         Ref.strongly_connected_components Ref.nullspace Ref.set_order
         3 swap_dfa_renamed = Returns b.
Proof.
  apply (decide_renaming_invariant Ref.simple_cycles Ref.shortest_path
           Ref.strongly_connected_components Ref.nullspace Ref.set_order
           ref_set_order_spec eq_refl ref_nullspace_width
           3 swap_names swap_dfa swap_dfa_renamed
           (two_loop "a" "b") (two_loop "b" "a")).
  - exact swap_renaming.
  - reflexivity.
  - reflexivity.
  - apply swap_libraries; reflexivity.
  - apply swap_libraries; reflexivity.
  - lia.
Defined.

Local Close Scope string_scope.

(** * More of the decider

    Properties of the functions of [decider.py] beyond the claims. *)

(** ** [separated] *)

(** X1. [separated(G)] is [True] exactly when the label of an edge
    determines its target: any two edges of the graph that carry the
    same label end at the same node. *)
Theorem separated_iff_label_fixes_target (G : graph) :
  separated G = true
  <-> forall e1 e2, In e1 (edges G) -> In e2 (edges G) ->
        elabel e1 = elabel e2 -> dst e1 = dst e2.
Proof. exact (separated_spec G). Qed.

(** ** [automata_to_graph] *)

(** X2. When the automaton lists each state once and [automata_to_graph]
    returns, the multigraph is well formed and its edges are exactly the
    transitions: there is an edge [u -> v] with key [key] and label [l]
    exactly when [l] is the symbol [key] and the state at position [u] of
    [list(states)] goes to the state at position [v] on [key]. *)
Theorem automata_to_graph_edges (D : DFA) (G : graph) :
  NoDup (states D) ->
  automata_to_graph D = Returns G ->
  wf_graph G = true
  /\ forall u v key l,
       In (mkEdge u v key l) (edges G) <->
       l = Sym key
       /\ exists q t row,
            nth_error (states D) u = Some q
            /\ nth_error (states D) v = Some t
            /\ dict_get String.eqb (transitions D) q = Some row
            /\ In (key, t) row.
Proof.
  intros Hnd HG.
  destruct (automata_to_graph_spec D G HG) as ((Hwf & _ & _) & He & _).
  split; [assumption|]. intros u v key l. rewrite He. split.
  - intros (q & sym & t & Hq & (row & Hrow & Hin) & (a & b & Ha & Hb & E)).
    injection E as -> -> -> ->. split; [reflexivity|].
    exists q, t, row. repeat split; auto; now apply state_index_nth.
  - intros (-> & q & t & row & Hu & Hv & Hrow & Hin).
    exists q, key, t. split; [eapply nth_error_In; eauto|].
    split; [exists row; auto|].
    exists u, v. repeat split; now apply state_index_nth.
Qed.

Local Open Scope string_scope.

Lemma automata_to_graph_edges_witness :
  wf_graph (two_loop "a" "b") = true
  /\ forall u v key l,
       In (mkEdge u v key l) (edges (two_loop "a" "b")) <->
       l = Sym key
       /\ exists q t row,
            nth_error (states swap_dfa) u = Some q
            /\ nth_error (states swap_dfa) v = Some t
            /\ dict_get String.eqb (transitions swap_dfa) q = Some row
            /\ In (key, t) row.
Proof.
  apply (automata_to_graph_edges swap_dfa (two_loop "a" "b")).
  - repeat constructor; simpl; intuition discriminate.
  - reflexivity.
Defined.

Local Close Scope string_scope.

Lemma state_mapping_keys (l : list state) :
  forall (i : nat) (m : list (state * node)) (q : state),
    (exists v, dict_get String.eqb (build_state_mapping l i m) q = Some v)
    <-> In q l \/ exists v, dict_get String.eqb m q = Some v.
Proof.
  induction l as [|x l IH]; intros i m q; cbn [build_state_mapping].
  - simpl. tauto.
  - rewrite IH, (dict_get_set _ string_eqb_iff). simpl.
    destruct (String.eqb x q) eqn:E.
    + apply String.eqb_eq in E. subst. split; eauto.
    + apply String.eqb_neq in E. split.
      * intros [H|H]; auto.
      * intros [[H|H]|H]; auto. contradiction.
Qed.

Lemma state_index_defined (D : DFA) (q : state) :
  (exists u, state_index D q = Some u) <-> In q (states D).
Proof.
  unfold state_index. rewrite state_mapping_keys. simpl. split.
  - intros [H|(v & H)]; [assumption | discriminate].
  - auto.
Qed.

(** A fold whose steps raise nothing but [e0] raises nothing but [e0]. *)
Lemma foldM_only_raises {A S} (e0 : exn) (body : S -> A -> outcome S)
  (xs : list A) :
  (forall acc x, In x xs ->
     match body acc x with
     | Returns _ => True
     | Raises e => e = e0
     | OutOfFuel => False
     end) ->
  forall acc,
    match foldM body xs acc with
    | Returns _ => True
    | Raises e => e = e0
    | OutOfFuel => False
    end.
Proof.
  induction xs as [|x xs IH]; intros H acc; simpl; [exact I|].
  pose proof (H acc x (or_introl eq_refl)) as Hx.
  destruct (body acc x) as [acc'| |]; simpl; auto.
  apply IH. intros; apply H; simpl; auto.
Qed.

(** The automata that [automata_to_graph] accepts. *)
Definition transitions_closed (D : DFA) : Prop :=
  forall q, In q (states D) ->
    exists row, dict_get String.eqb (transitions D) q = Some row
                /\ forall sym t, In (sym, t) row -> In t (states D).

Lemma automata_to_graph_closed (D : DFA) (G : graph) :
  automata_to_graph D = Returns G -> transitions_closed D.
Proof.
  unfold automata_to_graph, transitions_closed.
  apply (foldM_prefix
           (fun pre _ =>
              forall q, In q pre ->
                exists row, dict_get String.eqb (transitions D) q = Some row
                            /\ forall sym t, In (sym, t) row ->
                                 In t (states D))).
  - intros q [].
  - intros pre q acc acc' _ Hpre Hbody q' Hq'.
    apply in_app_or in Hq' as [Hq'|[<-|[]]]; [auto|].
    apply bind_Returns in Hbody as (row & Hrow & Hinner).
    apply lookup_or_Returns in Hrow. exists row. split; [assumption|].
    revert Hinner.
    apply (foldM_prefix
             (fun pre' _ =>
                forall sym t, In (sym, t) pre' -> In t (states D))).
    + intros sym t [].
    + intros pre' [sym t] a a' _ Hpre' Hstep sym' t' Hin.
      apply in_app_or in Hin as [Hin|[[= <- <-]|[]]]; [eauto|].
      apply bind_Returns in Hstep as (u & _ & Hstep).
      apply bind_Returns in Hstep as (v & Hv & _).
      apply lookup_or_Returns in Hv. apply state_index_defined. eauto.
Qed.

Lemma closed_automata_to_graph (D : DFA) :
  transitions_closed D -> exists G, automata_to_graph D = Returns G.
Proof.
  intros Hclosed. unfold automata_to_graph.
  destruct (foldM_total_invariant (fun _ : graph => True)
              (fun G q =>
                 row <- lookup_or KeyError
                          (dict_get String.eqb (transitions D) q) ;;
                 foldM (fun G '(sym, target) =>
                          u <- lookup_or KeyError (state_index D q) ;;
                          v <- lookup_or KeyError (state_index D target) ;;
                          Returns (add_edge G u v sym (Sym sym)))
                       row G)
              (states D)) with (acc := @nil (node * nbrdict))
    as (G & HG & _); [|exact I|eauto].
  intros acc q Hq _. destruct (Hclosed q Hq) as (row & Hrow & Htargets).
  rewrite Hrow. cbn [lookup_or bind].
  destruct (foldM_total_invariant (fun _ : graph => True)
              (fun G '(sym, target) =>
                 u <- lookup_or KeyError (state_index D q) ;;
                 v <- lookup_or KeyError (state_index D target) ;;
                 Returns (add_edge G u v sym (Sym sym)))
              row) with (acc := acc) as (G & HG & _); [|exact I|eauto].
  intros a [sym t] Hin _.
  destruct (proj2 (state_index_defined D q) Hq) as (u & ->).
  destruct (proj2 (state_index_defined D t) (Htargets sym t Hin)) as (v & ->).
  cbn [lookup_or bind]. eauto.
Qed.

Lemma automata_to_graph_raises (D : DFA) :
  match automata_to_graph D with
  | Returns _ => True
  | Raises e => e = KeyError
  | OutOfFuel => False
  end.
Proof.
  unfold automata_to_graph. apply foldM_only_raises. intros acc q _.
  destruct (dict_get String.eqb (transitions D) q) as [row|];
    cbn [lookup_or bind]; [|reflexivity].
  apply foldM_only_raises. intros a [sym t] _.
  destruct (dict_get String.eqb (build_state_mapping (states D) 0 []) q);
    cbn [lookup_or bind]; [|reflexivity].
  destruct (dict_get String.eqb (build_state_mapping (states D) 0 []) t);
    cbn [lookup_or bind]; [exact I | reflexivity].
Qed.

(** X3. [automata_to_graph] returns a graph exactly when every state has
    an entry in [transitions] and every target of a transition is a
    state; on any other automaton it raises [KeyError].  Nothing else is
    checked: symbols outside [input_symbols], a partial transition
    function, the initial and the final states are not looked at. *)
Theorem automata_to_graph_returns_iff (D : DFA) :
  ((exists G, automata_to_graph D = Returns G) <-> transitions_closed D)
  /\ (~ transitions_closed D -> automata_to_graph D = Raises KeyError).
Proof.
  split.
  - split; [intros (G & HG); eapply automata_to_graph_closed; eauto|].
    apply closed_automata_to_graph.
  - intros Hnot. pose proof (automata_to_graph_raises D) as H.
    destruct (automata_to_graph D) as [G|e|] eqn:E.
    + exfalso. apply Hnot. eapply automata_to_graph_closed; eauto.
    + now subst.
    + contradiction.
Qed.

Local Open Scope string_scope.

(** A transition into a state that the automaton does not have. *)
Definition dangling_dfa : DFA :=
  mkDFA ["q0"] ["a"] [("q0", [("a", "q1")])] "q0" [].

Lemma automata_to_graph_returns_iff_witness :
  automata_to_graph dangling_dfa = Raises KeyError.
Proof.
  apply (proj2 (automata_to_graph_returns_iff dangling_dfa)).
  intros H. destruct (H "q0" (or_introl eq_refl)) as (row & [= <-] & Ht).
  destruct (Ht "a" "q1" (or_introl eq_refl)) as [E|[]]. discriminate E.
Defined.

Local Close Scope string_scope.

(** ** [get_path_edges] *)

Lemma cartesian_product_length {A} (choices : list (list A)) :
  List.length (cartesian_product choices)
  = fold_right Nat.mul 1 (map (@List.length A) choices).
Proof.
  induction choices as [|c choices IH]; [reflexivity|].
  cbn [cartesian_product map fold_right]. rewrite <- IH.
  induction c as [|x c IHc]; [reflexivity|].
  cbn [flat_map]. rewrite length_app, length_map, IHc. simpl. lia.
Qed.

Lemma cartesian_product_each {A} (choices : list (list A)) (xs : list A) :
  In xs (cartesian_product choices) -> List.length xs = List.length choices.
Proof.
  revert xs. induction choices as [|c choices IH]; intros xs; simpl.
  - intros [<-|[]]. reflexivity.
  - rewrite in_flat_map. intros (x & _ & H).
    apply in_map_iff in H as (ys & <- & Hys). simpl. f_equal. auto.
Qed.

Lemma steps_length (path : list node) :
  List.length (steps path) = List.length path - 1.
Proof.
  induction path as [|a [|b rest] IH]; [reflexivity..|].
  cbn [steps List.length] in *. lia.
Qed.

(** X4. When [get_path_edges(G, path)] returns on a path of two or more
    nodes, it returns as many edge paths as the product, over the
    consecutive pairs of the path, of the number of parallel edges of the
    pair, and each of them has one edge less than the path has nodes. *)
Theorem get_path_edges_count (G : graph) (path : list node)
  (ess : list (list hop)) :
  2 <= List.length path ->
  get_path_edges G path = Returns ess ->
  List.length ess
  = fold_right Nat.mul 1
      (map (fun '(u, v) => List.length (parallel_edges G u v)) (steps path))
  /\ forall es, In es ess -> List.length es = List.length path - 1.
Proof.
  intros Hlen H. destruct path as [|first [|r0 rest']]; simpl in Hlen;
    try lia.
  apply get_path_edges_returns in H. subst ess. unfold expansions. split.
  - rewrite cartesian_product_length, map_map. f_equal.
    apply map_ext. now intros [u v].
  - intros es Hes. apply cartesian_product_each in Hes.
    now rewrite Hes, length_map, steps_length.
Qed.

Lemma get_path_edges_count_witness :
  List.length [[(0, 1, Sym "a"); (1, 0, Sym "a")];
               [(0, 1, Sym "a"); (1, 0, Sym "b")];
               [(0, 1, Sym "b"); (1, 0, Sym "a")];
               [(0, 1, Sym "b"); (1, 0, Sym "b")]]%string
  = 4
  /\ forall es,
       In es [[(0, 1, Sym "a"); (1, 0, Sym "a")];
              [(0, 1, Sym "a"); (1, 0, Sym "b")];
              [(0, 1, Sym "b"); (1, 0, Sym "a")];
              [(0, 1, Sym "b"); (1, 0, Sym "b")]]%string ->
       List.length es = 2.
Proof.
  apply (get_path_edges_count pair_graph [0; 1; 0]).
  - simpl. lia.
  - reflexivity.
Defined.

(** ** [loop_equations] *)

(** How often the label [a] occurs along a cycle. *)
Definition occurrences (a : label) (cycle : list hop) : nat :=
  List.length (filter (fun h => label_eqb (snd h) a) cycle).

Lemma increment_nth (row : list Z) (i j : nat) :
  j < List.length row ->
  nth i (increment row j) 0%Z
  = (nth i row 0 + if Nat.eqb i j then 1 else 0)%Z.
Proof.
  revert i j. induction row as [|x row IH]; intros i j Hj; simpl in Hj;
    [lia|].
  destruct j as [|j], i as [|i]; cbn [increment nth Nat.eqb]; try lia.
  apply IH. lia.
Qed.

Lemma loop_equations_row_counts (alphabet : list label) (d : label)
  (cycle : list hop) :
  NoDup alphabet ->
  forall row0 row,
    List.length row0 = List.length alphabet ->
    foldM (fun vec '(_, _, sym) =>
             index <- lookup_or ValueError (index_of alphabet sym) ;;
             Returns (increment vec index))
          cycle row0 = Returns row ->
    List.length row = List.length alphabet
    /\ forall i, i < List.length alphabet ->
         nth i row 0%Z
         = (nth i row0 0 + Z.of_nat (occurrences (nth i alphabet d) cycle))%Z.
Proof.
  intros Hnd. induction cycle as [|[[a b] sym] cycle IH]; intros row0 row Hl H;
    simpl in H.
  - injection H as <-. split; [assumption|]. intros i _.
    unfold occurrences. simpl. lia.
  - destruct (index_of alphabet sym) as [j|] eqn:E; cbn [lookup_or bind] in H;
      [|discriminate].
    destruct (IH _ _ (eq_trans (increment_length row0 j) Hl) H) as [Hr Hn].
    split; [assumption|]. intros i Hi. rewrite (Hn i Hi).
    pose proof (index_of_lt _ _ _ E) as Hj.
    rewrite increment_nth by lia.
    unfold occurrences. cbn [filter snd].
    destruct (Nat.eqb i j) eqn:Eij.
    + apply Nat.eqb_eq in Eij. subst j. apply index_of_Some in E.
      rewrite (nth_error_nth _ _ d E), label_eqb_refl.
      cbn [List.length]. lia.
    + destruct (label_eqb sym (nth i alphabet d)) eqn:El; [|lia].
      apply label_eqb_eq in El. subst sym.
      rewrite (index_of_nth alphabet i d Hnd Hi) in E.
      injection E as <-. rewrite Nat.eqb_refl in Eij. discriminate.
Qed.

(** X5. Each row that [loop_equations] returns is the Parikh vector of
    its cycle over the alphabet: it is as long as the alphabet and its
    [i]-th entry counts the edges of the cycle labelled
    [ordered_alphabet[i]] (for an alphabet without repetitions, as
    [list(set(...))] gives). *)
Theorem loop_equations_parikh (alphabet : list label) (d : label)
  (cycles : list (list hop)) (M : list (list Z)) :
  NoDup alphabet ->
  loop_equations alphabet cycles = Returns M ->
  Forall2 (fun cycle row =>
             List.length row = List.length alphabet
             /\ forall i, i < List.length alphabet ->
                  nth i row 0%Z
                  = Z.of_nat (occurrences (nth i alphabet d) cycle))
          cycles M.
Proof.
  intros Hnd H. unfold loop_equations in H. apply mapM_Returns_Forall2 in H.
  eapply Forall2_impl; [|exact H]. intros cycle row Hrow. simpl in Hrow.
  destruct (loop_equations_row_counts alphabet d cycle Hnd _ row
              (repeat_length _ _) Hrow) as [Hl Hn].
  split; [assumption|]. intros i Hi. rewrite (Hn i Hi).
  rewrite nth_repeat. lia.
Qed.

Lemma loop_equations_parikh_witness :
  Forall2 (fun cycle row =>
             List.length row = 2
             /\ forall i, i < 2 ->
                  nth i row 0%Z
                  = Z.of_nat (occurrences
                                (nth i [Sym "a"; Sym "b"]%string
                                     (Sym EmptyString))
                                cycle))
          [[(0, 1, Sym "a"); (1, 2, Sym "a"); (2, 0, Sym "b")]%string]
          [[2%Z; 1%Z]].
Proof.
  apply (loop_equations_parikh [Sym "a"; Sym "b"]%string (Sym EmptyString)).
  - repeat constructor; simpl; intuition discriminate.
  - reflexivity.
Defined.

Lemma mapM_only_raises {A B} (e0 : exn) (body : A -> outcome B)
  (xs : list A) :
  (forall x, In x xs ->
     match body x with
     | Returns _ => True
     | Raises e => e = e0
     | OutOfFuel => False
     end) ->
  match mapM body xs with
  | Returns _ => True
  | Raises e => e = e0
  | OutOfFuel => False
  end.
Proof.
  induction xs as [|x xs IH]; intros H; simpl; [exact I|].
  pose proof (H x (or_introl eq_refl)) as Hx.
  destruct (body x) as [y| |]; simpl; auto.
  assert (IH' := IH (fun z Hz => H z (or_intror Hz))).
  destruct (mapM body xs); simpl; auto.
Qed.

(** Every label along the cycles is in the alphabet. *)
Definition labels_known (alphabet : list label) (cycles : list (list hop))
  : Prop :=
  forall cycle h, In cycle cycles -> In h cycle -> In (snd h) alphabet.

Lemma loop_equations_known (alphabet : list label)
  (cycles : list (list hop)) (M : list (list Z)) :
  loop_equations alphabet cycles = Returns M -> labels_known alphabet cycles.
Proof.
  unfold loop_equations. intros H cycle h Hc Hh.
  apply mapM_Returns_Forall2 in H.
  destruct (Forall2_In_l _ _ _ _ H Hc) as (row & _ & Hrow). revert h Hh.
  revert Hrow.
  apply (foldM_prefix
           (fun pre _ => forall h, In h pre -> In (snd h) alphabet)).
  - intros h [].
  - intros pre [[a b] sym] acc acc' _ Hpre Hstep h Hh.
    apply in_app_or in Hh as [Hh|[<-|[]]]; [auto|].
    apply bind_Returns in Hstep as (i & Hi & _).
    apply lookup_or_Returns, index_of_Some in Hi.
    eapply nth_error_In; eauto.
Qed.

(** X6. [loop_equations] returns exactly when every label met along the
    cycles is in the ordered alphabet; otherwise [ordered_alphabet.index]
    fails and it raises [ValueError]. *)
Theorem loop_equations_returns_iff (alphabet : list label)
  (cycles : list (list hop)) :
  ((exists M, loop_equations alphabet cycles = Returns M)
   <-> labels_known alphabet cycles)
  /\ (~ labels_known alphabet cycles ->
      loop_equations alphabet cycles = Raises ValueError).
Proof.
  assert (Hto : labels_known alphabet cycles ->
                exists M, loop_equations alphabet cycles = Returns M).
  { intros Hk. unfold loop_equations. apply mapM_total. intros cycle Hc.
    apply loop_equations_row. intros h Hh. exact (Hk cycle h Hc Hh). }
  split.
  - split; [intros (M & HM); eapply loop_equations_known; eauto | exact Hto].
  - intros Hnot.
    assert (H : match loop_equations alphabet cycles with
                | Returns _ => True
                | Raises e => e = ValueError
                | OutOfFuel => False
                end).
    { unfold loop_equations. apply mapM_only_raises. intros cycle _.
      apply foldM_only_raises. intros acc [[a b] sym] _.
      destruct (index_of alphabet sym); cbn [lookup_or bind];
        [exact I | reflexivity]. }
    destruct (loop_equations alphabet cycles) as [M|e|] eqn:E.
    + exfalso. apply Hnot. eapply loop_equations_known; eauto.
    + now subst.
    + contradiction.
Qed.

Lemma loop_equations_returns_iff_witness :
  loop_equations [Sym "a"]%string [[(0, 0, Sym "b")]%string]
  = Raises ValueError.
Proof.
  apply (proj2 (loop_equations_returns_iff [Sym "a"]%string
                  [[(0, 0, Sym "b")]%string])).
  intros H.
  destruct (H [(0, 0, Sym "b")]%string (0, 0, Sym "b"%string)
              (or_introl eq_refl) (or_introl eq_refl)) as [E|[]].
  discriminate E.
Defined.

(** ** The morphism of a round *)

(** X7. For an alphabet without repetitions and basis vectors as long as
    the alphabet, the morphism that a round of [attack_scc] builds maps
    the [i]-th label of the alphabet to the vector of the [i]-th entries
    of the basis vectors. *)
Theorem build_morphism_columns (alphabet : list label) (ns : list vec)
  (d : label) :
  NoDup alphabet ->
  (forall n, In n ns -> List.length n = List.length alphabet) ->
  exists m,
    build_morphism alphabet ns = Returns m
    /\ forall i, i < List.length alphabet ->
         dict_get label_eqb m (nth i alphabet d)
         = Some (map (fun n => nth i n 0%Qc) ns).
Proof.
  intros Hnd Hw.
  destruct (build_morphism_images alphabet ns Hnd Hw) as (m & Hm & Himg & _).
  exists m. split; [assumption|]. intros i Hi.
  rewrite (Himg _ (nth_In alphabet d Hi)). f_equal. unfold image.
  apply map_ext. intros n. unfold weight_of.
  now rewrite (index_of_nth alphabet i d Hnd Hi).
Qed.

Lemma build_morphism_columns_witness :
  exists m,
    build_morphism [Sym "a"; Sym "b"]%string
                   [[Q2Qc (-1 # 1); Q2Qc (1 # 1)]]
    = Returns m
    /\ forall i, i < 2 ->
         dict_get label_eqb m
                  (nth i [Sym "a"; Sym "b"]%string (Sym EmptyString))
         = Some (map (fun n => nth i n 0%Qc)
                     [[Q2Qc (-1 # 1); Q2Qc (1 # 1)]]).
Proof.
  apply (build_morphism_columns [Sym "a"; Sym "b"]%string
           [[Q2Qc (-1 # 1); Q2Qc (1 # 1)]] (Sym EmptyString)).
  - repeat constructor; simpl; intuition discriminate.
  - intros n [<-|[]]. reflexivity.
Defined.

(** ** [relabel] *)

(** X8. On a view whose labels are all vectors, a call of [relabel] that
    returns leaves the graph as it was: for a vector label the code joins
    the potential to a copy of the old label, drops the joined matrix and
    writes the old label back. *)
Theorem relabel_keeps_vector_labels
  (shortest_path : adjacency -> node -> node -> option (list node))
  (sg sg' : view) (cycles : list (list hop)) (m : morphism) :
  wf_graph (base sg) = true ->
  (forall e, In e (edges (induced sg)) -> is_tuple (elabel e) = true) ->
  relabel shortest_path sg cycles m = Returns sg' ->
  sg' = sg.
Proof. apply relabel_fixed. Qed.

(** The loop over two states with one-entry vectors as labels. *)
Definition vector_loop : graph :=
  [(0, [(1, [("a"%string, Vec [Q2Qc (1 # 1)])])]);
   (1, [(0, [("b"%string, Vec [Q2Qc (0 # 1)])])])].

Definition vector_loop_morphism : morphism :=
  [(Vec [Q2Qc (1 # 1)], [Q2Qc (1 # 1)]); (Vec [Q2Qc (0 # 1)], [Q2Qc (0 # 1)])].

Lemma relabel_keeps_vector_labels_witness :
  relabel Ref.shortest_path (mkView vector_loop [0; 1]) []
          vector_loop_morphism
  = Returns (mkView vector_loop [0; 1]).
Proof.
  destruct (relabel Ref.shortest_path (mkView vector_loop [0; 1]) []
                    vector_loop_morphism) as [sg'|e|] eqn:E.
  - f_equal.
    apply (relabel_keeps_vector_labels Ref.shortest_path
             (mkView vector_loop [0; 1]) sg' [] vector_loop_morphism).
    + reflexivity.
    + intros e [<-|[<-|[]]]; reflexivity.
    + exact E.
  - vm_compute in E. discriminate E.
  - vm_compute in E. discriminate E.
Defined.



(** ** [attack_scc] and [decide_CRASP_membership] *)

Section Answers.
Variable simple_cycles : adjacency -> list (node * list node).
Variable shortest_path : adjacency -> node -> node -> option (list node).
Variable strongly_connected_components : adjacency -> list (list node).
Variable nullspace : list (list Z) -> list vec.
Variable set_order : list label -> list label.

(** X10. When the null space of the first round is empty, [attack_scc]
    stops in that round: it leaves the view as it was and returns
    [separated] of the graph under its first labels. *)
Theorem attack_scc_trivial_kernel (sg : view) (fuel : nat) :
  round_nullspace simple_cycles nullspace set_order sg = Returns [] ->
  attack_scc simple_cycles shortest_path nullspace set_order (S fuel) sg
  = (sg, Returns (separated (induced sg))).
Proof.
  unfold round_nullspace, attack_scc. intros H.
  apply bind_Returns in H as (cycles & Hc & H).
  apply bind_Returns in H as (basis & Hb & [= Hn]).
  cbn [attack_loop]. unfold attack_round. rewrite Hc. cbn [bind].
  rewrite Hb. cbn [bind]. rewrite Hn. reflexivity.
Qed.

Hypothesis set_order_spec :
  forall l, NoDup (set_order l) /\ forall x, In x (set_order l) <-> In x l.
Hypothesis nullspace_empty : nullspace [] = [].
Hypothesis nullspace_width :
  forall row M n, In n (nullspace (row :: M)) ->
    List.length n = List.length row.

(** X11. On the view of a strongly connected component of a well-formed
    graph labelled by its symbols, when the libraries keep their
    contracts on the component, [attack_scc] returns a boolean within
    three rounds, and it returns [True] exactly in two cases: no balanced
    weight tells a label from zero and equal symbols lead to equal
    targets; or some balanced weight does, and two edges that every
    balanced weight gives the same potential lead to the same target. *)
Theorem attack_scc_answer (sg : view) (fuel : nat) :
  wf_graph (base sg) = true ->
  symbol_labelled (induced sg) ->
  strongly_connected (induced sg) ->
  cycles_contract simple_cycles (induced sg) ->
  paths_contract shortest_path (induced sg) ->
  kernel_contract simple_cycles nullspace set_order (induced sg) ->
  3 <= fuel ->
  exists b,
    snd (attack_scc simple_cycles shortest_path nullspace set_order fuel sg)
    = Returns b
    /\ (b = true <->
        (balanced_weights_trivial (induced sg) /\ separates (induced sg))
        \/ (~ balanced_weights_trivial (induced sg)
            /\ separates_by_potential (induced sg))).
Proof.
  exact (attack_scc_component simple_cycles shortest_path nullspace set_order
           set_order_spec nullspace_empty nullspace_width sg fuel).
Qed.

(** X12. For an automaton that [automata_to_graph] accepts, when the
    libraries keep their contracts on its transition graph,
    [decide_CRASP_membership] returns a boolean, and it returns [True]
    exactly when every strongly connected component is accepted. *)
Theorem decide_answer (fuel : nat) (D : DFA) (G : graph) :
  automata_to_graph D = Returns G ->
  libraries_contract simple_cycles shortest_path
    strongly_connected_components nullspace set_order G ->
  3 <= fuel ->
  exists b,
    decide_CRASP_membership simple_cycles shortest_path
      strongly_connected_components nullspace set_order fuel D = Returns b
    /\ (b = true <->
        forall c, In c (strongly_connected_components (adj G)) ->
          component_accepted (induced (mkView G c))).
Proof.
  intros HG Hlib Hfuel.
  destruct (automata_to_graph_spec D G HG) as ((Hwf & Hsym & _) & _).
  unfold decide_CRASP_membership. rewrite HG. cbn [bind].
  exact (decide_graph simple_cycles shortest_path
           strongly_connected_components nullspace set_order
           set_order_spec nullspace_empty nullspace_width fuel G
           Hwf Hsym Hlib Hfuel).
Qed.

End Answers.

Local Open Scope string_scope.

Lemma attack_scc_trivial_kernel_witness :
  attack_scc Ref.simple_cycles Ref.shortest_path Ref.nullspace Ref.set_order
             1 (mkView pair_graph [0; 1])
  = (mkView pair_graph [0; 1], Returns false).
Proof.
  apply (attack_scc_trivial_kernel Ref.simple_cycles Ref.shortest_path
           Ref.nullspace Ref.set_order (mkView pair_graph [0; 1]) 0).
  vm_compute. reflexivity.
Defined.

Lemma attack_scc_answer_witness :
  exists b,
    snd (attack_scc Ref.simple_cycles Ref.shortest_path Ref.nullspace
                    Ref.set_order 3 (mkView (two_loop "a" "b") [0; 1]))
    = Returns b
    /\ (b = true <->
        (balanced_weights_trivial (induced (mkView (two_loop "a" "b") [0; 1]))
         /\ separates (induced (mkView (two_loop "a" "b") [0; 1])))
        \/ (~ balanced_weights_trivial
                (induced (mkView (two_loop "a" "b") [0; 1]))
            /\ separates_by_potential
                 (induced (mkView (two_loop "a" "b") [0; 1])))).
Proof.
  destruct (proj2 (swap_libraries "a" "b" eq_refl eq_refl) [0; 1]
              (or_introl eq_refl)) as (Hcyc & Hpath & Hker).
  apply (attack_scc_answer Ref.simple_cycles Ref.shortest_path Ref.nullspace
           Ref.set_order ref_set_order_spec eq_refl ref_nullspace_width
           (mkView (two_loop "a" "b") [0; 1]) 3); auto.
  - intros e [<-|[<-|[]]]; reflexivity.
  - intros u v Hu Hv. now apply two_loop_walks.
Defined.

Lemma decide_answer_witness :
  exists b,
    decide_CRASP_membership Ref.simple_cycles Ref.shortest_path
      Ref.strongly_connected_components Ref.nullspace Ref.set_order
      3 swap_dfa = Returns b
    /\ (b = true <->
        forall c,
          In c (Ref.strongly_connected_components (adj (two_loop "a" "b"))) ->
          component_accepted (induced (mkView (two_loop "a" "b") c))).
Proof.
  apply (decide_answer Ref.simple_cycles Ref.shortest_path
           Ref.strongly_connected_components Ref.nullspace Ref.set_order
           ref_set_order_spec eq_refl ref_nullspace_width
           3 swap_dfa (two_loop "a" "b")).
  - reflexivity.
  - apply swap_libraries; reflexivity.
  - lia.
Defined.

Local Close Scope string_scope.

(** * The regex sampler

    [CFG.sample] of [generate_regexes.py] and [test_regexes.py]: a random
    word of a context-free grammar.  The random generator is a state that
    [random.choice] reads and advances; the recursion of [sample] takes
    fuel. *)

Record CFG : Type := mkCFG
  { rules : list (string * list (list string));
    start_symbol : string }.

(** [min(prods, key=len)]: the first production of least length. *)
Fixpoint shortest (prods : list (list string)) : option (list string) :=
  match prods with
  | [] => None
  | p :: rest =>
      match shortest rest with
      | Some q => if List.length q <? List.length p then Some q else Some p
      | None => Some p
      end
  end.

Section Sampler.
Variable rng : Type.
(** The random index below a bound that the generator gives next. *)
Variable randbelow : rng -> nat -> nat * rng.

(** [random.choice(seq)]; [IndexError] on an empty sequence. *)
Definition choice {A} (seq : list A) (s : rng) : outcome (A * rng) :=
  match seq with
  | [] => Raises IndexError
  | _ :: _ =>
      let (i, s') := randbelow s (List.length seq) in
      x <- lookup_or IndexError (nth_error seq i) ;;
      Returns (x, s')
  end.

Definition is_terminal (g : CFG) (x : string) : bool :=
  negb (dict_mem String.eqb (rules g) x).

Fixpoint sample (fuel : nat) (g : CFG) (symbol : option string)
  (max_depth : Z) (s : rng) : outcome (string * rng) :=
  match fuel with
  | 0 => OutOfFuel
  | S fuel' =>
      let symbol := match symbol with
                    | None => start_symbol g
                    | Some x => x
                    end in
      match dict_get String.eqb (rules g) symbol with
      | None => Returns (symbol, s)
      | Some prods =>
          if (max_depth <=? 0)%Z then
            let terminal_prods := filter (forallb (is_terminal g)) prods in
            chosen <- match terminal_prods with
                      | _ :: _ => choice terminal_prods s
                      | [] =>
                          p <- lookup_or ValueError (shortest prods) ;;
                          Returns (p, s)
                      end ;;
            r <- foldM (fun '(result, s) sym =>
                          if is_terminal g sym then
                            Returns (result ++ [sym], s)
                          else
                            e <- sample fuel' g (Some sym) 0 s ;;
                            Returns (result ++ [fst e], snd e))
                       (fst chosen) ([], snd chosen) ;;
            Returns (String.concat EmptyString (fst r), snd r)
          else
            chosen <- choice prods s ;;
            r <- foldM (fun '(result, s) sym =>
                          e <- sample fuel' g (Some sym) (max_depth - 1) s ;;
                          Returns (result ++ [fst e], snd e))
                       (fst chosen) ([], snd chosen) ;;
            Returns (String.concat EmptyString (fst r), snd r)
      end
  end.

(** [[self.sample(symbol) for _ in range(n)]], with the default depth. *)
Fixpoint sample_n (fuel : nat) (g : CFG) (n : nat) (symbol : option string)
  (s : rng) : outcome (list string * rng) :=
  match n with
  | 0 => Returns ([], s)
  | S n' =>
      e <- sample fuel g symbol 50 s ;;
      r <- sample_n fuel g n' symbol (snd e) ;;
      Returns (fst e :: fst r, snd r)
  end.

End Sampler.

(** [derives g x w]: the grammar derives the word [w] from the symbol
    [x].  A symbol without rules stands for itself; the words derived
    from the symbols of a production are joined. *)
#[warnings="-register-all"] Inductive derives (g : CFG) : string -> string -> Prop :=
| derives_terminal (x : string) :
    dict_get String.eqb (rules g) x = None -> derives g x x
| derives_production (x : string) (prods : list (list string))
    (p ws : list string) :
    dict_get String.eqb (rules g) x = Some prods ->
    In p prods ->
    Forall2 (derives g) p ws ->
    derives g x (String.concat EmptyString ws).

Lemma shortest_In (prods : list (list string)) (p : list string) :
  shortest prods = Some p -> In p prods.
Proof.
  revert p. induction prods as [|q prods IH]; intros p; simpl;
    [discriminate|].
  destruct (shortest prods) as [r|].
  - destruct (List.length r <? List.length q); intros [= <-]; auto.
  - intros [= <-]. auto.
Qed.

Lemma is_terminal_None (g : CFG) (x : string) :
  is_terminal g x = true <-> dict_get String.eqb (rules g) x = None.
Proof.
  unfold is_terminal, dict_mem.
  destruct (dict_get String.eqb (rules g) x); simpl; split;
    congruence.
Qed.

Section SamplerFacts.
Variable rng : Type.
Variable randbelow : rng -> nat -> nat * rng.

Lemma choice_In {A} (seq : list A) (s s' : rng) (x : A) :
  choice rng randbelow seq s = Returns (x, s') -> In x seq.
Proof.
  unfold choice. destruct seq as [|y seq]; [discriminate|].
  destruct (randbelow s (List.length (y :: seq))) as [i s1].
  intros H. apply bind_Returns in H as (z & Hz & [= <- _]).
  apply lookup_or_Returns in Hz. eapply nth_error_In; eauto.
Qed.

(** The loop over the symbols of a production, when each expansion is
    derived from its symbol. *)
Lemma expand_derives (g : CFG)
  (body : list string * rng -> string -> outcome (list string * rng))
  (production : list string) (s : rng) (r : list string * rng) :
  (forall result s1 sym acc',
     body (result, s1) sym = Returns acc' ->
     exists w, fst acc' = result ++ [w] /\ derives g sym w) ->
  foldM body production ([], s) = Returns r ->
  Forall2 (derives g) production (fst r).
Proof.
  intros Hbody.
  apply (foldM_prefix (fun pre acc => Forall2 (derives g) pre (fst acc))).
  - constructor.
  - intros pre sym [result s1] acc' _ Hpre Hstep.
    destruct (Hbody _ _ _ _ Hstep) as (w & -> & Hw).
    apply Forall2_app; [exact Hpre | repeat constructor; exact Hw].
Qed.

Lemma sample_sound (fuel : nat) (g : CFG) :
  forall (symbol : option string) (max_depth : Z) (s s' : rng) (w : string),
    sample rng randbelow fuel g symbol max_depth s = Returns (w, s') ->
    derives g (match symbol with
               | None => start_symbol g
               | Some x => x
               end) w.
Proof.
  induction fuel as [|fuel IH]; intros symbol max_depth s s' w H;
    [discriminate|].
  cbn [sample] in H.
  set (x := match symbol with None => start_symbol g | Some x => x end) in *.
  destruct (dict_get String.eqb (rules g) x) as [prods|] eqn:Ex.
  2:{ injection H as <- _. now constructor. }
  destruct (max_depth <=? 0)%Z.
  - apply bind_Returns in H as ([p s1] & Hp & H).
    apply bind_Returns in H as (r & Hr & [= <- _]).
    apply (derives_production g x prods p); [assumption | |].
    + destruct (filter (forallb (is_terminal g)) prods) as [|t ts] eqn:Et.
      * apply bind_Returns in Hp as (p' & Hp' & [= <- _]).
        apply lookup_or_Returns in Hp'. now apply shortest_In.
      * apply choice_In in Hp. rewrite <- Et in Hp.
        now apply filter_In in Hp as [Hp _].
    + simpl in Hr. eapply expand_derives; [|exact Hr].
      intros result s2 sym acc' Hstep. cbv beta iota in Hstep.
      destruct (is_terminal g sym) eqn:Eterm.
      * injection Hstep as <-. exists sym. split; [reflexivity|].
        constructor. now apply is_terminal_None.
      * apply bind_Returns in Hstep as ([w' s3] & Hw & [= <-]).
        exists w'. split; [reflexivity|]. exact (IH _ _ _ _ _ Hw).
  - apply bind_Returns in H as ([p s1] & Hp & H).
    apply bind_Returns in H as (r & Hr & [= <- _]).
    apply (derives_production g x prods p); [assumption | |].
    + eapply choice_In; eauto.
    + simpl in Hr. eapply expand_derives; [|exact Hr].
      intros result s2 sym acc' Hstep. cbv beta iota in Hstep.
      apply bind_Returns in Hstep as ([w' s3] & Hw & [= <-]).
      exists w'. split; [reflexivity|]. exact (IH _ _ _ _ _ Hw).
Qed.

(** X13. Whatever the random choices, a word that [sample] returns is
    derived by the grammar from the symbol it was asked for (from the
    start symbol when no symbol is given), at every depth, forced
    productions included. *)
Theorem sample_derives (fuel : nat) (g : CFG) (symbol : option string)
  (max_depth : Z) (s s' : rng) (w : string) :
  sample rng randbelow fuel g symbol max_depth s = Returns (w, s') ->
  derives g (match symbol with
             | None => start_symbol g
             | Some x => x
             end) w.
Proof. apply sample_sound. Qed.

(** X19. When [sample_n(n, symbol)] returns, it returns [n] words, each
    derived by the grammar from the symbol. *)
Theorem sample_n_derives (fuel : nat) (g : CFG) (symbol : option string) :
  forall (n : nat) (s s' : rng) (ws : list string),
    sample_n rng randbelow fuel g n symbol s = Returns (ws, s') ->
    List.length ws = n
    /\ Forall (derives g (match symbol with
                          | None => start_symbol g
                          | Some x => x
                          end)) ws.
Proof.
  induction n as [|n IH]; intros s s' ws H; cbn [sample_n] in H.
  - injection H as <- _. split; [reflexivity | constructor].
  - apply bind_Returns in H as ([w s1] & Hw & H).
    apply bind_Returns in H as ([ws' s2] & Hws & [= <- _]).
    destruct (IH _ _ _ Hws) as [Hl Hd]. simpl. split; [now f_equal|].
    constructor; [exact (sample_sound _ _ _ _ _ _ _ Hw) | assumption].
Qed.

End SamplerFacts.

(** *** The grammars of the two scripts *)

Local Open Scope string_scope.

(** [regex_rules]; alternation is written [+] in [generate_regexes.py]
    and [|] in [test_regexes.py]. *)
Definition regex_rules (alt : string) : list (string * list (list string)) :=
  [("R", [["T"]; ["T"; alt; "R"]]);
   ("T", [["F"]; ["F"; "T"]]);
   ("F", [["A"]; ["A"; "*"]]);
   ("A", [["a"]; ["b"]; ["c"]; ["d"]; ["e"]; ["("; "R"; ")"]])].

(** [CFG(regex_rules, 'R')] *)
Definition regex_cfg (alt : string) : CFG := mkCFG (regex_rules alt) "R".

Local Close Scope string_scope.

(** A generator that plays back a list of numbers, then zeros. *)
Definition scripted_randbelow (s : list nat) (n : nat) : nat * list nat :=
  match s with
  | [] => (0, [])
  | r :: s' => (r mod n, s')
  end.

Lemma sample_derives_witness :
  derives (regex_cfg "+") "R" "a*+ba+c".
Proof.
  apply (sample_derives (list nat) scripted_randbelow 20 (regex_cfg "+")
           None 3 [1; 0; 1; 5; 1; 1; 1; 0; 0; 2; 0; 3; 0; 1] [0; 3; 0; 1]).
  vm_compute. reflexivity.
Defined.

(** ** Errors and termination of [sample] *)

Section SamplerRuns.
Variable rng : Type.
Variable randbelow : rng -> nat -> nat * rng.

(** X14. A symbol that has rules but no production makes [sample]
    raise: [IndexError] from [random.choice] while depth is left,
    [ValueError] from [min] of an empty list once depth is exhausted. *)
Theorem sample_without_production (fuel : nat) (g : CFG) (x : string)
  (max_depth : Z) (s : rng) :
  dict_get String.eqb (rules g) x = Some [] ->
  sample rng randbelow (S fuel) g (Some x) max_depth s
  = Raises (if (max_depth <=? 0)%Z then ValueError else IndexError).
Proof.
  intros H. cbn [sample]. rewrite H.
  destruct (max_depth <=? 0)%Z; reflexivity.
Qed.

Lemma sample_start (fuel : nat) (g : CFG) (max_depth : Z) (s : rng) :
  sample rng randbelow fuel g None max_depth s
  = sample rng randbelow fuel g (Some (start_symbol g)) max_depth s.
Proof. destruct fuel; reflexivity. Qed.

(** Below zero the depth counts as zero. *)
Lemma sample_exhausted (fuel : nat) (g : CFG) (symbol : option string)
  (max_depth : Z) (s : rng) :
  (max_depth <= 0)%Z ->
  sample rng randbelow fuel g symbol max_depth s
  = sample rng randbelow fuel g symbol 0 s.
Proof.
  intros H. destruct fuel as [|fuel]; [reflexivity|]. cbn [sample].
  apply Z.leb_le in H. rewrite H. reflexivity.
Qed.

Hypothesis randbelow_lt :
  forall s n, 0 < n -> fst (randbelow s n) < n.

Lemma choice_returns {A} (seq : list A) (s : rng) :
  seq <> [] ->
  exists x s', choice rng randbelow seq s = Returns (x, s') /\ In x seq.
Proof.
  intros Hne. unfold choice. destruct seq as [|y seq]; [contradiction|].
  pose proof (randbelow_lt s (List.length (y :: seq))) as Hlt.
  destruct (randbelow s (List.length (y :: seq))) as [i s1].
  simpl fst in Hlt.
  destruct (nth_error (y :: seq) i) as [z|] eqn:E.
  - exists z, s1. split; [reflexivity|]. eapply nth_error_In; eauto.
  - apply nth_error_None in E. simpl in E, Hlt. lia.
Qed.

Lemma expand_returns
  (body : list string * rng -> string -> outcome (list string * rng))
  (production : list string) (acc : list string * rng) :
  (forall a sym, In sym production -> exists a', body a sym = Returns a') ->
  exists r, foldM body production acc = Returns r.
Proof.
  intros Hbody.
  destruct (foldM_total_invariant (fun _ => True) body production)
    with (acc := acc) as (r & Hr & _); [|exact I|eauto].
  intros a sym Hin _. destruct (Hbody a sym Hin) as (a' & Ha). eauto.
Qed.

(** Sampling at depth [n] goes [n] calls deep before the depth is
    exhausted. *)
Lemma sample_returns_at_depth (g : CFG) (k : nat) :
  (forall x prods, dict_get String.eqb (rules g) x = Some prods ->
     prods <> []) ->
  (forall x s, exists w s',
     sample rng randbelow k g (Some x) 0 s = Returns (w, s')) ->
  forall (max_depth : Z) (symbol : option string) (s : rng),
    exists w s',
      sample rng randbelow (Z.to_nat max_depth + k) g symbol max_depth s
      = Returns (w, s').
Proof.
  intros Hprods Hzero max_depth.
  destruct (Z.le_gt_cases max_depth 0) as [Hle|Hgt].
  { intros symbol s. rewrite sample_exhausted by assumption.
    replace (Z.to_nat max_depth) with 0 by lia.
    destruct symbol as [x|]; [|rewrite sample_start]; apply Hzero. }
  rewrite <- (Z2Nat.id max_depth) by lia.
  rewrite Nat2Z.id. generalize (Z.to_nat max_depth) as n.
  induction n as [|n IH]; intros symbol s.
  { destruct symbol as [x|]; [|rewrite sample_start]; apply Hzero. }
  cbn [Nat.add sample].
  set (x := match symbol with None => start_symbol g | Some x => x end).
  destruct (dict_get String.eqb (rules g) x) as [prods|] eqn:Ex; [|eauto].
  replace (Z.of_nat (S n) <=? 0)%Z with false by (symmetry; apply Z.leb_gt; lia).
  destruct (choice_returns prods s (Hprods x prods Ex)) as (p & s1 & -> & _).
  cbn [bind fst snd].
  replace (Z.of_nat (S n) - 1)%Z with (Z.of_nat n) by lia.
  match goal with
  | |- context [foldM ?body p ([], s1)] =>
      destruct (expand_returns body p ([], s1)) as (r & ->)
  end.
  - intros [result s2] sym _. destruct (IH (Some sym) s2) as (w & s3 & ->).
    cbn [bind]. eauto.
  - cbn [bind]. eauto.
Qed.

(** X15. In a grammar where every symbol with rules has a production,
    if sampling at depth zero returns within [k] nested calls, then
    sampling at any depth [max_depth] returns within [max_depth + k]
    nested calls, whatever the random choices. *)
Theorem sample_terminates (g : CFG) (k : nat) (max_depth : Z)
  (symbol : option string) (s : rng) :
  (forall x prods, dict_get String.eqb (rules g) x = Some prods ->
     prods <> []) ->
  (forall x s0, exists w s',
     sample rng randbelow k g (Some x) 0 s0 = Returns (w, s')) ->
  exists w s',
    sample rng randbelow (Z.to_nat max_depth + k) g symbol max_depth s
    = Returns (w, s').
Proof.
  intros Hprods Hzero.
  exact (sample_returns_at_depth g k Hprods Hzero max_depth symbol s).
Qed.

End SamplerRuns.

Local Open Scope string_scope.

Lemma sample_without_production_witness :
  sample (list nat) scripted_randbelow 1 (mkCFG [("S", [])] "S") (Some "S")
         5 []
  = Raises IndexError.
Proof.
  apply (sample_without_production (list nat) scripted_randbelow 0
           (mkCFG [("S", [])] "S") "S" 5 []).
  reflexivity.
Defined.

Lemma scripted_randbelow_lt (s : list nat) (n : nat) :
  0 < n -> fst (scripted_randbelow s n) < n.
Proof.
  intros Hn. destruct s as [|r s]; simpl; [assumption|].
  apply Nat.mod_upper_bound. lia.
Qed.

Section RegexRuns.
Variable rng : Type.
Variable randbelow : rng -> nat -> nat * rng.
Hypothesis randbelow_lt :
  forall s n, 0 < n -> fst (randbelow s n) < n.
Variable alt : string.

(** With the depth exhausted, a symbol whose productions all hold a
    symbol with rules, the shortest being the single symbol [y], is
    expanded as [y] is. *)
Lemma forced_single (g : CFG) (fuel : nat) (x y : string)
  (prods : list (list string)) (s s' : rng) (w : string) :
  dict_get String.eqb (rules g) x = Some prods ->
  filter (forallb (is_terminal g)) prods = [] ->
  shortest prods = Some [y] ->
  is_terminal g y = false ->
  sample rng randbelow fuel g (Some y) 0 s = Returns (w, s') ->
  exists w', sample rng randbelow (S fuel) g (Some x) 0 s = Returns (w', s').
Proof.
  intros Hx Hf Hs Hy Hw. cbn [sample]. rewrite Hx.
  change (0 <=? 0)%Z with true. cbv iota. rewrite Hf, Hs.
  cbn [lookup_or bind fst snd foldM]. rewrite Hy, Hw. cbn [bind fst snd].
  eauto.
Qed.

Lemma regex_atom (fuel : nat) (s : rng) :
  exists w s',
    sample rng randbelow (S fuel) (regex_cfg alt) (Some "A") 0 s
    = Returns (w, s').
Proof.
  cbn [sample].
  change (dict_get String.eqb (rules (regex_cfg alt)) "A")
    with (Some [["a"]; ["b"]; ["c"]; ["d"]; ["e"]; ["("; "R"; ")"]]).
  change (0 <=? 0)%Z with true. cbv iota.
  change (filter (forallb (is_terminal (regex_cfg alt)))
                 [["a"]; ["b"]; ["c"]; ["d"]; ["e"]; ["("; "R"; ")"]])
    with [["a"]; ["b"]; ["c"]; ["d"]; ["e"]].
  destruct (choice_returns rng randbelow randbelow_lt
              [["a"]; ["b"]; ["c"]; ["d"]; ["e"]] s)
    as (p & s1 & -> & Hp); [discriminate|].
  destruct Hp as [<-|[<-|[<-|[<-|[<-|[]]]]]]; eexists; eexists; reflexivity.
Qed.

Lemma regex_factor (fuel : nat) (s : rng) :
  exists w s',
    sample rng randbelow (S (S fuel)) (regex_cfg alt) (Some "F") 0 s
    = Returns (w, s').
Proof.
  destruct (regex_atom fuel s) as (w & s' & Hw).
  destruct (forced_single (regex_cfg alt) (S fuel) "F" "A"
              [["A"]; ["A"; "*"]] s s' w eq_refl eq_refl eq_refl eq_refl Hw)
    as (w' & H).
  eauto.
Qed.

Lemma regex_term (fuel : nat) (s : rng) :
  exists w s',
    sample rng randbelow (S (S (S fuel))) (regex_cfg alt) (Some "T") 0 s
    = Returns (w, s').
Proof.
  destruct (regex_factor fuel s) as (w & s' & Hw).
  destruct (forced_single (regex_cfg alt) (S (S fuel)) "T" "F"
              [["F"]; ["F"; "T"]] s s' w eq_refl eq_refl eq_refl eq_refl Hw)
    as (w' & H).
  eauto.
Qed.

Lemma regex_alternation (fuel : nat) (s : rng) :
  exists w s',
    sample rng randbelow (S (S (S (S fuel)))) (regex_cfg alt) (Some "R") 0 s
    = Returns (w, s').
Proof.
  destruct (regex_term fuel s) as (w & s' & Hw).
  destruct (forced_single (regex_cfg alt) (S (S (S fuel))) "R" "T"
              [["T"]; ["T"; alt; "R"]] s s' w eq_refl eq_refl eq_refl eq_refl
              Hw)
    as (w' & H).
  eauto.
Qed.

Lemma regex_symbols (x : string) :
  x = "R" \/ x = "T" \/ x = "F" \/ x = "A"
  \/ dict_get String.eqb (regex_rules alt) x = None.
Proof.
  cbn [regex_rules dict_get].
  destruct (String.eqb "R" x) eqn:ER; [apply String.eqb_eq in ER; auto|].
  destruct (String.eqb "T" x) eqn:ET; [apply String.eqb_eq in ET; auto|].
  destruct (String.eqb "F" x) eqn:EF; [apply String.eqb_eq in EF; auto|].
  destruct (String.eqb "A" x) eqn:EA; [apply String.eqb_eq in EA; auto 6|].
  auto 6.
Qed.

Lemma regex_exhausted (x : string) (s : rng) :
  exists w s',
    sample rng randbelow 4 (regex_cfg alt) (Some x) 0 s = Returns (w, s').
Proof.
  destruct (regex_symbols x) as [->|[->|[->|[->|H]]]].
  - apply regex_alternation.
  - apply regex_term.
  - apply regex_factor.
  - apply regex_atom.
  - cbn [sample]. change (rules (regex_cfg alt)) with (regex_rules alt).
    rewrite H. eauto.
Qed.

Lemma regex_productions (x : string) (prods : list (list string)) :
  dict_get String.eqb (rules (regex_cfg alt)) x = Some prods -> prods <> [].
Proof.
  change (rules (regex_cfg alt)) with (regex_rules alt).
  destruct (regex_symbols x) as [->|[->|[->|[->|H]]]];
    [intros [= <-]; discriminate.. | congruence].
Qed.

(** X16. Sampling from the grammars of the two scripts always returns:
    with any random choices and any [max_depth], [sample] returns a word
    within [max_depth + 4] nested calls (4 when [max_depth] is zero or
    negative). *)
Theorem regex_sample_terminates (max_depth : Z) (symbol : option string)
  (s : rng) :
  exists w s',
    sample rng randbelow (Z.to_nat max_depth + 4) (regex_cfg alt) symbol
           max_depth s
    = Returns (w, s').
Proof.
  exact (sample_returns_at_depth rng randbelow randbelow_lt (regex_cfg alt) 4
           regex_productions regex_exhausted max_depth symbol s).
Qed.

End RegexRuns.

Lemma sample_terminates_witness :
  exists w s',
    sample (list nat) scripted_randbelow 19 (regex_cfg "|") None 15
           [1; 1; 1; 5; 1; 1; 1; 5; 0; 2]
    = Returns (w, s').
Proof.
  apply (sample_terminates (list nat) scripted_randbelow scripted_randbelow_lt
           (regex_cfg "|") 4 15 None [1; 1; 1; 5; 1; 1; 1; 5; 0; 2]).
  - apply regex_productions.
  - apply (regex_exhausted (list nat) scripted_randbelow
             scripted_randbelow_lt).
Defined.

Lemma regex_sample_terminates_witness :
  exists w s',
    sample (list nat) scripted_randbelow 54 (regex_cfg "+") (Some "R") 50
           [1; 0; 1; 5]
    = Returns (w, s').
Proof.
  exact (regex_sample_terminates (list nat) scripted_randbelow
           scripted_randbelow_lt "+" 50 (Some "R") [1; 0; 1; 5]).
Defined.

Local Close Scope string_scope.

(** * [check_R_infinity]

    The syntactic monoid comes from pysemigroup; the function itself
    looks for two idempotents in one R-class. *)

(** [itertools.combinations(l, 2)] *)
Fixpoint combinations2 {A} (l : list A) : list (A * A) :=
  match l with
  | [] => []
  | x :: rest => map (pair x) rest ++ combinations2 rest
  end.

Section RInfinity.
Variable semigroup : Type.
Variable element : Type.
Variable r_class : Type.
(** [RegularLanguage.from_easy_regex(regex, alphabet).syntactic_monoid()] *)
Variable syntactic_monoid :
  string -> list string -> outcome semigroup.
Variable idempotents : semigroup -> list element.
Variable R_class_of_element : semigroup -> element -> r_class.
(** [==] on R-classes *)
Variable r_class_eqb : r_class -> r_class -> bool.

(** The loop over the pairs, left at the first pair in one R-class. *)
Fixpoint two_idempotents_in_the_same_R_class (sg : semigroup)
  (pairs : list (element * element)) : bool :=
  match pairs with
  | [] => false
  | (el1, el2) :: rest =>
      if r_class_eqb (R_class_of_element sg el1) (R_class_of_element sg el2)
      then true
      else two_idempotents_in_the_same_R_class sg rest
  end.

Definition check_R_infinity (regex : string) (alphabet : list string)
  : outcome bool :=
  sg <- syntactic_monoid regex alphabet ;;
  Returns (negb (two_idempotents_in_the_same_R_class sg
                   (combinations2 (idempotents sg)))).

Hypothesis r_class_eqb_eq : forall a b, r_class_eqb a b = true <-> a = b.

Lemma no_pair_with (sg : semigroup) (x : element) (rest : list element) :
  two_idempotents_in_the_same_R_class sg (map (pair x) rest) = false
  <-> ~ In (R_class_of_element sg x) (map (R_class_of_element sg) rest).
Proof.
  induction rest as [|y rest IH]; simpl; [tauto|].
  destruct (r_class_eqb (R_class_of_element sg x) (R_class_of_element sg y))
    eqn:E.
  - apply r_class_eqb_eq in E. split; [discriminate|]. intros H.
    exfalso. apply H. auto.
  - rewrite IH. split; [|tauto]. intros H [Hy|Hin]; [|tauto].
    symmetry in Hy. apply r_class_eqb_eq in Hy. congruence.
Qed.

Lemma no_pair_app (sg : semigroup) (l1 l2 : list (element * element)) :
  two_idempotents_in_the_same_R_class sg (l1 ++ l2)
  = two_idempotents_in_the_same_R_class sg l1
    || two_idempotents_in_the_same_R_class sg l2.
Proof.
  induction l1 as [|[a b] l1 IH]; simpl; [reflexivity|].
  destruct (r_class_eqb _ _); [reflexivity | exact IH].
Qed.

Lemma no_pair_NoDup (sg : semigroup) (l : list element) :
  two_idempotents_in_the_same_R_class sg (combinations2 l) = false
  <-> NoDup (map (R_class_of_element sg) l).
Proof.
  induction l as [|x l IH]; cbn [combinations2 map].
  - split; [constructor | reflexivity].
  - rewrite no_pair_app, orb_false_iff, no_pair_with, IH. split.
    + intros [Hx Hl]. now constructor.
    + intros H. inversion H; subst. auto.
Qed.

(** X17. When the syntactic monoid is computed, [check_R_infinity]
    returns [True] exactly when the idempotents that the monoid lists lie
    in pairwise different R-classes. *)
Theorem check_R_infinity_iff (regex : string) (alphabet : list string)
  (sg : semigroup) :
  syntactic_monoid regex alphabet = Returns sg ->
  exists b,
    check_R_infinity regex alphabet = Returns b
    /\ (b = true <-> NoDup (map (R_class_of_element sg) (idempotents sg))).
Proof.
  intros H. unfold check_R_infinity. rewrite H. cbn [bind].
  eexists. split; [reflexivity|].
  rewrite negb_true_iff. apply no_pair_NoDup.
Qed.

End RInfinity.

(** A monoid given by its idempotents and their R-classes, to run
    [check_R_infinity] on. *)
Lemma check_R_infinity_iff_witness :
  exists b,
    check_R_infinity (list (nat * nat)) nat nat (fun _ _ => Returns [(1, 0); (2, 5); (3, 5)])
      (map fst) (fun sg el => match dict_get Nat.eqb sg el with
                              | Some c => c
                              | None => 0
                              end)
      Nat.eqb "(ab)*" ["a"%string; "b"%string]
    = Returns b
    /\ (b = true <->
        NoDup (map (fun el => match dict_get Nat.eqb [(1, 0); (2, 5); (3, 5)] el with
                              | Some c => c
                              | None => 0
                              end)
                   (map fst [(1, 0); (2, 5); (3, 5)]))).
Proof.
  apply (check_R_infinity_iff (list (nat * nat)) nat nat
           (fun _ _ => Returns [(1, 0); (2, 5); (3, 5)])
           (map fst)
           (fun sg el => match dict_get Nat.eqb sg el with
                         | Some c => c
                         | None => 0
                         end)
           Nat.eqb Nat.eqb_eq "(ab)*" ["a"%string; "b"%string]).
  reflexivity.
Defined.

(** * The DOT text of an automaton

    [_build_dot_string] and [get_dot_string] of [dfa.py]. *)

Definition newline : string := String (Ascii.ascii_of_nat 10) EmptyString.
Definition quote : string := String (Ascii.ascii_of_nat 34) EmptyString.

(** [f'{state} [shape={shape}];'] *)
Definition state_line (dfa : DFA) (state : string) : string :=
  let shape :=
    if existsb (String.eqb state) (final_states dfa)
    then "doublecircle"%string else "circle"%string in
  (state ++ " [shape=" ++ shape ++ "];")%string.

(** [f'{from_state} -> {to_state} [label="{symbol}"];'] *)
Definition transition_line (from_state symbol to_state : string) : string :=
  (from_state ++ " -> " ++ to_state ++ " [label=" ++ quote ++ symbol
   ++ quote ++ "];")%string.

(** The list [dot_lines] that [_build_dot_string] fills. *)
Definition dot_lines (dfa : DFA) (rankdir : string) : list string :=
  ["digraph DFA {"%string;
   ("rankdir=" ++ rankdir ++ ";")%string;
   "node [shape=circle];"%string]
  ++ map (state_line dfa) (states dfa)
  ++ flat_map (fun '(from_state, row) =>
                 map (fun '(symbol, to_state) =>
                        transition_line from_state symbol to_state)
                     row)
              (transitions dfa)
  ++ [("_start [shape=point, label=" ++ quote ++ quote ++ "];")%string;
      ("_start -> " ++ initial_state dfa ++ ";")%string;
      "}"%string].

Definition _build_dot_string (dfa : DFA)
  (transition_labels : option (list (string * string))) (rankdir : string)
  : string :=
  String.concat newline (dot_lines dfa rankdir).

Definition get_dot_string (dfa : DFA) (rankdir : string) : string :=
  _build_dot_string dfa None rankdir.

(** The number of newline characters of a text. *)
Fixpoint newlines (s : string) : nat :=
  match s with
  | EmptyString => 0
  | String c s' =>
      (if Ascii.eqb c (Ascii.ascii_of_nat 10) then 1 else 0) + newlines s'
  end.

Lemma newlines_append (a b : string) :
  newlines (a ++ b)%string = newlines a + newlines b.
Proof.
  induction a as [|c a IH]; simpl; [reflexivity|]. rewrite IH. lia.
Qed.

Lemma newlines_concat (ls : list string) :
  Forall (fun l => newlines l = 0) ls ->
  newlines (String.concat newline ls) = List.length ls - 1.
Proof.
  induction 1 as [|l ls Hl Hls IH]; [reflexivity|].
  destruct ls as [|l' ls]; [simpl; lia|].
  change (String.concat newline (l :: l' :: ls))
    with (l ++ newline ++ String.concat newline (l' :: ls))%string.
  rewrite !newlines_append, IH, Hl. simpl. lia.
Qed.

(** The names of the automaton hold no newline. *)
Definition one_line_names (dfa : DFA) : Prop :=
  newlines (initial_state dfa) = 0
  /\ Forall (fun q => newlines q = 0) (states dfa)
  /\ Forall (fun '(q, row) =>
               newlines q = 0
               /\ Forall (fun '(sym, t) => newlines sym = 0 /\ newlines t = 0)
                         row)
            (transitions dfa).

Lemma dot_lines_one_line (dfa : DFA) (rankdir : string) :
  newlines rankdir = 0 -> one_line_names dfa ->
  Forall (fun l => newlines l = 0) (dot_lines dfa rankdir).
Proof.
  intros Hr (Hi & Hs & Ht). unfold dot_lines.
  apply Forall_app; split;
    [|apply Forall_app; split; [|apply Forall_app; split]].
  - repeat constructor. rewrite !newlines_append, Hr. reflexivity.
  - apply Forall_map. eapply Forall_impl; [|exact Hs]. intros q Hq.
    unfold state_line. cbv zeta. rewrite !newlines_append, Hq.
    destruct (existsb (String.eqb q) (final_states dfa)); reflexivity.
  - apply Forall_flat_map. eapply Forall_impl; [|exact Ht].
    intros [q row] [Hq Hrow]. apply Forall_map.
    eapply Forall_impl; [|exact Hrow]. intros [sym t] [Hsym Htgt].
    unfold transition_line.
    rewrite !newlines_append, Hq, Hsym, Htgt. reflexivity.
  - repeat constructor. rewrite !newlines_append, Hi. reflexivity.
Qed.

(** X18. When no name of the automaton and not [rankdir] holds a newline,
    the DOT text has one line for every state and one for every
    transition besides its six fixed lines, whatever [transition_labels]
    is given: the custom labels are never read. *)
Theorem build_dot_string_lines (dfa : DFA)
  (transition_labels : option (list (string * string))) (rankdir : string) :
  newlines rankdir = 0 -> one_line_names dfa ->
  newlines (_build_dot_string dfa transition_labels rankdir)
  = 5 + List.length (states dfa)
    + List.length (flat_map snd (transitions dfa))
  /\ _build_dot_string dfa transition_labels rankdir
     = get_dot_string dfa rankdir.
Proof.
  intros Hr Hnames. split; [|reflexivity].
  unfold _build_dot_string.
  rewrite newlines_concat by now apply dot_lines_one_line.
  unfold dot_lines. rewrite !length_app, length_map. cbn [List.length].
  assert (E : List.length
                (flat_map (fun '(from_state, row) =>
                             map (fun '(symbol, to_state) =>
                                    transition_line from_state symbol
                                                    to_state)
                                 row)
                          (transitions dfa))
              = List.length (flat_map snd (transitions dfa))).
  { induction (transitions dfa) as [|[q row] ts IH]; [reflexivity|].
    cbn [flat_map snd]. now rewrite !length_app, length_map, IH. }
  rewrite E. unfold state, symbol in *. lia.
Qed.

Lemma build_dot_string_lines_witness :
  newlines (_build_dot_string swap_dfa None "LR") = 9
  /\ _build_dot_string swap_dfa None "LR" = get_dot_string swap_dfa "LR".
Proof.
  apply (build_dot_string_lines swap_dfa None "LR").
  - reflexivity.
  - repeat split; repeat constructor.
Defined.

Lemma sample_n_derives_witness :
  List.length ["(a*a+a)*+a"; "a"]%string = 2
  /\ Forall (derives (regex_cfg "+") "R") ["(a*a+a)*+a"; "a"]%string.
Proof.
  apply (sample_n_derives (list nat) scripted_randbelow 60 (regex_cfg "+")
           None 2 [1; 0; 1; 5; 1; 1; 1; 0; 0; 2; 0; 0; 0; 2] []).
  vm_compute. reflexivity.
Defined.
